(** * Liftbridge: the metadata state machine and the commit-log segment

    A shallow embedding of [server/fsm.go] (the Raft FSM that applies
    metadata operations) and of [server/commitlog/segment.go] (one log
    file plus one index file with its waiters), together with the
    properties the design document states about them. *)

From Stdlib Require Import ZArith NArith List String Lia Bool Sorted.
From stdpp Require Import base option gmap strings list.
Import ListNotations.

(** ** Errors and fallible results, shared by both packages *)

Inductive result (E A : Type) : Type :=
| Ok (a : A)
| Err (e : E).
Arguments Ok {E A} a.
Arguments Err {E A} e.

#[global] Instance result_ret {E} : MRet (result E) := fun A a => Ok a.

#[global] Instance result_bind {E} : MBind (result E) :=
  fun A B k r => match r with Ok a => k a | Err e => Err e end.

Module FSM.

(** Go [error] values met in [fsm.go].  The three sentinels are package
    variables compared by identity; [errors.Wrap] and [fmt.Errorf] build new
    values that are never identical to a sentinel. *)
Inductive error : Type :=
| ErrPartitionExists
| ErrStreamNotFound
| ErrPartitionNotFound
| NoSuchPartition (stream : string) (partition : Z)
| UnknownRaftOperation (op : Z)
| Wrap (cause : error) (msg : string)
| Failure (msg : string).

#[global] Instance error_eq_dec : EqDecision error.
Proof. solve_decision. Defined.

(** Modelled from the spec: [proto.Partition], the replicated description of
    a partition (the generated protocol package is not part of the sources);
    its fields are the attributes the data model lists.  Epochs are [uint64]
    and only ever assigned and compared. *)
Record Partition : Type := mkPartition {
  Stream : string;
  Id : Z;
  Replicas : list string;
  Leader : string;
  Isr : list string;
  Epoch : N;
  LeaderEpoch : N;
  Paused : bool
}.

#[global] Instance Partition_eq_dec : EqDecision Partition.
Proof. solve_decision. Defined.

(** Modelled from the spec: the server-side [partition] (partition.go is not
    part of the sources), the embedded [*proto.Partition] and the run-time
    flags the state machine can observe.  [recovered] marks a partition
    created while replaying the Raft log and not started yet. *)
Record partition : Type := mkpartition {
  proto : Partition;
  recovered : bool;
  started : bool
}.

#[global] Instance partition_eq_dec : EqDecision partition.
Proof. solve_decision. Defined.

Definition withProto (p : partition) (q : Partition) : partition :=
  {| proto := q; recovered := recovered p; started := started p |}.

(** Modelled from the spec: [partition.GetEpoch] (partition.go is not part
    of the sources) reads the [epoch] attribute. *)
Definition GetEpoch (p : partition) : N := Epoch (proto p).

(** Modelled from the spec: [partition.SetEpoch] (partition.go is not part
    of the sources) writes the [epoch] attribute. *)
Definition SetEpoch (epoch : N) (p : partition) : partition :=
  withProto p
    {| Stream := Stream (proto p); Id := Id (proto p);
       Replicas := Replicas (proto p); Leader := Leader (proto p);
       Isr := Isr (proto p); Epoch := epoch;
       LeaderEpoch := LeaderEpoch (proto p); Paused := Paused (proto p) |}.

(** The metadata store: streams by name, each owning its partitions by id. *)
Abbreviation partitions := (gmap Z partition).
Abbreviation store := (gmap string (gmap Z partition)).

(** The methods of partitions, streams and the store that [fsm.go] calls and
    whose code is not part of the sources (partition.go, stream.go,
    metadata.go): they are parameters of the state machine.  A failing method
    reports an error and leaves its receiver as it was. *)
Class PartitionOps : Type := {
  RemoveFromISR : string -> partition -> result error partition;
  AddToISR : string -> partition -> result error partition;
  SetLeader : string -> N -> partition -> result error partition;
  StartRecovered : partition -> result error (partition * bool);
  Pause : list Z -> bool -> partitions -> result error partitions;
  CloseAndDeleteStream : string -> store -> result error store
}.

(** Modelled from the spec: [MetadataStore.GetStream] (metadata.go is not
    part of the sources) looks a stream up by name. *)
Definition GetStream (name : string) (m : store) : option partitions := m !! name.

(** Modelled from the spec: [MetadataStore.GetPartition] (metadata.go is not
    part of the sources) looks a partition up by stream name and id. *)
Definition GetPartition (name : string) (id : Z) (m : store) : option partition :=
  m !! name ≫= fun ps => ps !! id.

(** A partition as [AddPartition] creates it, started unless it is being
    recovered; and the store with a partition filed under a stream and id,
    the stream being created with its first partition. *)
Definition newPartition (p : Partition) (rec : bool) : partition :=
  {| proto := p; recovered := rec; started := negb rec |}.

Definition setPartition (name : string) (id : Z) (p : partition) (m : store) : store :=
  <[name := <[id := p]> (default ∅ (m !! name))]> m.

(** Modelled from the spec: [MetadataStore.AddPartition] (metadata.go is not
    part of the sources) yields the new partition or [ErrPartitionExists]; a
    partition added with [recovered = true] is created but not started. *)
Definition AddPartition (p : Partition) (rec : bool) (m : store)
  : result error (partition * store) :=
  match GetPartition (Stream p) (Id p) m with
  | Some _ => Err ErrPartitionExists
  | None =>
      let part := newPartition p rec in
      Ok (part, setPartition (Stream p) (Id p) part m)
  end.

(** Modelled from the spec: [MetadataStore.Reset] (metadata.go is not part
    of the sources) drops every stream. *)
Definition Reset (m : store) : result error store := Ok ∅.

(** The key a partition is filed under, and the store after adding every
    partition of a list with [recovered = false]. *)
Definition key (p : Partition) : string * Z := (Stream p, Id p).

Definition insertAll (ps : list Partition) (m : store) : store :=
  foldl (fun m p => setPartition (Stream p) (Id p) (newPartition p false) m)
        m ps.

(** The representation invariant of the store: a stream is present only
    while it owns a partition, and a partition is filed under its own stream
    name and id.  The observable metadata state is the replicated description
    of every partition. *)
Definition wellKeyed (m : store) : Prop :=
  forall name ps, m !! name = Some ps ->
    ps ≠ ∅ /\ forall id p, ps !! id = Some p ->
                Stream (proto p) = name /\ Id (proto p) = id.

Definition observable (m : store) : gmap string (gmap Z Partition) :=
  (fun ps : partitions => proto <$> ps) <$> m.

(** Modelled from the spec: [proto.RaftLog] (generated code, not part of the
    sources), the operation tag and its payload, one variant per operation;
    any other tag is [OtherOp]. *)
Inductive RaftLog : Type :=
| CreatePartitionOp (p : Partition)
| ShrinkISROp (stream replicaToRemove : string) (partition : Z)
| ChangeLeaderOp (stream leader : string) (partition : Z)
| ExpandISROp (stream replicaToAdd : string) (partition : Z)
| DeleteStreamOp (stream : string)
| PauseStreamOp (stream : string) (partitions : list Z) (resumeAll : bool)
| OtherOp (op : Z).

(** Modelled from the spec: [proto.MetadataSnapshot], the full partition
    list. *)
Record MetadataSnapshot : Type := mkSnapshot { Partitions : list Partition }.

(** [Marshal] and [Unmarshal] of the generated protobuf code, which is not
    part of the sources: parameters of the state machine.  A byte is an
    integer in [0, 256). *)
Class Codec : Type := {
  UnmarshalRaftLog : list Z -> result error RaftLog;
  MarshalSnapshot : MetadataSnapshot -> result error (list Z);
  UnmarshalSnapshot : list Z -> result error MetadataSnapshot
}.

(** [raft.Log] and the part of the Raft node the state machine consults. *)
Inductive LogType : Type :=
| LogCommand | LogNoop | LogAddPeerDeprecated | LogRemovePeerDeprecated
| LogBarrier | LogConfiguration.

#[global] Instance LogType_eq_dec : EqDecision LogType.
Proof. solve_decision. Defined.

Record raftLog : Type := mkLog {
  Index : N;
  Type_ : LogType;
  Data : list Z
}.

Record raftNode : Type := mkRaft {
  (** [strconv.ParseUint(raftNode.Stats()["commit_index"], 10, 64)] *)
  commit_index : result error N;
  (** [raftNode.store.FirstIndex()] *)
  FirstIndex : result error N;
  (** [raftNode.store.GetLog(i, log)] *)
  GetLog : N -> result error raftLog
}.

(** What the state machine did, in order (instrumentation only): calls of
    [startedRecovery], of [apply] with its index and [recovered] argument, and
    of [finishedRecovery]. *)
Inductive event : Type :=
| StartedRecovery
| Applied (index : N) (rec : bool)
| FinishedRecovery.

Record Server : Type := mkServer {
  recoveryStarted : bool;
  latestRecoveredLog : option raftLog;
  metadata : store;
  raft : raftNode;
  shutdown : bool;
  LogRecovery : bool;
  logDiscarded : bool;
  trace : list event
}.

Definition setMetadata (s : Server) (m : store) : Server :=
  {| recoveryStarted := recoveryStarted s;
     latestRecoveredLog := latestRecoveredLog s;
     metadata := m; raft := raft s; shutdown := shutdown s;
     LogRecovery := LogRecovery s; logDiscarded := logDiscarded s;
     trace := trace s |}.

Definition setRecovery (s : Server) (st : bool) (l : option raftLog) : Server :=
  {| recoveryStarted := st; latestRecoveredLog := l;
     metadata := metadata s; raft := raft s; shutdown := shutdown s;
     LogRecovery := LogRecovery s; logDiscarded := logDiscarded s;
     trace := trace s |}.

Definition setLogDiscarded (s : Server) (b : bool) : Server :=
  {| recoveryStarted := recoveryStarted s;
     latestRecoveredLog := latestRecoveredLog s;
     metadata := metadata s; raft := raft s; shutdown := shutdown s;
     LogRecovery := LogRecovery s; logDiscarded := b;
     trace := trace s |}.

Definition emit (s : Server) (e : event) : Server :=
  {| recoveryStarted := recoveryStarted s;
     latestRecoveredLog := latestRecoveredLog s;
     metadata := metadata s; raft := raft s; shutdown := shutdown s;
     LogRecovery := LogRecovery s; logDiscarded := logDiscarded s;
     trace := trace s ++ [e] |}.

(** *** recoverLatestCommittedFSMLog

    [scanLog n i] runs the loop [for i := commitIndex; i >= firstIndex; i--]
    for its [n] remaining iterations.  The loop is entered with
    [firstIndex >= 1], so [i - 1] never wraps below zero. *)
Fixpoint scanLog (getLog : N -> result error raftLog)
    (applyIndex commitIndex : N) (n : nat) (i : N)
  : result error (option raftLog) :=
  match n with
  | O => Ok None
  | S n' =>
      if (i =? applyIndex)%N && (applyIndex =? commitIndex)%N then
        (* We are committing the first FSM log. *)
        Ok None
      else
        log ← getLog i;
        if decide (Type_ log = LogCommand) then Ok (Some log)
        else scanLog getLog applyIndex commitIndex n' (i - 1)%N
  end.

(** Number of values [i] with [firstIndex <= i <= commitIndex]. *)
Definition iterations (firstIndex commitIndex : N) : nat :=
  N.to_nat (commitIndex + 1 - firstIndex).

Definition recoverLatestCommittedFSMLog (r : raftNode) (applyIndex : N)
  : result error (option raftLog) :=
  commitIndex ← commit_index r;
  firstIndex ← FirstIndex r;
  if (firstIndex =? 0)%N then
    (* No entries. *)
    Ok None
  else
    scanLog (GetLog r) applyIndex commitIndex
      (iterations firstIndex commitIndex) commitIndex.

(** The newest committed command entry with index strictly less than the
    index of the entry being applied, scanning backwards from [commit_index]
    to [first_index]: the recovery barrier in the words of the design
    document, to be compared with [recoverLatestCommittedFSMLog]. *)
Fixpoint newestCommandBelow (getLog : N -> result error raftLog)
    (applyIndex : N) (n : nat) (i : N) : option raftLog :=
  match n with
  | O => None
  | S n' =>
      match getLog i with
      | Ok log =>
          if bool_decide (Type_ log = LogCommand) && (i <? applyIndex)%N
          then Some log
          else newestCommandBelow getLog applyIndex n' (i - 1)%N
      | Err _ => newestCommandBelow getLog applyIndex n' (i - 1)%N
      end
  end.

Definition documentedBarrier (r : raftNode) (applyIndex : N) : option raftLog :=
  match commit_index r, FirstIndex r with
  | Ok commitIndex, Ok firstIndex =>
      newestCommandBelow (GetLog r) applyIndex
        (iterations firstIndex commitIndex) commitIndex
  | _, _ => None
  end.

(** The (stream, partition) pair named by an ISR or leader operation. *)
Definition target (log : RaftLog) : option (string * Z) :=
  match log with
  | ShrinkISROp stream _ partition
  | ChangeLeaderOp stream _ partition
  | ExpandISROp stream _ partition => Some (stream, partition)
  | _ => None
  end.

Section WithCollaborators.
Context `{ops : PartitionOps} `{codec : Codec}.

(** The partition method an ISR or leader operation calls. *)
Definition method (log : RaftLog) (epoch : N) (p : partition)
  : option (result error partition) :=
  match log with
  | ShrinkISROp _ replica _ => Some (RemoveFromISR replica p)
  | ChangeLeaderOp _ leader _ => Some (SetLeader leader epoch p)
  | ExpandISROp _ replica _ => Some (AddToISR replica p)
  | _ => None
  end.

(** *** The operations on the metadata store

    The texts of the messages built with [Sprintf] are abbreviated. *)

Definition applyCreatePartition (protoPartition : Partition) (rec : bool)
    (m : store) : result error store :=
  match AddPartition protoPartition rec m with
  | Err e =>
      if decide (e = ErrPartitionExists) then Err e
      else Err (Wrap e "failed to add partition to metadata store")
  | Ok (_, m') => Ok m'
  end.

Definition applyShrinkISR (stream replica : string) (partitionID : Z)
    (epoch : N) (m : store) : result error store :=
  match GetPartition stream partitionID m with
  | None => Err (NoSuchPartition stream partitionID)
  | Some partition =>
      (* Idempotency check. *)
      if (epoch <=? GetEpoch partition)%N then Ok m
      else
        match RemoveFromISR replica partition with
        | Err e => Err (Wrap e "failed to remove replica from ISR")
        | Ok partition' =>
            Ok (setPartition stream partitionID (SetEpoch epoch partition') m)
        end
  end.

Definition applyExpandISR (stream replica : string) (partitionID : Z)
    (epoch : N) (m : store) : result error store :=
  match GetPartition stream partitionID m with
  | None => Err (NoSuchPartition stream partitionID)
  | Some partition =>
      (* Idempotency check. *)
      if (epoch <=? GetEpoch partition)%N then Ok m
      else
        match AddToISR replica partition with
        | Err e => Err (Wrap e "failed to add replica to ISR")
        | Ok partition' =>
            Ok (setPartition stream partitionID (SetEpoch epoch partition') m)
        end
  end.

Definition applyChangeStreamLeader (stream leader : string) (partitionID : Z)
    (epoch : N) (m : store) : result error store :=
  match GetPartition stream partitionID m with
  | None => Err (NoSuchPartition stream partitionID)
  | Some partition =>
      (* Idempotency check. *)
      if (epoch <=? GetEpoch partition)%N then Ok m
      else
        match SetLeader leader epoch partition with
        | Err e => Err (Wrap e "failed to change partition leader")
        | Ok partition' =>
            Ok (setPartition stream partitionID (SetEpoch epoch partition') m)
        end
  end.

Definition applyDeleteStream (streamName : string) (m : store)
  : result error store :=
  match GetStream streamName m with
  | None => Err ErrStreamNotFound
  | Some _ =>
      match CloseAndDeleteStream streamName m with
      | Err e => Err (Wrap e "failed to delete stream")
      | Ok m' => Ok m'
      end
  end.

Definition applyPauseStream (streamName : string) (ids : list Z)
    (resumeAll : bool) (m : store) : result error store :=
  match GetStream streamName m with
  | None => Err ErrStreamNotFound
  | Some stream =>
      match Pause ids resumeAll stream with
      | Err e =>
          if decide (e = ErrPartitionNotFound) then Err e
          else Err (Wrap e "failed to pause stream")
      | Ok stream' => Ok (<[streamName := stream']> m)
      end
  end.

Definition withEpochs (p : Partition) (index : N) : Partition :=
  {| Stream := Stream p; Id := Id p; Replicas := Replicas p;
     Leader := Leader p; Isr := Isr p; Epoch := index;
     LeaderEpoch := index; Paused := Paused p |}.

(** [apply] returns the pair (value, err) of the Go function: [Ok (v, m)] is
    [return v, nil] with the store left as [m]; [Err e] is [return nil, e].
    The value is [nil] or one of the sentinels. *)
Definition apply (log : RaftLog) (index : N) (rec : bool) (m : store)
  : result error (option error * store) :=
  match log with
  | CreatePartitionOp partition =>
      (* Make sure to set the leader epoch on the stream. *)
      match applyCreatePartition (withEpochs partition index) rec m with
      | Err e =>
          if decide (e = ErrPartitionExists) then Ok (Some e, m) else Err e
      | Ok m' => Ok (None, m')
      end
  | ShrinkISROp stream replica partition =>
      m' ← applyShrinkISR stream replica partition index m; Ok (None, m')
  | ChangeLeaderOp stream leader partition =>
      m' ← applyChangeStreamLeader stream leader partition index m;
      Ok (None, m')
  | ExpandISROp stream replica partition =>
      m' ← applyExpandISR stream replica partition index m; Ok (None, m')
  | DeleteStreamOp stream =>
      match applyDeleteStream stream m with
      | Err e =>
          if decide (e = ErrStreamNotFound) then Ok (Some e, m) else Err e
      | Ok m' => Ok (None, m')
      end
  | PauseStreamOp stream ids resumeAll =>
      match applyPauseStream stream ids resumeAll m with
      | Err e =>
          if decide (e = ErrStreamNotFound \/ e = ErrPartitionNotFound)
          then Ok (Some e, m) else Err e
      | Ok m' => Ok (None, m')
      end
  | OtherOp op => Err (UnknownRaftOperation op)
  end.

(** The epochs of the mutations of partition [(name, id)] that are applied
    when the entries are applied in order from the store [m]: an entry counts
    when [apply] changes the partition; the run ends at the first error. *)
Fixpoint appliedEpochs (name : string) (id : Z) (entries : list (RaftLog * N))
    (m : store) : list N :=
  match entries with
  | [] => []
  | (log, index) :: rest =>
      match apply log index false m with
      | Ok (_, m') =>
          (if decide (GetPartition name id m' = GetPartition name id m)
           then [] else [index])
          ++ appliedEpochs name id rest m'
      | Err _ => []
      end
  end.

(** *** startedRecovery and finishedRecovery *)

Definition startedRecovery (s : Server) : Server :=
  let s := emit s StartedRecovery in
  if LogRecovery s then s else setLogDiscarded s true.

Definition startPartitions (ps : partitions)
  : result error (partitions * bool) :=
  foldl (fun (acc : result error (partitions * bool)) (kv : Z * partition) =>
           '(m, any) ← acc;
           '(p', r) ← StartRecovered kv.2;
           Ok (<[kv.1 := p']> m, any || r))
        (Ok (ps, false)) (map_to_list ps).

Definition finishedRecovery (s : Server) : result error (nat * Server) :=
  let s := if LogRecovery s then s else setLogDiscarded s false in
  '(m, count) ←
    foldl (fun (acc : result error (store * nat)) (kv : string * partitions) =>
             '(m, count) ← acc;
             '(ps', any) ← startPartitions kv.2;
             Ok (<[kv.1 := ps']> m, if (any : bool) then S count else count))
          (Ok (metadata s, O)) (map_to_list (metadata s));
  Ok (count, setMetadata s m).

(** *** Apply *)

Inductive outcome : Type :=
| Returns (v : option error)
| Panics (e : error).

(** The deferred call of [Apply]: it runs when the function body is done,
    whether the body returned or panicked. *)
Definition deferredFinish (finish : bool) (r : outcome * Server)
  : outcome * Server :=
  if finish then
    let s := emit (snd r) FinishedRecovery in
    match finishedRecovery s with
    | Err e => (Panics (Wrap e "failed to recover from Raft log"), s)
    | Ok (count, s') => (fst r, s')
    end
  else r.

(** The three parts of [Apply]: the block run while [recoveryStarted] is
    false, the computation of [recovered] with the scheduling of the deferred
    call, and the unmarshalling and application of the entry. *)
Definition establishBarrier (l : raftLog) (s : Server) : result error Server :=
  if recoveryStarted s then Ok s
  else
    lastCommittedLog ← recoverLatestCommittedFSMLog (raft s) (Index l);
    let s := setRecovery s true lastCommittedLog in
    Ok (match latestRecoveredLog s with
        | Some _ => startedRecovery s
        | None => s
        end).

Definition isRecovered (l : raftLog) (s : Server) : bool :=
  match latestRecoveredLog s with
  | Some b => (Index l <=? Index b)%N
  | None => false
  end.

Definition isBarrier (l : raftLog) (s : Server) : bool :=
  isRecovered l s &&
  match latestRecoveredLog s with
  | Some b => (Index l =? Index b)%N
  | None => false
  end.

Definition applyEntry (l : raftLog) (rec : bool) (s : Server)
  : outcome * Server :=
  match UnmarshalRaftLog (Data l) with
  | Err e => (Panics e, s)
  | Ok log =>
      let s := emit s (Applied (Index l) rec) in
      match apply log (Index l) rec (metadata s) with
      | Err e =>
          (* Don't panic if the server is shutting down, just return the
             error. *)
          if shutdown s then (Returns (Some e), s) else (Panics e, s)
      | Ok (value, m) => (Returns value, setMetadata s m)
      end
  end.

Definition Apply (l : raftLog) (s : Server) : outcome * Server :=
  match establishBarrier l s with
  | Err e => (Panics e, s)
  | Ok s =>
      let rec := isRecovered l s in
      let finish := isBarrier l s in
      let s := if finish then setRecovery s (recoveryStarted s) None else s in
      deferredFinish finish (applyEntry l rec s)
  end.

(** *** Snapshot, Persist and Restore *)

(** [binary.BigEndian.PutUint32] and [binary.BigEndian.Uint32];
    [uint32 v] is the conversion [uint32(len(b))], which keeps the low 32
    bits. *)
Definition uint32 (v : Z) : Z := (v mod 2 ^ 32)%Z.

Definition PutUint32 (v : Z) : list Z :=
  [ Z.shiftr v 24 mod 256; Z.shiftr v 16 mod 256;
    Z.shiftr v 8 mod 256; v mod 256 ]%Z.

Definition Uint32 (b : list Z) : Z :=
  match b with
  | [b0; b1; b2; b3] =>
      Z.lor (Z.lor (Z.lor b3 (Z.shiftl b2 8)) (Z.shiftl b1 16)) (Z.shiftl b0 24)
  | _ => 0%Z
  end.

(** [raft.SnapshotSink]: the bytes accepted so far, the answers of the calls
    of [Write] still to come (none left: the write succeeds), the answer of
    [Close], and what became of the sink. *)
Record SnapshotSink : Type := mkSink {
  sunk : list Z;
  writeFaults : list (option error);
  closeFault : option error;
  sinkClosed : bool;
  sinkCancelled : bool
}.

Definition sinkWrite (b : list Z) (k : SnapshotSink)
  : option error * SnapshotSink :=
  match writeFaults k with
  | Some e :: rest =>
      (Some e, {| sunk := sunk k; writeFaults := rest;
                  closeFault := closeFault k; sinkClosed := sinkClosed k;
                  sinkCancelled := sinkCancelled k |})
  | faults =>
      (None, {| sunk := sunk k ++ b; writeFaults := tail faults;
                closeFault := closeFault k; sinkClosed := sinkClosed k;
                sinkCancelled := sinkCancelled k |})
  end.

Definition sinkClose (k : SnapshotSink) : option error * SnapshotSink :=
  match closeFault k with
  | Some e => (Some e, k)
  | None =>
      (None, {| sunk := sunk k; writeFaults := writeFaults k;
                closeFault := closeFault k; sinkClosed := true;
                sinkCancelled := sinkCancelled k |})
  end.

Definition sinkCancel (k : SnapshotSink) : SnapshotSink :=
  {| sunk := sunk k; writeFaults := writeFaults k;
     closeFault := closeFault k; sinkClosed := sinkClosed k;
     sinkCancelled := true |}.

Definition Persist (f : MetadataSnapshot) (sink : SnapshotSink)
  : option error * SnapshotSink :=
  let r :=
    (* Encode data. *)
    match MarshalSnapshot f with
    | Err e => (Some e, sink)
    | Ok b =>
        (* Write size and data to sink. *)
        let sizeBuf := PutUint32 (uint32 (Z.of_nat (length b))) in
        match sinkWrite sizeBuf sink with
        | (Some e, sink) => (Some e, sink)
        | (None, sink) =>
            match sinkWrite b sink with
            | (Some e, sink) => (Some e, sink)
            | (None, sink) =>
                (* Close the sink. *)
                sinkClose sink
            end
        end
    end in
  match r with
  | (Some e, sink) => (Some e, sinkCancel sink)
  | (None, sink) => (None, sink)
  end.

(** The two nested loops over [GetStreams()] and [GetPartitions()]; Go visits
    a map in no fixed order, [map_to_list] is one such order. *)
Definition Snapshot (s : Server) : MetadataSnapshot :=
  {| Partitions :=
       map_to_list (metadata s) ≫= fun kv : string * partitions =>
         (fun ip : Z * partition => proto ip.2) <$> map_to_list kv.2 |}.

(** [io.ReadFull] on the rest of the snapshot stream. *)
Definition EOF : error := Failure "EOF".
Definition ErrUnexpectedEOF : error := Failure "unexpected EOF".

Definition ReadFull (n : nat) (snapshot : list Z)
  : result error (list Z * list Z) :=
  if decide (n = O) then Ok ([], snapshot)
  else if decide (n <= length snapshot)%nat
       then Ok (take n snapshot, drop n snapshot)
       else Err (match snapshot with [] => EOF | _ => ErrUnexpectedEOF end).

(** The loop of [Restore] over [snap.Partitions]. *)
Fixpoint restorePartitions (ps : list Partition) (m : store)
  : option error * store :=
  match ps with
  | [] => (None, m)
  | partition :: rest =>
      match applyCreatePartition partition false m with
      | Err e => (Some e, m)
      | Ok m' => restorePartitions rest m'
      end
  end.

Definition Restore (snapshot : list Z) (s : Server) : option error * Server :=
  (* Read snapshot size. *)
  match ReadFull 4 snapshot with
  | Err e => (Some e, s)
  | Ok (sizeBuf, snapshot) =>
      (* Read snapshot. *)
      let size := Uint32 sizeBuf in
      match ReadFull (Z.to_nat size) snapshot with
      | Err e => (Some e, s)
      | Ok (buf, _) =>
          match UnmarshalSnapshot buf with
          | Err e => (Some e, s)
          | Ok snap =>
              (* Drop state and restore. *)
              match Reset (metadata s) with
              | Err e => (Some e, s)
              | Ok m =>
                  let '(err, m') := restorePartitions (Partitions snap) m in
                  (err, setMetadata s m')
              end
          end
      end
  end.

End WithCollaborators.

(** *** The collaborators as the design document describes them *)

(** Assignments to one attribute of a partition. *)
Definition withIsr (p : partition) (isr : list string) : partition :=
  withProto p
    {| Stream := Stream (proto p); Id := Id (proto p);
       Replicas := Replicas (proto p); Leader := Leader (proto p);
       Isr := isr; Epoch := Epoch (proto p);
       LeaderEpoch := LeaderEpoch (proto p); Paused := Paused (proto p) |}.

Definition withLeader (p : partition) (leader : string) (epoch : N) : partition :=
  withProto p
    {| Stream := Stream (proto p); Id := Id (proto p);
       Replicas := Replicas (proto p); Leader := leader;
       Isr := Isr (proto p); Epoch := Epoch (proto p);
       LeaderEpoch := epoch; Paused := Paused (proto p) |}.

Definition withPaused (p : partition) (b : bool) : partition :=
  withProto p
    {| Stream := Stream (proto p); Id := Id (proto p);
       Replicas := Replicas (proto p); Leader := Leader (proto p);
       Isr := Isr (proto p); Epoch := Epoch (proto p);
       LeaderEpoch := LeaderEpoch (proto p); Paused := b |}.

(** Modelled from the spec: [partition.RemoveFromISR] mutates the ISR set and
    fails if the replica is unknown. *)
Definition specRemoveFromISR (replica : string) (p : partition)
  : result error partition :=
  if decide (replica ∈ Replicas (proto p))
  then Ok (withIsr p (filter (fun r => r ≠ replica) (Isr (proto p))))
  else Err (Failure "not a replica").

(** Modelled from the spec: [partition.AddToISR] mutates the ISR set and
    fails if the replica is unknown. *)
Definition specAddToISR (replica : string) (p : partition)
  : result error partition :=
  if decide (replica ∈ Replicas (proto p))
  then Ok (withIsr p (if decide (replica ∈ Isr (proto p)) then Isr (proto p)
                      else Isr (proto p) ++ [replica]))
  else Err (Failure "not a replica").

(** Modelled from the spec: [partition.SetLeader] updates leader and leader
    epoch. *)
Definition specSetLeader (leader : string) (epoch : N) (p : partition)
  : result error partition :=
  Ok (withLeader p leader epoch).

(** Modelled from the spec: [partition.StartRecovered] starts a partition
    created during recovery and is idempotent; it tells whether it started
    the partition. *)
Definition specStartRecovered (p : partition) : result error (partition * bool) :=
  if recovered p
  then Ok ({| proto := proto p; recovered := false; started := true |}, true)
  else Ok (p, false).

(** Modelled from the spec: [stream.Pause] sets the paused flag of the listed
    partitions (of all of them when none is listed), resumes the others when
    [resumeAll] is set, and fails with [ErrPartitionNotFound] if a listed
    partition does not exist. *)
Definition specPause (ids : list Z) (resumeAll : bool) (ps : partitions)
  : result error partitions :=
  if decide (Forall (fun id => is_Some (ps !! id)) ids)
  then Ok (map_imap (fun id p =>
             Some (if decide (ids = [] \/ id ∈ ids) then withPaused p true
                   else if resumeAll then withPaused p false else p)) ps)
  else Err ErrPartitionNotFound.

(** Modelled from the spec: [MetadataStore.CloseAndDeleteStream] drops the
    stream with its partitions. *)
Definition specCloseAndDeleteStream (name : string) (m : store)
  : result error store :=
  Ok (delete name m).

#[local] Instance specOps : PartitionOps := {|
  RemoveFromISR := specRemoveFromISR;
  AddToISR := specAddToISR;
  SetLeader := specSetLeader;
  StartRecovered := specStartRecovered;
  Pause := specPause;
  CloseAndDeleteStream := specCloseAndDeleteStream
|}.

(** *** Concrete states used in the examples *)

Definition orders0 : Partition :=
  {| Stream := "orders"; Id := 0; Replicas := ["n1"; "n2"]; Leader := "n1";
     Isr := ["n1"; "n2"]; Epoch := 1; LeaderEpoch := 1; Paused := false |}.

Definition store0 : store :=
  setPartition "orders" 0 (newPartition orders0 false) ∅.

(** A stand-in for the generated protobuf code in the examples: a codec
    that knows four log entries and two snapshots. *)
Definition shrinkUnknown : RaftLog := ShrinkISROp "orders" "n9" 0.
Definition shrinkN2 : RaftLog := ShrinkISROp "orders" "n2" 0.
Definition shrinkMissing : RaftLog := ShrinkISROp "payments" "n2" 0.
Definition createOrders0 : RaftLog := CreatePartitionOp orders0.

Definition tableUnmarshalRaftLog (data : list Z) : result error RaftLog :=
  match data with
  | [1%Z] => Ok shrinkUnknown
  | [2%Z] => Ok shrinkN2
  | [3%Z] => Ok shrinkMissing
  | [4%Z] => Ok createOrders0
  | _ => Err (Failure "proto: illegal wireType")
  end.

Definition tableMarshalSnapshot (f : MetadataSnapshot)
  : result error (list Z) :=
  if decide (Partitions f = []) then Ok []
  else if decide (Partitions f = [orders0]) then Ok [10; 6]%Z
  else Err (Failure "proto: unsupported").

Definition tableUnmarshalSnapshot (data : list Z)
  : result error MetadataSnapshot :=
  match data with
  | [] => Ok {| Partitions := [] |}
  | [10; 6]%Z => Ok {| Partitions := [orders0] |}
  | _ => Err (Failure "proto: illegal wireType")
  end.

#[local] Instance tableCodec : Codec := {|
  UnmarshalRaftLog := tableUnmarshalRaftLog;
  MarshalSnapshot := tableMarshalSnapshot;
  UnmarshalSnapshot := tableUnmarshalSnapshot
|}.

Definition entry (index : N) (data : list Z) : raftLog :=
  {| Index := index; Type_ := LogCommand; Data := data |}.

Definition quietRaft : raftNode :=
  {| commit_index := Ok 0%N; FirstIndex := Ok 0%N;
     GetLog := fun _ => Err (Failure "log not found") |}.

(** A Raft log holding the command entries 1, 2 and 3, all committed. *)
Definition raft3 : raftNode :=
  {| commit_index := Ok 3%N; FirstIndex := Ok 1%N;
     GetLog := fun i =>
       if bool_decide (1 <= i <= 3)%N
       then Ok (entry i [4%Z])
       else Err (Failure "log not found") |}.

Definition server0 (r : raftNode) (started : bool) (m : store) : Server :=
  {| recoveryStarted := started; latestRecoveredLog := None; metadata := m;
     raft := r; shutdown := false; LogRecovery := false;
     logDiscarded := false; trace := [] |}.

(** *** Runs of the state machine

    Raft hands the committed entries to [Apply] one at a time, in log order.
    A panic ends the process: the run stops there, with the state the
    panicking call left behind. *)

Section Runs.
Context `{ops : PartitionOps} `{codec : Codec}.

Fixpoint applyEntries (ls : list raftLog) (s : Server) : Server :=
  match ls with
  | [] => s
  | l :: rest =>
      match Apply l s with
      | (Returns _, s') => applyEntries rest s'
      | (Panics _, s') => s'
      end
  end.

End Runs.

Section Started.
Context `{ops : PartitionOps}.

(** What [StartRecovered] makes of a partition and what it reports, read off
    its answer. *)
Definition afterStart (p : partition) : partition :=
  match StartRecovered p with Ok (p', _) => p' | Err _ => p end.

Definition reportsRecovered (p : partition) : bool :=
  match StartRecovered p with Ok (_, r) => r | Err _ => false end.

(** The streams [finishedRecovery] counts: those with a partition that
    reports it was recovered. *)
Definition anyRecovered (ps : partitions) : bool :=
  existsb (fun ip : Z * partition => reportsRecovered ip.2) (map_to_list ps).

Definition countRecovered (m : store) : nat :=
  length (List.filter (fun kv : string * partitions => anyRecovered kv.2)
            (map_to_list m)).

End Started.

(** A second stand-in codec, for the entries of the stream operations and
    for an operation the state machine does not know. *)
Definition deleteOrders : RaftLog := DeleteStreamOp "orders".
Definition deletePayments : RaftLog := DeleteStreamOp "payments".
Definition pausePayments : RaftLog := PauseStreamOp "payments" [0%Z] false.
Definition unknownOp : RaftLog := OtherOp 99.

Definition streamUnmarshalRaftLog (data : list Z) : result error RaftLog :=
  match data with
  | [5%Z] => Ok deleteOrders
  | [6%Z] => Ok deletePayments
  | [7%Z] => Ok pausePayments
  | [8%Z] => Ok unknownOp
  | _ => Err (Failure "proto: illegal wireType")
  end.

#[local] Instance streamCodec : Codec := {|
  UnmarshalRaftLog := streamUnmarshalRaftLog;
  MarshalSnapshot := tableMarshalSnapshot;
  UnmarshalSnapshot := tableUnmarshalSnapshot
|}.

(** Collaborators that fail: [CloseAndDeleteStream] as when the files of the
    stream cannot be removed, [StartRecovered] on every partition that
    awaits its start. *)
#[local] Instance failingOps : PartitionOps := {|
  RemoveFromISR := specRemoveFromISR;
  AddToISR := specAddToISR;
  SetLeader := specSetLeader;
  StartRecovered := fun p =>
    if recovered p then Err (Failure "failed to start partition")
    else Ok (p, false);
  Pause := specPause;
  CloseAndDeleteStream := fun _ _ => Err ErrStreamNotFound
|}.

(** The states a run can reach from a server that has not applied anything:
    nothing recorded yet; no recovery needed; recovering; recovered. *)
Definition protocolState (s : Server) : Prop :=
  (recoveryStarted s = false /\ trace s = []) \/
  (recoveryStarted s = true /\
   exists mixed falses : list event,
     Forall (fun ev => exists i r, ev = Applied i r) mixed
     /\ Forall (fun ev => exists i, ev = Applied i false) falses
     /\ (latestRecoveredLog s = None
         /\ (trace s = falses
             \/ trace s = StartedRecovery :: mixed ++ FinishedRecovery :: falses)
         \/ is_Some (latestRecoveredLog s) /\ trace s = StartedRecovery :: mixed)).

End FSM.

Module Segment.

Open Scope Z_scope.

(** Errors of package [commitlog] met in [segment.go]. *)
Inductive error : Type :=
| ErrEntryNotFound
| ErrSegmentClosed
| ErrSegmentExists
| ErrSegmentReplaced
| EOF
| Wrap (cause : error) (msg : string)
| IOError (msg : string).

#[global] Instance error_eq_dec : EqDecision error.
Proof. solve_decision. Defined.

(** Run-time panics a segment operation can raise. *)
Inductive panic : Type :=
| CloseOfClosedChannel
| IndexOutOfRange.

(** [int64] addition wraps. *)
Definition wrap64 (z : Z) : Z := (z + 2 ^ 63) mod 2 ^ 64 - 2 ^ 63.

(** Modelled from the spec: an index entry as the segment reads it (index.go
    is not part of the sources). *)
Record entry : Type := mkEntry {
  Offset : Z;
  Timestamp : Z;
  Position : Z
}.

(** A waiter is an opaque identity; a channel is a reference allocated by
    [make]. *)
Abbreviation waiter := nat.
Abbreviation chan := nat.

(** The world outside the segment: the channels made so far, each open
    ([false]) or closed ([true]), a channel being its position in the list;
    and the answers of the fallible system calls still to come, in order
    (none left: the call succeeds).  A failing call tells its error and how
    many bytes it transferred before failing. *)
Record fault : Type := mkFault { ferr : error; fdone : nat }.

Record world : Type := mkWorld {
  chans : list bool;
  script : list (option fault)
}.

Definition sys (w : world) : option fault * world :=
  match script w with
  | [] => (None, w)
  | a :: rest => (a, {| chans := chans w; script := rest |})
  end.

(** [make(chan struct{})] and [close(ch)]; closing a closed channel panics. *)
Definition makeChan (w : world) : chan * world :=
  (length (chans w), {| chans := chans w ++ [false]; script := script w |}).

Definition closeChan (ch : chan) (w : world) : result panic world :=
  match chans w !! ch with
  | Some false => Ok {| chans := <[ch := true]> (chans w); script := script w |}
  | _ => Err CloseOfClosedChannel
  end.

Definition isClosed (ch : chan) (w : world) : Prop := chans w !! ch = Some true.
Definition isOpen (ch : chan) (w : world) : Prop := chans w !! ch = Some false.

(** [os.File]: the bytes of the file and whether the handle is open. *)
Record file : Type := mkFile { fdata : list Z; fopen : bool }.

(** Modelled from the spec: the index of a segment (index.go is not part of
    the sources) holds fixed-width entries in write order. *)
Record index : Type := mkIndex {
  ientries : list entry;
  iclosed : bool;
  ishrunk : bool
}.

(** Modelled from the spec: [index.writeEntries] appends the entries. *)
Definition index_writeEntries (entries : list entry) (ix : index) (w : world)
  : option error * index * world :=
  match sys w with
  | (Some f, w) => (Some (ferr f), ix, w)
  | (None, w) =>
      (None, {| ientries := ientries ix ++ entries; iclosed := iclosed ix;
                ishrunk := ishrunk ix |}, w)
  end.

(** Modelled from the spec: [index.Shrink] truncates the file to its used
    size. *)
Definition index_Shrink (ix : index) (w : world) : option error * index * world :=
  match sys w with
  | (Some f, w) => (Some (ferr f), ix, w)
  | (None, w) =>
      (None, {| ientries := ientries ix; iclosed := iclosed ix;
                ishrunk := true |}, w)
  end.

(** Modelled from the spec: [index.Close] closes the index. *)
Definition index_Close (ix : index) (w : world) : option error * index * world :=
  match sys w with
  | (Some f, w) => (Some (ferr f), ix, w)
  | (None, w) =>
      (None, {| ientries := ientries ix; iclosed := true;
                ishrunk := ishrunk ix |}, w)
  end.

(** Modelled from the spec: [newIndex] opens the index file, whose entries
    are [entries]. *)
Definition newIndex (entries : list entry) (w : world)
  : result error index * world :=
  match sys w with
  | (Some f, w) => (Err (ferr f), w)
  | (None, w) =>
      (Ok {| ientries := entries; iclosed := false; ishrunk := false |}, w)
  end.

(** Modelled from the spec: [index.InitializePosition] yields the last entry,
    or nothing for an empty index. *)
Definition index_InitializePosition (ix : index) (w : world)
  : result error (option entry) * world :=
  match sys w with
  | (Some f, w) => (Err (ferr f), w)
  | (None, w) => (Ok (last (ientries ix)), w)
  end.

(** Modelled from the spec: [index.ReadEntryAtFileOffset] reads the entry at
    a file offset, given here as the entry's rank. *)
Definition index_ReadEntryAtFileOffset (ix : index) (i : nat) (w : world)
  : result error entry * world :=
  match sys w with
  | (Some f, w) => (Err (ferr f), w)
  | (None, w) =>
      (match ientries ix !! i with
       | Some e => Ok e
       | None => Err EOF
       end, w)
  end.

(** The segment.  [writer] and [reader] are the same [*os.File] as [log]. *)
Record segment : Type := mkSegment {
  log : file;
  Index : index;
  BaseOffset : Z;
  firstOffset : Z;
  lastOffset : Z;
  firstWriteTime : Z;
  lastWriteTime : Z;
  position : Z;
  maxBytes : Z;
  path : string;
  suffix : string;
  waiters : gmap waiter chan;
  sealed : bool;
  closed : bool;
  replaced : bool
}.

(** Assignments to one field of the segment. *)
Definition set_log (v : file) (s : segment) : segment :=
  {| log := v; Index := Index s; BaseOffset := BaseOffset s;
     firstOffset := firstOffset s; lastOffset := lastOffset s;
     firstWriteTime := firstWriteTime s; lastWriteTime := lastWriteTime s;
     position := position s; maxBytes := maxBytes s; path := path s;
     suffix := suffix s; waiters := waiters s; sealed := sealed s;
     closed := closed s; replaced := replaced s |}.

Definition set_Index (v : index) (s : segment) : segment :=
  {| log := log s; Index := v; BaseOffset := BaseOffset s;
     firstOffset := firstOffset s; lastOffset := lastOffset s;
     firstWriteTime := firstWriteTime s; lastWriteTime := lastWriteTime s;
     position := position s; maxBytes := maxBytes s; path := path s;
     suffix := suffix s; waiters := waiters s; sealed := sealed s;
     closed := closed s; replaced := replaced s |}.

Definition set_firstOffset (v : Z) (s : segment) : segment :=
  {| log := log s; Index := Index s; BaseOffset := BaseOffset s;
     firstOffset := v; lastOffset := lastOffset s;
     firstWriteTime := firstWriteTime s; lastWriteTime := lastWriteTime s;
     position := position s; maxBytes := maxBytes s; path := path s;
     suffix := suffix s; waiters := waiters s; sealed := sealed s;
     closed := closed s; replaced := replaced s |}.

Definition set_lastOffset (v : Z) (s : segment) : segment :=
  {| log := log s; Index := Index s; BaseOffset := BaseOffset s;
     firstOffset := firstOffset s; lastOffset := v;
     firstWriteTime := firstWriteTime s; lastWriteTime := lastWriteTime s;
     position := position s; maxBytes := maxBytes s; path := path s;
     suffix := suffix s; waiters := waiters s; sealed := sealed s;
     closed := closed s; replaced := replaced s |}.

Definition set_firstWriteTime (v : Z) (s : segment) : segment :=
  {| log := log s; Index := Index s; BaseOffset := BaseOffset s;
     firstOffset := firstOffset s; lastOffset := lastOffset s;
     firstWriteTime := v; lastWriteTime := lastWriteTime s;
     position := position s; maxBytes := maxBytes s; path := path s;
     suffix := suffix s; waiters := waiters s; sealed := sealed s;
     closed := closed s; replaced := replaced s |}.

Definition set_lastWriteTime (v : Z) (s : segment) : segment :=
  {| log := log s; Index := Index s; BaseOffset := BaseOffset s;
     firstOffset := firstOffset s; lastOffset := lastOffset s;
     firstWriteTime := firstWriteTime s; lastWriteTime := v;
     position := position s; maxBytes := maxBytes s; path := path s;
     suffix := suffix s; waiters := waiters s; sealed := sealed s;
     closed := closed s; replaced := replaced s |}.

Definition set_position (v : Z) (s : segment) : segment :=
  {| log := log s; Index := Index s; BaseOffset := BaseOffset s;
     firstOffset := firstOffset s; lastOffset := lastOffset s;
     firstWriteTime := firstWriteTime s; lastWriteTime := lastWriteTime s;
     position := v; maxBytes := maxBytes s; path := path s;
     suffix := suffix s; waiters := waiters s; sealed := sealed s;
     closed := closed s; replaced := replaced s |}.

Definition set_suffix (v : string) (s : segment) : segment :=
  {| log := log s; Index := Index s; BaseOffset := BaseOffset s;
     firstOffset := firstOffset s; lastOffset := lastOffset s;
     firstWriteTime := firstWriteTime s; lastWriteTime := lastWriteTime s;
     position := position s; maxBytes := maxBytes s; path := path s;
     suffix := v; waiters := waiters s; sealed := sealed s;
     closed := closed s; replaced := replaced s |}.

Definition set_waiters (v : gmap waiter chan) (s : segment) : segment :=
  {| log := log s; Index := Index s; BaseOffset := BaseOffset s;
     firstOffset := firstOffset s; lastOffset := lastOffset s;
     firstWriteTime := firstWriteTime s; lastWriteTime := lastWriteTime s;
     position := position s; maxBytes := maxBytes s; path := path s;
     suffix := suffix s; waiters := v; sealed := sealed s;
     closed := closed s; replaced := replaced s |}.

Definition set_sealed (v : bool) (s : segment) : segment :=
  {| log := log s; Index := Index s; BaseOffset := BaseOffset s;
     firstOffset := firstOffset s; lastOffset := lastOffset s;
     firstWriteTime := firstWriteTime s; lastWriteTime := lastWriteTime s;
     position := position s; maxBytes := maxBytes s; path := path s;
     suffix := suffix s; waiters := waiters s; sealed := v;
     closed := closed s; replaced := replaced s |}.

Definition set_closed (v : bool) (s : segment) : segment :=
  {| log := log s; Index := Index s; BaseOffset := BaseOffset s;
     firstOffset := firstOffset s; lastOffset := lastOffset s;
     firstWriteTime := firstWriteTime s; lastWriteTime := lastWriteTime s;
     position := position s; maxBytes := maxBytes s; path := path s;
     suffix := suffix s; waiters := waiters s; sealed := sealed s;
     closed := v; replaced := replaced s |}.

Definition set_replaced (v : bool) (s : segment) : segment :=
  {| log := log s; Index := Index s; BaseOffset := BaseOffset s;
     firstOffset := firstOffset s; lastOffset := lastOffset s;
     firstWriteTime := firstWriteTime s; lastWriteTime := lastWriteTime s;
     position := position s; maxBytes := maxBytes s; path := path s;
     suffix := suffix s; waiters := waiters s; sealed := sealed s;
     closed := closed s; replaced := v |}.

(** *** newSegment and setupIndex

    [onDisk] is what the file system holds at the segment's paths: nothing,
    or the bytes of the log file and the entries of the index file. *)
Definition setupIndex (entries : list entry) (s : segment) (w : world)
  : option error * segment * world :=
  match newIndex entries w with
  | (Err e, w) =>
      (Some e, set_Index {| ientries := []; iclosed := true; ishrunk := false |} s, w)
  | (Ok ix, w) =>
      let s := set_Index ix s in
      match index_InitializePosition ix w with
      | (Err e, w) => (Some e, s, w)
      | (Ok None, w) => (None, s, w)
      | (Ok (Some lastEntry), w) =>
          (* If lastEntry is nil, the index is empty. *)
          let s := set_lastWriteTime (Timestamp lastEntry)
                     (set_lastOffset (Offset lastEntry) s) in
          (* Read the first entry to get firstOffset and firstWriteTime. *)
          match index_ReadEntryAtFileOffset ix 0 w with
          | (Err e, w) => (Some e, s, w)
          | (Ok firstEntry, w) =>
              (None, set_firstWriteTime (Timestamp firstEntry)
                       (set_firstOffset (Offset firstEntry) s), w)
          end
      end
  end.

Definition newSegment (path : string) (baseOffset maxBytes : Z) (isNew : bool)
    (suffix : string) (onDisk : option (list Z * list entry)) (w : world)
  : result error (option error * segment) * world :=
  let s := {| log := {| fdata := []; fopen := false |};
              Index := {| ientries := []; iclosed := true; ishrunk := false |};
              BaseOffset := baseOffset; firstOffset := -1; lastOffset := -1;
              firstWriteTime := 0; lastWriteTime := 0; position := 0;
              maxBytes := maxBytes; path := path; suffix := suffix;
              waiters := ∅; sealed := false; closed := false;
              replaced := false |} in
  (* If this is a new segment, ensure the file doesn't already exist. *)
  if isNew && bool_decide (is_Some onDisk) then (Err ErrSegmentExists, w)
  else
    match sys w with
    | (Some f, w) => (Err (Wrap (ferr f) "open file failed"), w)
    | (None, w) =>
        match sys w with
        | (Some f, w) => (Err (Wrap (ferr f) "stat file failed"), w)
        | (None, w) =>
            let data := default [] (fst <$> onDisk) in
            let s := set_position (Z.of_nat (length data))
                       (set_log {| fdata := data; fopen := true |} s) in
            let '(err, s, w) := setupIndex (default [] (snd <$> onDisk)) s w in
            (Ok (err, s), w)
        end
    end.

(** *** Waiters *)

(** The [range] loop of [notifyWaiters]: close the channel, delete the key.
    Go visits the map in no fixed order, [map_to_list] is one such order. *)
Definition notifyWaiters (s : segment) (w : world)
  : result panic (segment * world) :=
  foldl (fun (acc : result panic (segment * world)) (rc : waiter * chan) =>
           '(s, w) ← acc;
           w ← closeChan rc.2 w;
           Ok (set_waiters (delete rc.1 (waiters s)) s, w))
        (Ok (s, w)) (map_to_list (waiters s)).

Definition waitForData (r : waiter) (pos : Z) (s : segment) (w : world)
  : result panic (chan * segment * world) :=
  (* Check if we're already registered. *)
  match waiters s !! r with
  | Some wait => Ok (wait, s, w)
  | None =>
      let '(wait, w) := makeChan w in
      (* Check if data has been written and/or the segment was filled. *)
      if (pos <? position s) || (maxBytes s <=? position s) then
        w ← closeChan wait w; Ok (wait, s, w)
      else Ok (wait, set_waiters (<[r := wait]> (waiters s)) s, w)
  end.

Definition WaitForLEO (r : waiter) (leo : Z) (s : segment) (w : world)
  : result panic (chan * segment * world) :=
  if negb (lastOffset s =? leo) then
    let '(ch, w) := makeChan w in
    w ← closeChan ch w; Ok (ch, s, w)
  else waitForData r (position s) s w.

Definition WaitForData (r : waiter) (pos : Z) (s : segment) (w : world)
  : result panic (chan * segment * world) :=
  waitForData r pos s w.

Definition removeWaiter (r : waiter) (s : segment) : segment :=
  set_waiters (delete r (waiters s)) s.

(** *** Seal, write, read *)

Definition Seal (s : segment) (w : world) : result panic (segment * world) :=
  if sealed s then Ok (s, w)
  else
    let s := set_sealed true s in
    (* Notify any readers waiting for data. *)
    '(s, w) ← notifyWaiters s w;
    let '(_, ix, w) := index_Shrink (Index s) w in
    Ok (set_Index ix s, w).

(** [writer.Write(p)] on the log file opened with [O_APPEND]. *)
Definition file_Write (p : list Z) (f : file) (w : world)
  : (nat * option error) * file * world :=
  match sys w with
  | (Some flt, w) =>
      let n := Nat.min (fdone flt) (length p) in
      ((n, Some (ferr flt)), {| fdata := fdata f ++ take n p; fopen := fopen f |}, w)
  | (None, w) =>
      ((length p, None), {| fdata := fdata f ++ p; fopen := fopen f |}, w)
  end.

(** [entries[i]]: out of range panics. *)
Definition at_index {A} (l : list A) (i : Z) : result panic A :=
  if i <? 0 then Err IndexOutOfRange
  else match l !! Z.to_nat i with
       | Some a => Ok a
       | None => Err IndexOutOfRange
       end.

Definition write (p : list Z) (entries : list entry) (s : segment) (w : world)
  : result panic ((nat * option error) * segment * world) :=
  if closed s then Ok ((O, Some ErrSegmentClosed), s, w)
  else
    match file_Write p (log s) w with
    | ((n, Some e), f, w) =>
        Ok ((n, Some (Wrap e "log write failed")), set_log f s, w)
    | ((n, None), f, w) =>
        let s := set_log f s in
        let s := set_position (wrap64 (position s + Z.of_nat n)) s in
        s ← (if firstWriteTime s =? 0 then
               first ← at_index entries 0;
               Ok (set_firstWriteTime (Timestamp first)
                     (set_firstOffset (Offset first) s))
             else Ok s);
        last ← at_index entries (Z.of_nat (length entries) - 1);
        let s := set_lastWriteTime (Timestamp last)
                   (set_lastOffset (Offset last) s) in
        '(s, w) ← notifyWaiters s w;
        Ok ((n, None), s, w)
    end.

Definition WriteMessageSet (ms : list Z) (entries : list entry) (s : segment)
    (w : world) : result panic (option error * segment * world) :=
  '(r, s, w) ← write ms entries s w;
  match r.2 with
  | Some e => Ok (Some e, s, w)
  | None =>
      let '(err, ix, w) := index_writeEntries entries (Index s) w in
      Ok (err, set_Index ix s, w)
  end.

(** [log.ReadAt(p, off)] with [len(p) = n]: the bytes read, and [EOF] when
    fewer than [n] are left. *)
Definition file_ReadAt (n : nat) (off : Z) (f : file) (w : world)
  : (list Z * option error) * world :=
  match sys w with
  | (Some flt, w) => (([], Some (ferr flt)), w)
  | (None, w) =>
      if off <? 0 then (([], Some (IOError "negative offset")), w)
      else
        let bytes := take n (drop (Z.to_nat off) (fdata f)) in
        ((bytes, if (length bytes <? n)%nat then Some EOF else None), w)
  end.

Definition ReadAt (n : nat) (off : Z) (s : segment) (w : world)
  : (list Z * option error) * world :=
  if closed s then
    if replaced s then (([], Some ErrSegmentReplaced), w)
    else (([], Some ErrSegmentClosed), w)
  else file_ReadAt n off (log s) w.

(** *** Close and Replace *)

Definition file_Close (f : file) (w : world) : option error * file * world :=
  match sys w with
  | (Some flt, w) => (Some (ferr flt), f, w)
  | (None, w) => (None, {| fdata := fdata f; fopen := false |}, w)
  end.

Definition close (s : segment) (w : world) : option error * segment * world :=
  if closed s then (None, s, w)
  else
    match file_Close (log s) w with
    | (Some e, f, w) => (Some e, set_log f s, w)
    | (None, f, w) =>
        let s := set_log f s in
        match index_Close (Index s) w with
        | (Some e, ix, w) => (Some e, set_Index ix s, w)
        | (None, ix, w) => (None, set_closed true (set_Index ix s), w)
        end
    end.

Definition Close (s : segment) (w : world) : option error * segment * world :=
  close s w.

(** [os.Rename] and [os.OpenFile]. *)
Definition os_call (w : world) : option error * world :=
  match sys w with
  | (Some flt, w) => (Some (ferr flt), w)
  | (None, w) => (None, w)
  end.

(** [s.Replace(old)]: the result is the error and the two segments, the
    callee first. *)
Definition Replace (s old : segment) (w : world)
  : option error * (segment * segment) * world :=
  match close old w with
  | (Some e, old, w) => (Some e, (s, old), w)
  | (None, old, w) =>
      match close s w with
      | (Some e, s, w) => (Some e, (s, old), w)
      | (None, s, w) =>
          match os_call w with
          | (Some e, w) => (Some e, (s, old), w)
          | (None, w) =>
              match os_call w with
              | (Some e, w) => (Some e, (s, old), w)
              | (None, w) =>
                  let s := set_suffix EmptyString s in
                  match os_call w with
                  | (Some e, w) =>
                      (Some (Wrap e "open file failed"), (s, old), w)
                  | (None, w) =>
                      let s := set_log {| fdata := fdata (log s); fopen := true |} s in
                      let s := set_closed false s in
                      let old := set_replaced true old in
                      let '(err, s, w) := setupIndex (ientries (Index s)) s w in
                      (err, (s, old), w)
                  end
              end
          end
      end
  end.

(** *** Sequences of operations on one segment *)

(** Every registered waiter holds an open channel, and no two waiters hold
    the same channel. *)
Definition waitersOpen (s : segment) (w : world) : Prop :=
  (forall r ch, waiters s !! r = Some ch -> isOpen ch w)
  /\ (forall r1 r2 ch,
       waiters s !! r1 = Some ch -> waiters s !! r2 = Some ch -> r1 = r2).

Inductive op : Type :=
| OpWrite (ms : list Z) (entries : list entry)
| OpSeal
| OpWaitForLEO (r : waiter) (leo : Z)
| OpWaitForData (r : waiter) (pos : Z)
| OpRemoveWaiter (r : waiter)
| OpReadAt (n : nat) (off : Z)
| OpClose.

Definition step (o : op) (s : segment) (w : world)
  : result panic (segment * world) :=
  match o with
  | OpWrite ms entries =>
      '(_, s, w) ← WriteMessageSet ms entries s w; Ok (s, w)
  | OpSeal => Seal s w
  | OpWaitForLEO r leo => '(_, s, w) ← WaitForLEO r leo s w; Ok (s, w)
  | OpWaitForData r pos => '(_, s, w) ← WaitForData r pos s w; Ok (s, w)
  | OpRemoveWaiter r => Ok (removeWaiter r s, w)
  | OpReadAt n off => Ok (s, (ReadAt n off s w).2)
  | OpClose => let '(_, s, w) := Close s w in Ok (s, w)
  end.

Fixpoint run (ops : list op) (s : segment) (w : world)
  : result panic (segment * world) :=
  match ops with
  | [] => Ok (s, w)
  | o :: rest => '(s, w) ← step o s w; run rest s w
  end.

(** *** Concrete states used in the examples *)

Definition world0 : world := {| chans := []; script := [] |}.

Definition entry0 : entry := {| Offset := 0; Timestamp := 1000; Position := 0 |}.

(** The segment [newSegment] opens on a log file of five bytes whose index
    holds one entry. *)
Definition segment5 : segment :=
  {| log := {| fdata := [1; 2; 3; 4; 5]; fopen := true |};
     Index := {| ientries := [entry0]; iclosed := false; ishrunk := false |};
     BaseOffset := 0; firstOffset := 0; lastOffset := 0;
     firstWriteTime := 1000; lastWriteTime := 1000; position := 5;
     maxBytes := 100; path := "/data"; suffix := EmptyString;
     waiters := ∅; sealed := false; closed := false; replaced := false |}.

(** Its compacted sibling, opened by [Cleaned]. *)
Definition cleaned5 : segment :=
  {| log := {| fdata := [1; 2; 3]; fopen := true |};
     Index := {| ientries := [entry0]; iclosed := false; ishrunk := false |};
     BaseOffset := 0; firstOffset := 0; lastOffset := 0;
     firstWriteTime := 1000; lastWriteTime := 1000; position := 3;
     maxBytes := 100; path := "/data"; suffix := ".cleaned";
     waiters := ∅; sealed := false; closed := false; replaced := false |}.

(** A new, empty segment. *)
Definition fresh : segment :=
  {| log := {| fdata := []; fopen := true |};
     Index := {| ientries := []; iclosed := false; ishrunk := false |};
     BaseOffset := 0; firstOffset := -1; lastOffset := -1;
     firstWriteTime := 0; lastWriteTime := 0; position := 0;
     maxBytes := 100; path := "/data"; suffix := EmptyString;
     waiters := ∅; sealed := false; closed := false; replaced := false |}.

(** [segment5] with waiter 7 registered on channel 0, and the world that
    holds this one open channel. *)
Definition registered5 : segment := set_waiters {[7%nat := 0%nat]} segment5.

Definition world1 : world := {| chans := [false]; script := [] |}.

Definition entry1 : entry := {| Offset := 1; Timestamp := 2000; Position := 5 |}.



(** A world in which the fifth system call, the first [os.Rename] of
    [Replace], fails; and one in which the next call fails. *)
Definition renameFails : world :=
  {| chans := [];
     script := [None; None; None; None;
                Some {| ferr := IOError "rename"; fdone := O |}] |}.

Definition diskFull : world :=
  {| chans := [];
     script := [Some {| ferr := IOError "no space left on device"; fdone := O |}] |}.

(** *** Further operations of the segment *)

(** *** Offsets, emptiness and the split check *)

Definition NextOffset (s : segment) : Z :=
  (* If the segment hasn't been written to, the next offset should be the
     base offset. *)
  if lastOffset s =? -1 then BaseOffset s else wrap64 (lastOffset s + 1).

Definition FirstOffset (s : segment) : Z := firstOffset s.

Definition LastOffset (s : segment) : Z := lastOffset s.

Definition IsEmpty (s : segment) : bool := firstOffset s =? -1.

(** [CheckSplit]; [now] is the value of [timestamp()], the clock in Unix
    nanoseconds, and [logRollTime] the duration in nanoseconds. *)
Definition CheckSplit (logRollTime now : Z) (s : segment) : bool :=
  if maxBytes s <=? position s then true
  else if (logRollTime =? 0) || (firstWriteTime s =? 0) then
    (* Don't roll a new segment if there have been no writes to the segment
       or LogRollTime is disabled. *)
    false
  else logRollTime <=? wrap64 (now - firstWriteTime s).

(** [Cleaned] and [Truncated] open the sibling files of the segment. *)
Definition cleanedSuffix : string := ".cleaned".
Definition truncatedSuffix : string := ".truncated".

Definition Cleaned (s : segment) (onDisk : option (list Z * list entry))
    (w : world) : result error (option error * segment) * world :=
  newSegment (path s) (BaseOffset s) (maxBytes s) false cleanedSuffix onDisk w.

Definition Truncated (s : segment) (onDisk : option (list Z * list entry))
    (w : world) : result error (option error * segment) * world :=
  newSegment (path s) (BaseOffset s) (maxBytes s) false truncatedSuffix onDisk w.

(** *** findEntry and findEntryByTimestamp *)

(** [sort.Search(n, f)]: the loop [for i < j] with [h := int(uint(i+j) >> 1)],
    [i = h + 1] when [f(h)] is false and [j = h] otherwise.  The predicate
    reads and writes a state and may panic.  Every turn shrinks [j - i], so
    the [n] turns allowed from [i = 0], [j = n] are never used up. *)
Fixpoint searchLoop {St : Type} (turns : nat)
    (f : nat -> St -> result error (bool * St)) (i j : nat) (st : St)
  : result error (nat * St) :=
  match turns with
  | O => Ok (i, st)
  | S turns' =>
      if (i <? j)%nat then
        let h := ((i + j) / 2)%nat in
        '(b, st) ← f h st;
        if (b : bool) then searchLoop turns' f i h st
        else searchLoop turns' f (h + 1)%nat j st
      else Ok (i, st)
  end.

Definition sort_Search {St : Type} (n : nat)
    (f : nat -> St -> result error (bool * St)) (st : St)
  : result error (nat * St) :=
  searchLoop n f O n st.

(** The closure handed to [sort.Search]: it reads entry [i] into the shared
    [e] and compares one of its fields with the target; a failed read
    panics with the error.  The state is [e] and the world. *)
Definition probe (field : entry -> Z) (target : Z) (ix : index) (i : nat)
    (st : entry * world) : result error (bool * (entry * world)) :=
  match index_ReadEntryAtFileOffset ix i st.2 with
  | (Err err, w) => Err err
  | (Ok e, w) => Ok (target <=? field e, (e, w))
  end.

(** Modelled from the spec: [Index.Position() / entryWidth] is the number of
    entries the index holds (index.go is not part of the sources). *)
Definition index_count (ix : index) : nat := length (ientries ix).

(** [findEntry] returns the pair [(e, err)]; [Err] is a panic of the
    closure.  A failed last read leaves in [e] what the search read last. *)
Definition findEntry (offset : Z) (s : segment) (w : world)
  : result error ((option entry * option error) * world) :=
  let e := {| Offset := 0; Timestamp := 0; Position := 0 |} in
  let n := index_count (Index s) in
  '(idx, (e, w)) ← sort_Search n (probe Offset offset (Index s)) (e, w);
  if decide (idx = n) then Ok ((None, Some ErrEntryNotFound), w)
  else
    match index_ReadEntryAtFileOffset (Index s) idx w with
    | (Err err, w) => Ok ((Some e, Some err), w)
    | (Ok e, w) => Ok ((Some e, None), w)
    end.

Definition findEntryByTimestamp (timestamp : Z) (s : segment) (w : world)
  : result error ((option entry * option error) * world) :=
  let e := {| Offset := 0; Timestamp := 0; Position := 0 |} in
  let n := index_count (Index s) in
  '(idx, (e, w)) ← sort_Search n (probe Timestamp timestamp (Index s)) (e, w);
  if decide (idx = n) then Ok ((None, Some ErrEntryNotFound), w)
  else
    match index_ReadEntryAtFileOffset (Index s) idx w with
    | (Err err, w) => Ok ((Some e, Some err), w)
    | (Ok e, w) => Ok ((Some e, None), w)
    end.

(** *** The cached fields and the files *)

(** The cached fields agree with the files: the position is the size of the
    log file, and the first and last offsets and write times are those of
    the first and last index entries, or the initial values while the index
    is empty.  The first entry carries a write time other than 0, the value
    that marks a segment without writes. *)
Definition inSync (s : segment) : Prop :=
  position s = Z.of_nat (length (fdata (log s)))
  /\ match head (ientries (Index s)), last (ientries (Index s)) with
     | Some f, Some l =>
         firstOffset s = Offset f /\ firstWriteTime s = Timestamp f
         /\ lastOffset s = Offset l /\ lastWriteTime s = Timestamp l
         /\ Timestamp f ≠ 0
     | _, _ =>
         firstOffset s = -1 /\ lastOffset s = -1
         /\ firstWriteTime s = 0 /\ lastWriteTime s = 0
     end.

(** The bytes a run hands to [WriteMessageSet], and whether every batch of
    entries it hands over is non-empty and starts with a write time other
    than 0. *)
Definition bytesOf (o : op) : Z :=
  match o with
  | OpWrite ms _ => Z.of_nat (length ms)
  | _ => 0
  end.

Definition bytesOfRun (ops : list op) : Z :=
  foldr (fun o acc => bytesOf o + acc) 0 ops.

Definition stamped (o : op) : Prop :=
  match o with
  | OpWrite _ entries =>
      match head entries with
      | Some first => Timestamp first ≠ 0
      | None => False
      end
  | _ => True
  end.

(** Moving a change of the [sealed] flag across the result of an
    operation. *)
Definition withSealed (b : bool) (r : result panic (segment * world))
  : result panic (segment * world) :=
  match r with
  | Ok (s, w) => Ok (set_sealed b s, w)
  | Err p => Err p
  end.

(** An index of three entries and the open segment on it. *)
Definition entry2 : entry := {| Offset := 4; Timestamp := 3000; Position := 9 |}.

Definition segment3 : segment :=
  {| log := {| fdata := [1; 2; 3; 4; 5; 6; 7; 8; 9; 10]; fopen := true |};
     Index := {| ientries := [entry0; entry1; entry2]; iclosed := false;
                 ishrunk := false |};
     BaseOffset := 0; firstOffset := 0; lastOffset := 4;
     firstWriteTime := 1000; lastWriteTime := 3000; position := 10;
     maxBytes := 100; path := "/data"; suffix := EmptyString;
     waiters := ∅; sealed := false; closed := false; replaced := false |}.

End Segment.

(** * Properties of the metadata state machine *)

Module FSMTheory.
Import FSM.

Section Collaborators.
Context `{ops : PartitionOps} `{codec : Codec}.

Lemma GetPartition_setPartition (name : string) (id : Z) (p : partition) (m : store) :
  GetPartition name id (setPartition name id p m) = Some p.
Proof.
  unfold GetPartition, setPartition.
  rewrite lookup_insert_eq. simpl. apply lookup_insert_eq.
Qed.

Lemma GetPartition_setPartition_ne (name name' : string) (id id' : Z)
    (p : partition) (m : store) :
  (name, id) ≠ (name', id') ->
  GetPartition name' id' (setPartition name id p m) = GetPartition name' id' m.
Proof.
  intros Hne. unfold GetPartition, setPartition.
  destruct (decide (name = name')) as [->|Hn].
  - rewrite lookup_insert_eq. simpl.
    rewrite lookup_insert_ne by congruence.
    destruct (m !! name'); simpl; [done | apply lookup_empty].
  - by rewrite lookup_insert_ne.
Qed.

Lemma GetEpoch_SetEpoch (e : N) (p : partition) : GetEpoch (SetEpoch e p) = e.
Proof. reflexivity. Qed.

(** The shape shared by [applyShrinkISR], [applyExpandISR] and
    [applyChangeStreamLeader], read through the dispatcher [apply]. *)
Lemma apply_epoch_op (log : RaftLog) (e : N) (rec : bool) (m : store)
    (name : string) (id : Z) :
  target log = Some (name, id) ->
  match GetPartition name id m with
  | None => apply log e rec m = Err (NoSuchPartition name id)
  | Some p =>
      if (e <=? GetEpoch p)%N then apply log e rec m = Ok (None, m)
      else match method log e p with
           | Some (Ok p') =>
               apply log e rec m
               = Ok (None, setPartition name id (SetEpoch e p') m)
           | Some (Err err) => exists msg, apply log e rec m = Err (Wrap err msg)
           | None => False
           end
  end.
Proof.
  intros Ht.
  destruct log; simpl in Ht; try discriminate; injection Ht as <- <-;
    simpl; unfold applyShrinkISR, applyChangeStreamLeader, applyExpandISR;
    (destruct (GetPartition _ _ m) as [p|]; [|reflexivity]);
    (destruct (_ <=? _)%N; [reflexivity|]);
    match goal with |- context [match ?r with Ok _ => _ | Err _ => _ end] =>
      destruct r end; simpl; eauto.
Qed.

(** One ISR or leader entry leaves every partition as it was or strictly
    raises its epoch, to the entry's. *)
Lemma apply_epoch_step (log : RaftLog) (e : N) (rec : bool) (m m' : store)
    (v : option error) (name : string) (id : Z) (p : partition) :
  is_Some (target log) ->
  GetPartition name id m = Some p ->
  apply log e rec m = Ok (v, m') ->
  exists p', GetPartition name id m' = Some p'
    /\ (p' = p \/ (GetEpoch p < GetEpoch p')%N /\ GetEpoch p' = e).
Proof.
  intros [[n i] Ht] Hp Ha.
  pose proof (apply_epoch_op log e rec m n i Ht) as H.
  destruct (GetPartition n i m) as [q|] eqn:Hq; [|congruence].
  destruct (N.leb_spec e (GetEpoch q)) as [Hle|Hlt].
  { rewrite H in Ha. injection Ha as <- <-. eauto. }
  destruct (method log e q) as [[q'|err]|]; [| |contradiction].
  2: { destruct H as [msg H]. congruence. }
  rewrite H in Ha. injection Ha as <- <-.
  destruct (decide ((n, i) = (name, id))) as [[= -> ->]|Hne].
  - rewrite GetPartition_setPartition. eexists. split; [reflexivity|].
    right. rewrite GetEpoch_SetEpoch. split; [congruence | reflexivity].
  - rewrite GetPartition_setPartition_ne by done. eauto.
Qed.

Lemma appliedEpochs_sorted (name : string) (id : Z)
    (entries : list (RaftLog * N)) :
  forall (m : store) (p : partition),
  Forall (fun le => is_Some (target le.1)) entries ->
  GetPartition name id m = Some p ->
  StronglySorted N.lt (appliedEpochs name id entries m)
  /\ Forall (N.lt (GetEpoch p)) (appliedEpochs name id entries m).
Proof.
  induction entries as [|[log e] rest IH]; intros m p Hall Hp; simpl.
  { split; constructor. }
  apply Forall_cons in Hall as [Ht Hall]. simpl in Ht.
  destruct (apply log e false m) as [[v m']|err] eqn:Ha; [|split; constructor].
  destruct (apply_epoch_step _ _ _ _ _ _ _ _ _ Ht Hp Ha) as (p' & Hp' & Hcase).
  destruct (IH m' p' Hall Hp') as [Hs Hf].
  rewrite Hp', Hp.
  destruct (decide (Some p' = Some p)) as [[= ->]|Hne]; simpl; [done|].
  destruct Hcase as [->|[Hlt He]]; [done|].
  rewrite He in Hf, Hlt. split.
  - by constructor.
  - constructor; [done|].
    eapply Forall_impl; [exact Hf|]. intros x Hx. simpl in Hx. lia.
Qed.

End Collaborators.

Section ApplyLemmas.
Context `{ops : PartitionOps} `{codec : Codec}.

Lemma establishBarrier_frame (l : raftLog) (s s1 : Server) :
  establishBarrier l s = Ok s1 ->
  metadata s1 = metadata s /\ shutdown s1 = shutdown s
  /\ recoveryStarted s1 = true.
Proof.
  unfold establishBarrier.
  destruct (recoveryStarted s) eqn:Hst.
  - intros [= <-]. auto.
  - destruct (recoverLatestCommittedFSMLog _ _) as [b|e]; simpl; [|discriminate].
    intros [= <-]. destruct b; simpl; auto.
    unfold startedRecovery. simpl. destruct (LogRecovery s); simpl; auto.
Qed.

Lemma establishBarrier_started (l : raftLog) (s : Server) :
  recoveryStarted s = true -> establishBarrier l s = Ok s.
Proof. intros H. unfold establishBarrier. by rewrite H. Qed.

Lemma finishedRecovery_frame (s s' : Server) (count : nat) :
  finishedRecovery s = Ok (count, s') ->
  trace s' = trace s /\ recoveryStarted s' = recoveryStarted s
  /\ latestRecoveredLog s' = latestRecoveredLog s.
Proof.
  unfold finishedRecovery.
  match goal with |- context [foldl ?f ?a ?l] => destruct (foldl f a l) as [[m c]|e] end;
    simpl; [|discriminate].
  intros [= <- <-]. destruct (LogRecovery s); simpl; auto.
Qed.

Lemma deferredFinish_outcome (fin : bool) (r : outcome * Server) :
  (deferredFinish fin r).1 = r.1 \/ exists e, (deferredFinish fin r).1 = Panics e.
Proof.
  unfold deferredFinish. destruct fin; [|auto].
  destruct (finishedRecovery _) as [[c s']|e]; simpl; eauto.
Qed.

(** Once the recovery barrier is behind, [Apply] is [applyEntry] with
    [recovered = false]. *)
Lemma Apply_normal (l : raftLog) (s : Server) :
  recoveryStarted s = true -> latestRecoveredLog s = None ->
  Apply l s = applyEntry l false s.
Proof.
  intros Hst Hb. unfold Apply. rewrite establishBarrier_started by done.
  unfold isBarrier, isRecovered. rewrite Hb. reflexivity.
Qed.

End ApplyLemmas.

Section RecoveryLemmas.
Context `{ops : PartitionOps} `{codec : Codec}.

(** The scan below the first iteration, or for an entry that is not the
    commit index: it stops at the newest command entry. *)
Lemma scanLog_newest (getLog : N -> result error raftLog) (a c lo : N) (n : nat) :
  forall i : N,
  (a ≠ c \/ i < c)%N ->
  (N.of_nat n + lo = i + 1)%N ->
  (forall j, (lo <= j <= i)%N -> exists log, getLog j = Ok log) ->
  match scanLog getLog a c n i with
  | Ok None =>
      forall j log, (lo <= j <= i)%N -> getLog j = Ok log -> Type_ log ≠ LogCommand
  | Ok (Some b) =>
      exists k, (lo <= k <= i)%N /\ getLog k = Ok b /\ Type_ b = LogCommand
        /\ forall j log, (k < j <= i)%N -> getLog j = Ok log -> Type_ log ≠ LogCommand
  | Err _ => False
  end.
Proof.
  induction n as [|n IH]; intros i Hac Hn Htot; simpl.
  - intros j log Hj. lia.
  - assert (Hchk : (i =? a)%N && (a =? c)%N = false).
    { apply andb_false_iff.
      destruct Hac as [Hac|Hac]; [right; by apply N.eqb_neq|].
      destruct (N.eqb_spec a c) as [->|]; [left; apply N.eqb_neq; lia|by right]. }
    rewrite Hchk.
    destruct (Htot i ltac:(lia)) as [log Hlog]. rewrite Hlog. simpl.
    destruct (decide (Type_ log = LogCommand)) as [Hc|Hc].
    + exists i. split; [lia|]. split; [done|]. split; [done|].
      intros j log' Hj. lia.
    + destruct n as [|n].
      * simpl. intros j log' Hj Hj'.
        assert (j = i) as -> by lia. congruence.
      * assert (Hac' : (a ≠ c \/ i - 1 < c)%N)
          by (destruct Hac; [by left | right; lia]).
        specialize (IH (i - 1)%N Hac' ltac:(lia)
                      ltac:(intros; apply Htot; lia)).
        destruct (scanLog getLog a c (S n) (i - 1)%N) as [[b|]|e].
        -- destruct IH as (k & Hk & Hget & Hty & Hnew).
           exists k. split; [lia|]. split; [done|]. split; [done|].
           intros j log' Hj Hj'.
           destruct (decide (j = i)) as [->|]; [congruence|].
           apply (Hnew j log'); [lia|done].
        -- intros j log' Hj Hj'.
           destruct (decide (j = i)) as [->|]; [congruence|].
           apply (IH j log'); [lia|done].
        -- exact IH.
Qed.

Lemma applyEntry_frame (l : raftLog) (rec : bool) (s : Server) (log : RaftLog) :
  UnmarshalRaftLog (Data l) = Ok log ->
  trace (applyEntry l rec s).2 = trace s ++ [Applied (Index l) rec]
  /\ recoveryStarted (applyEntry l rec s).2 = recoveryStarted s
  /\ latestRecoveredLog (applyEntry l rec s).2 = latestRecoveredLog s.
Proof.
  intros Hu. unfold applyEntry. rewrite Hu. cbv zeta.
  destruct (apply log _ _ _) as [[v m]|e]; simpl; [auto|].
  destruct (shutdown s); simpl; auto.
Qed.

Lemma deferredFinish_frame (fin : bool) (r : outcome * Server) :
  trace (deferredFinish fin r).2
  = trace r.2 ++ (if fin then [FinishedRecovery] else [])
  /\ recoveryStarted (deferredFinish fin r).2 = recoveryStarted r.2
  /\ latestRecoveredLog (deferredFinish fin r).2 = latestRecoveredLog r.2.
Proof.
  unfold deferredFinish. destruct fin; [|by rewrite app_nil_r].
  cbv zeta.
  destruct (finishedRecovery _) as [[c s']|e] eqn:Hf; simpl; [|auto].
  apply finishedRecovery_frame in Hf as (-> & -> & ->). auto.
Qed.

Lemma establishBarrier_spec (l : raftLog) (s : Server) (b : option raftLog) :
  (if recoveryStarted s then Ok (latestRecoveredLog s)
   else recoverLatestCommittedFSMLog (raft s) (Index l)) = Ok b ->
  exists s1, establishBarrier l s = Ok s1
    /\ latestRecoveredLog s1 = b /\ recoveryStarted s1 = true
    /\ trace s1 = trace s ++
         (if recoveryStarted s then []
          else match b with Some _ => [StartedRecovery] | None => [] end).
Proof.
  unfold establishBarrier. destruct (recoveryStarted s) eqn:Hst.
  - intros [= <-]. exists s. by rewrite app_nil_r.
  - intros ->. simpl. destruct b as [bl|]; simpl.
    + eexists. split; [reflexivity|]. unfold startedRecovery. simpl.
      destruct (LogRecovery s); simpl; auto.
    + eexists. split; [reflexivity|]. simpl. by rewrite app_nil_r.
Qed.

End RecoveryLemmas.

(** ** The snapshot *)

Section SnapshotLemmas.
Context `{ops : PartitionOps} `{codec : Codec}.

Lemma byte_bit (a n : Z) :
  Z.testbit (a mod 256) n = if (n <? 8)%Z then Z.testbit a n else false.
Proof.
  change 256%Z with (2 ^ 8)%Z.
  destruct (Z.ltb_spec n 8).
  - apply Z.mod_pow2_bits_low. lia.
  - apply Z.mod_pow2_bits_high. lia.
Qed.

Lemma shifted_byte_bit (a k n : Z) :
  (0 <= k)%Z -> (0 <= n)%Z ->
  Z.testbit (Z.shiftl (Z.shiftr a k mod 256) k) n
  = if ((k <=? n) && (n <? k + 8))%Z then Z.testbit a n else false.
Proof.
  intros Hk Hn. rewrite Z.shiftl_spec by lia. rewrite byte_bit.
  destruct (Z.leb_spec k n); simpl.
  - destruct (Z.ltb_spec (n - k) 8), (Z.ltb_spec n (k + 8)); try lia;
      try reflexivity.
    rewrite Z.shiftr_spec by lia. f_equal. lia.
  - destruct (n - k <? 8)%Z; [|reflexivity]. apply Z.testbit_neg_r. lia.
Qed.

Lemma Uint32_PutUint32 (v : Z) :
  (0 <= v < 2 ^ 32)%Z -> Uint32 (PutUint32 v) = v.
Proof.
  intros Hv. unfold Uint32, PutUint32.
  apply Z.bits_inj'. intros n Hn.
  rewrite !Z.lor_spec, !shifted_byte_bit, byte_bit by lia.
  assert (Hhigh : (32 <= n)%Z -> Z.testbit v n = false).
  { intros H. rewrite <- (Z.mod_small v (2 ^ 32)) by lia.
    apply Z.mod_pow2_bits_high. lia. }
  destruct (Z.ltb_spec n 8), (Z.leb_spec 8 n), (Z.ltb_spec n (8 + 8)),
    (Z.leb_spec 16 n), (Z.ltb_spec n (16 + 8)), (Z.leb_spec 24 n),
    (Z.ltb_spec n (24 + 8)); simpl; try lia;
    rewrite ?orb_false_r; try reflexivity.
  symmetry. apply Hhigh. lia.
Qed.

Lemma ReadFull_app (pre rest : list Z) :
  ReadFull (length pre) (pre ++ rest) = Ok (pre, rest).
Proof.
  unfold ReadFull. destruct (decide (length pre = O)) as [H0|H0].
  - apply length_zero_iff_nil in H0. by subst.
  - rewrite decide_True by (rewrite length_app; lia).
    by rewrite take_app_length, drop_app_length.
Qed.

(** *** The store invariant *)

Lemma wellKeyed_empty : wellKeyed ∅.
Proof. intros name ps H. by rewrite lookup_empty in H. Qed.

Lemma wellKeyed_setPartition (p : partition) (m : store) :
  wellKeyed m ->
  wellKeyed (setPartition (Stream (proto p)) (Id (proto p)) p m).
Proof.
  intros Hm name ps. unfold setPartition.
  destruct (decide (Stream (proto p) = name)) as [<-|Hne].
  - rewrite lookup_insert_eq. intros [= <-]. split.
    + apply insert_non_empty.
    + intros id q. destruct (decide (Id (proto p) = id)) as [<-|Hid].
      * rewrite lookup_insert_eq. by intros [= <-].
      * rewrite lookup_insert_ne by done.
        destruct (m !! Stream (proto p)) as [ps|] eqn:Hps; simpl.
        -- intros Hq. by apply (Hm _ _ Hps).
        -- by rewrite lookup_empty.
  - rewrite lookup_insert_ne by done. apply Hm.
Qed.

Lemma wellKeyed_AddPartition (p : Partition) (rec : bool) (m m' : store)
    (part : partition) :
  wellKeyed m -> AddPartition p rec m = Ok (part, m') -> wellKeyed m'.
Proof.
  intros Hm. unfold AddPartition.
  destruct (GetPartition _ _ m); [discriminate|].
  intros [= <- <-]. by apply (wellKeyed_setPartition (newPartition p rec)).
Qed.

(** *** Recreating the partitions of a snapshot *)

Lemma restorePartitions_fresh (ps : list Partition) :
  forall m : store,
  NoDup (key <$> ps) ->
  (forall p, p ∈ ps -> GetPartition (Stream p) (Id p) m = None) ->
  restorePartitions ps m = (None, insertAll ps m).
Proof.
  induction ps as [|p ps IH]; intros m Hnd Hfresh; [reflexivity|].
  simpl. unfold applyCreatePartition, AddPartition.
  rewrite (Hfresh p) by left. simpl.
  apply NoDup_cons in Hnd as [Hp Hnd]. apply IH; [done|].
  intros q Hq. rewrite GetPartition_setPartition_ne.
  - apply Hfresh. by right.
  - intros Heq. apply Hp. apply list_elem_of_fmap. exists q. split; [|done].
    unfold key. by rewrite Heq.
Qed.

Lemma GetPartition_insertAll_other (ps : list Partition) (name : string) (id : Z) :
  forall m : store,
  (forall p, p ∈ ps -> key p ≠ (name, id)) ->
  GetPartition name id (insertAll ps m) = GetPartition name id m.
Proof.
  induction ps as [|p ps IH]; intros m Hk; [reflexivity|].
  simpl. rewrite IH by (intros q Hq; apply Hk; by right).
  apply GetPartition_setPartition_ne. apply (Hk p). by left.
Qed.

Lemma GetPartition_insertAll_elem (ps : list Partition) (p : Partition) :
  forall m : store,
  NoDup (key <$> ps) -> p ∈ ps ->
  GetPartition (Stream p) (Id p) (insertAll ps m) = Some (newPartition p false).
Proof.
  induction ps as [|q ps IH]; intros m Hnd Hp; [by apply elem_of_nil in Hp|].
  apply NoDup_cons in Hnd as [Hq Hnd]. simpl.
  destruct (decide (p ∈ ps)) as [Hin|Hnin]; [by apply IH|].
  apply elem_of_cons in Hp as [->|Hp]; [|done].
  rewrite GetPartition_insertAll_other.
  - apply GetPartition_setPartition.
  - intros r Hr Heq. apply Hq. apply list_elem_of_fmap. by exists r.
Qed.

Lemma insertAll_nonempty (ps : list Partition) :
  forall m : store,
  (forall name s, m !! name = Some s -> s ≠ ∅) ->
  forall name s, insertAll ps m !! name = Some s -> s ≠ ∅.
Proof.
  induction ps as [|p ps IH]; intros m Hm; [exact Hm|].
  simpl. apply IH. intros name s. unfold setPartition.
  destruct (decide (Stream p = name)) as [<-|Hne].
  - rewrite lookup_insert_eq. intros [= <-]. apply insert_non_empty.
  - rewrite lookup_insert_ne by done. apply Hm.
Qed.

(** Two stores without empty streams that agree on the description of every
    partition are the same observable state. *)
Lemma observable_ext (m1 m2 : store) :
  (forall name s, m1 !! name = Some s -> s ≠ ∅) ->
  (forall name s, m2 !! name = Some s -> s ≠ ∅) ->
  (forall name id, proto <$> GetPartition name id m1
                   = proto <$> GetPartition name id m2) ->
  observable m1 = observable m2.
Proof.
  intros H1 H2 Heq. apply map_eq. intros name. unfold observable.
  rewrite !lookup_fmap.
  pose proof (fun id => Heq name id) as Hn. unfold GetPartition in Hn.
  destruct (m1 !! name) as [s1|] eqn:E1, (m2 !! name) as [s2|] eqn:E2;
    simpl in *.
  - f_equal. apply map_eq. intros id. rewrite !lookup_fmap. apply Hn.
  - destruct (map_choose s1 (H1 _ _ E1)) as (id & p & Hp).
    specialize (Hn id). rewrite Hp in Hn. discriminate.
  - destruct (map_choose s2 (H2 _ _ E2)) as (id & p & Hp).
    specialize (Hn id). rewrite Hp in Hn. discriminate.
  - reflexivity.
Qed.

(** The partitions a snapshot lists. *)
Lemma elem_of_Snapshot (s : Server) (p : Partition) :
  p ∈ Partitions (Snapshot s) <->
  exists name ps id part,
    metadata s !! name = Some ps /\ ps !! id = Some part /\ p = proto part.
Proof.
  unfold Snapshot. simpl. rewrite list_elem_of_bind. split.
  - intros ([name ps] & Hp & Hkv). simpl in Hp.
    apply list_elem_of_fmap in Hp as ([id part] & -> & Hip).
    apply elem_of_map_to_list in Hkv, Hip. by exists name, ps, id, part.
  - intros (name & ps & id & part & Hps & Hpart & ->).
    exists (name, ps). split; [|by apply elem_of_map_to_list].
    simpl. apply list_elem_of_fmap. exists (id, part).
    split; [done | by apply elem_of_map_to_list].
Qed.

Lemma fmap_over_bind {A B C} (f : B -> C) (g : A -> list B) (l : list A) :
  f <$> (l ≫= g) = l ≫= fun x => f <$> g x.
Proof.
  induction l as [|x l IH]; [reflexivity|].
  rewrite !bind_cons, fmap_app. by rewrite IH.
Qed.

Lemma NoDup_Snapshot (s : Server) :
  wellKeyed (metadata s) -> NoDup (key <$> Partitions (Snapshot s)).
Proof.
  intros Hwf. unfold Snapshot. simpl. rewrite fmap_over_bind.
  apply NoDup_bind.
  - intros [n1 ps1] [n2 ps2] k H1 H2 Hk1 Hk2. simpl in *.
    apply elem_of_map_to_list in H1, H2.
    apply list_elem_of_fmap in Hk1 as (p1 & -> & Hp1).
    apply list_elem_of_fmap in Hk2 as (p2 & Hk & Hp2).
    apply list_elem_of_fmap in Hp1 as ([id1 q1] & -> & Hq1).
    apply list_elem_of_fmap in Hp2 as ([id2 q2] & -> & Hq2).
    apply elem_of_map_to_list in Hq1, Hq2. simpl in Hk.
    destruct (Hwf _ _ H1) as [_ Hw1]. destruct (Hwf _ _ H2) as [_ Hw2].
    destruct (Hw1 _ _ Hq1) as [Hs1 _]. destruct (Hw2 _ _ Hq2) as [Hs2 _].
    unfold key in Hk. assert (n1 = n2) as -> by congruence.
    congruence.
  - intros [name ps] Hkv. simpl. apply elem_of_map_to_list in Hkv.
    destruct (Hwf _ _ Hkv) as [_ Hw].
    rewrite <- list_fmap_compose.
    apply NoDup_fmap_2_strong; [|apply NoDup_map_to_list].
    intros [id1 q1] [id2 q2] H1 H2 Hk. simpl in Hk.
    apply elem_of_map_to_list in H1, H2.
    destruct (Hw _ _ H1) as [_ Hi1]. destruct (Hw _ _ H2) as [_ Hi2].
    unfold key in Hk. assert (id1 = id2) as -> by congruence.
    congruence.
  - apply NoDup_map_to_list.
Qed.

(** Recreating the partitions of a snapshot on an empty store gives back the
    partitions of the snapshotted store, all created with
    [recovered = false], in whatever order the snapshot lists them. *)
Lemma restore_Snapshot (s : Server) (l : list Partition) :
  wellKeyed (metadata s) ->
  l ≡ₚ Partitions (Snapshot s) ->
  restorePartitions l ∅ = (None, insertAll l ∅)
  /\ observable (insertAll l ∅) = observable (metadata s)
  /\ forall name id part, GetPartition name id (insertAll l ∅) = Some part ->
       exists old, GetPartition name id (metadata s) = Some old
         /\ part = newPartition (proto old) false.
Proof.
  intros Hwf Hperm.
  assert (Hnd : NoDup (key <$> l))
    by (rewrite Hperm; by apply NoDup_Snapshot).
  assert (Hel : forall p, p ∈ l <->
    exists name ps id part,
      metadata s !! name = Some ps /\ ps !! id = Some part /\ p = proto part)
    by (intros p; rewrite Hperm; apply elem_of_Snapshot).
  assert (Hlook : forall name id,
    GetPartition name id (insertAll l ∅)
    = (fun old => newPartition (proto old) false)
        <$> GetPartition name id (metadata s)).
  { intros name id. unfold GetPartition at 2.
    destruct (metadata s !! name) as [ps|] eqn:Hps; simpl;
      [destruct (ps !! id) as [old|] eqn:Hold; simpl|].
    - destruct (Hwf _ _ Hps) as [_ Hw]. destruct (Hw _ _ Hold) as [<- <-].
      apply GetPartition_insertAll_elem; [done|].
      apply Hel. by exists (Stream (proto old)), ps, (Id (proto old)), old.
    - rewrite GetPartition_insertAll_other; [by vm_compute|].
      intros p (n & ps' & i & part & Hn & Hi & ->)%Hel Hk.
      destruct (Hwf _ _ Hn) as [_ Hw]. destruct (Hw _ _ Hi) as [Hs Hid].
      unfold key in Hk. assert (n = name) as -> by congruence.
      assert (i = id) as -> by congruence. congruence.
    - rewrite GetPartition_insertAll_other; [by vm_compute|].
      intros p (n & ps' & i & part & Hn & Hi & ->)%Hel Hk.
      destruct (Hwf _ _ Hn) as [_ Hw]. destruct (Hw _ _ Hi) as [Hs Hid].
      unfold key in Hk. assert (n = name) as -> by congruence. congruence. }
  split; [|split].
  - apply restorePartitions_fresh; [done|]. intros p _. by vm_compute.
  - apply observable_ext.
    + apply insertAll_nonempty. intros name ps H. by rewrite lookup_empty in H.
    + intros name ps H. by apply (Hwf _ _ H).
    + intros name id. rewrite Hlook.
      by destruct (GetPartition name id (metadata s)).
  - intros name id part. rewrite Hlook.
    destruct (GetPartition name id (metadata s)) as [old|]; [|discriminate].
    intros [= <-]. eauto.
Qed.

End SnapshotLemmas.

(** C1 (amended).  For an ISR or leader operation carrying epoch [e] and
    naming an existing partition [p]: if the partition's epoch is greater
    than or equal to [e], the operation changes nothing and returns no error;
    otherwise the partition method ([RemoveFromISR], [AddToISR] or
    [SetLeader]) is called and, when it succeeds, the mutated partition is
    stored with its epoch set to [e], while when it fails the operation
    returns that error wrapped and stores nothing.  Hence every operation
    that changes the store strictly raises the epoch of its partition, to
    [e], and over any sequence of such operations the epochs of the mutations
    applied to the partition are strictly increasing. *)
Theorem C1_epoch_gate `{ops : PartitionOps} (log : RaftLog) (e : N)
    (rec : bool) (m : store) (name : string) (id : Z) (p : partition) :
  target log = Some (name, id) ->
  GetPartition name id m = Some p ->
  ((e <= GetEpoch p)%N -> apply log e rec m = Ok (None, m))
  /\ ((GetEpoch p < e)%N ->
      match method log e p with
      | Some (Ok p') =>
          apply log e rec m = Ok (None, setPartition name id (SetEpoch e p') m)
          /\ GetPartition name id (setPartition name id (SetEpoch e p') m)
             = Some (SetEpoch e p')
      | Some (Err err) => exists msg, apply log e rec m = Err (Wrap err msg)
      | None => False
      end)
  /\ (forall v m', apply log e rec m = Ok (v, m') ->
      exists p', GetPartition name id m' = Some p'
        /\ (m' = m /\ p' = p /\ (e <= GetEpoch p)%N
            \/ (GetEpoch p < e)%N /\ GetEpoch p' = e))
  /\ (forall entries : list (RaftLog * N),
      Forall (fun le => is_Some (target le.1)) entries ->
      StronglySorted N.lt (appliedEpochs name id entries m)
      /\ Forall (N.lt (GetEpoch p)) (appliedEpochs name id entries m)).
Proof.
  intros Ht Hp.
  assert (Hrun : forall entries : list (RaftLog * N),
      Forall (fun le => is_Some (target le.1)) entries ->
      StronglySorted N.lt (appliedEpochs name id entries m)
      /\ Forall (N.lt (GetEpoch p)) (appliedEpochs name id entries m))
    by (intros entries Hall; by apply appliedEpochs_sorted).
  pose proof (apply_epoch_op log e rec m name id Ht) as H.
  rewrite Hp in H.
  destruct (N.leb_spec e (GetEpoch p)) as [Hle|Hlt].
  - split; [auto|]. split; [lia|]. split; [|exact Hrun].
    intros v m' Hm. rewrite H in Hm. injection Hm as <- <-.
    exists p. auto.
  - split; [lia|]. split; [|split; [|exact Hrun]].
    + intros _. destruct (method log e p) as [[p'|err]|]; auto.
      split; [exact H | apply GetPartition_setPartition].
    + intros v m' Hm.
      destruct (method log e p) as [[p'|err]|]; [| |contradiction].
      * rewrite H in Hm. injection Hm as <- <-.
        exists (SetEpoch e p'). split; [apply GetPartition_setPartition|].
        right. split; [exact Hlt | reflexivity].
      * destruct H as [msg H]. rewrite H in Hm. discriminate.
Qed.

(** A stale ShrinkISR (epoch 1 against a partition at epoch 1) is a no-op,
    and a fresh one (epoch 5) removes the replica and sets the epoch; of the
    entries 5, 5 again, 3 and 9 applied in this order, 5 and 9 are applied. *)
Lemma C1_epoch_gate_witness :
  target shrinkN2 = Some ("orders", 0%Z)
  /\ GetPartition "orders" 0 store0 = Some (newPartition orders0 false)
  /\ (1 <= GetEpoch (newPartition orders0 false))%N
  /\ apply (ops := specOps) shrinkN2 1 false store0 = Ok (None, store0)
  /\ (GetEpoch (newPartition orders0 false) < 5)%N
  /\ (exists p', GetPartition "orders" 0 store0 = Some (newPartition orders0 false)
       /\ apply (ops := specOps) shrinkN2 5 false store0
          = Ok (None, setPartition "orders" 0 p' store0)
       /\ Isr (proto p') = ["n1"] /\ GetEpoch p' = 5%N)
  /\ appliedEpochs (ops := specOps) "orders" 0
       [(shrinkN2, 5%N); (shrinkN2, 5%N); (shrinkN2, 3%N);
        (ExpandISROp "orders" "n2" 0, 9%N)] store0 = [5%N; 9%N].
Proof.
  assert (Ht : target shrinkN2 = Some ("orders", 0%Z)) by reflexivity.
  assert (Hp : GetPartition "orders" 0 store0 = Some (newPartition orders0 false))
    by (vm_compute; reflexivity).
  assert (H1 : (1 <= GetEpoch (newPartition orders0 false))%N)
    by (vm_compute; discriminate).
  assert (H5 : (GetEpoch (newPartition orders0 false) < 5)%N)
    by (vm_compute; reflexivity).
  split; [exact Ht|]. split; [exact Hp|]. split; [exact H1|].
  split.
  { exact (proj1 (C1_epoch_gate (ops := specOps) shrinkN2 1 false store0
                    "orders" 0%Z _ Ht Hp) H1). }
  split; [exact H5|].
  pose proof (proj1 (proj2 (C1_epoch_gate (ops := specOps) shrinkN2 5 false
                store0 "orders" 0%Z _ Ht Hp)) H5) as H.
  simpl in H. destruct H as [H _].
  split; [|vm_compute; reflexivity].
  eexists. split; [exact Hp|]. split; [exact H|]. split; reflexivity.
Defined.

(** C1 as stated fails: a ShrinkISR with a fresh epoch (5 against 1) that
    names a broker outside the replica set is not applied and the epoch is
    not set; the operation returns an error instead. *)
Lemma C1_counterexample :
  GetPartition "orders" 0 store0 = Some (newPartition orders0 false)
  /\ (GetEpoch (newPartition orders0 false) < 5)%N
  /\ apply (ops := specOps) shrinkUnknown 5 false store0
     = Err (Wrap (Failure "not a replica") "failed to remove replica from ISR")
  /\ ~ exists v m', apply (ops := specOps) shrinkUnknown 5 false store0 = Ok (v, m').
Proof.
  assert (H : apply (ops := specOps) shrinkUnknown 5 false store0
     = Err (Wrap (Failure "not a replica") "failed to remove replica from ISR"))
    by (vm_compute; reflexivity).
  split; [vm_compute; reflexivity|]. split; [vm_compute; reflexivity|].
  split; [exact H|].
  intros (v & m' & Hm). rewrite H in Hm. discriminate.
Qed.

(** C2 (amended).  For a ShrinkISR, ExpandISR or ChangeLeader entry naming a
    (stream, partition) pair that is absent from the metadata store, [apply]
    fails with the error "No such partition", which is not the
    [ErrPartitionNotFound] sentinel; [Apply] never returns that sentinel for
    such an entry: it panics, unless the server is shutting down, in which
    case it returns the "No such partition" error. *)
Theorem C2_missing_partition_is_fatal `{ops : PartitionOps} `{codec : Codec}
    (l : raftLog) (s : Server) (log : RaftLog) (name : string) (id : Z) :
  UnmarshalRaftLog (Data l) = Ok log ->
  target log = Some (name, id) ->
  GetPartition name id (metadata s) = None ->
  (forall rec, apply log (Index l) rec (metadata s) = Err (NoSuchPartition name id))
  /\ (Apply l s).1 <> Returns (Some ErrPartitionNotFound)
  /\ (shutdown s = false -> exists e, (Apply l s).1 = Panics e)
  /\ (recoveryStarted s = true -> latestRecoveredLog s = None ->
      (Apply l s).1 = if shutdown s then Returns (Some (NoSuchPartition name id))
                      else Panics (NoSuchPartition name id)).
Proof.
  intros Hu Ht Hp.
  assert (Ha : forall rec,
    apply log (Index l) rec (metadata s) = Err (NoSuchPartition name id)).
  { intros rec. pose proof (apply_epoch_op log (Index l) rec (metadata s) name id Ht) as H.
    by rewrite Hp in H. }
  assert (Hbody : forall rec s1, metadata s1 = metadata s -> shutdown s1 = shutdown s ->
    (applyEntry l rec s1).1 = if shutdown s then Returns (Some (NoSuchPartition name id))
                              else Panics (NoSuchPartition name id)).
  { intros rec s1 Hm Hs. unfold applyEntry. rewrite Hu. simpl.
    rewrite Hm, Ha, Hs. by destruct (shutdown s). }
  split; [exact Ha|].
  assert (Hcases : (exists e, (Apply l s).1 = Panics e)
     \/ (Apply l s).1 = if shutdown s then Returns (Some (NoSuchPartition name id))
                        else Panics (NoSuchPartition name id)).
  { unfold Apply. destruct (establishBarrier l s) as [s1|e] eqn:He; simpl; [|eauto].
    apply establishBarrier_frame in He as (Hm & Hs & _).
    match goal with |- context [deferredFinish ?f ?r] =>
      destruct (deferredFinish_outcome f r) as [-> | ?]; [|auto] end.
    right. apply Hbody; destruct (isBarrier l s1); simpl; done. }
  split; [|split].
  - destruct Hcases as [[e ->] | ->]; [done|]. by destruct (shutdown s).
  - intros Hs. destruct Hcases as [? | ->]; [done|]. rewrite Hs. eauto.
  - intros Hst Hb. rewrite Apply_normal by done. by apply Hbody.
Qed.

(** On a running server whose store has no stream "payments", a ShrinkISR
    entry for it makes [Apply] panic. *)
Lemma C2_missing_partition_is_fatal_witness :
  UnmarshalRaftLog (Codec := tableCodec) (Data (entry 7 [3%Z])) = Ok shrinkMissing
  /\ target shrinkMissing = Some ("payments", 0%Z)
  /\ GetPartition "payments" 0 (metadata (server0 quietRaft true store0)) = None
  /\ exists e, (Apply (ops := specOps) (codec := tableCodec) (entry 7 [3%Z])
                  (server0 quietRaft true store0)).1 = Panics e.
Proof.
  assert (Hu : UnmarshalRaftLog (Codec := tableCodec) (Data (entry 7 [3%Z])) = Ok shrinkMissing)
    by reflexivity.
  assert (Ht : target shrinkMissing = Some ("payments", 0%Z)) by reflexivity.
  assert (Hp : GetPartition "payments" 0
                 (metadata (server0 quietRaft true store0)) = None)
    by (vm_compute; reflexivity).
  split; [exact Hu|]. split; [exact Ht|]. split; [exact Hp|].
  exact (proj1 (proj2 (proj2 (C2_missing_partition_is_fatal (ops := specOps) (codec := tableCodec)
           _ _ _ _ _ Hu Ht Hp))) eq_refl).
Defined.

(** C2 as stated fails: the entry names a partition that does not exist,
    and [Apply] aborts with a panic instead of returning the
    [ErrPartitionNotFound] sentinel. *)
Lemma C2_counterexample :
  GetPartition "payments" 0 (metadata (server0 quietRaft true store0)) = None
  /\ (Apply (ops := specOps) (codec := tableCodec) (entry 7 [3%Z]) (server0 quietRaft true store0)).1
     = Panics (NoSuchPartition "payments" 0)
  /\ (Apply (ops := specOps) (codec := tableCodec) (entry 7 [3%Z]) (server0 quietRaft true store0)).1
     <> Returns (Some ErrPartitionNotFound).
Proof.
  assert (H : (Apply (ops := specOps) (codec := tableCodec) (entry 7 [3%Z])
                 (server0 quietRaft true store0)).1
              = Panics (NoSuchPartition "payments" 0))
    by (vm_compute; reflexivity).
  split; [vm_compute; reflexivity|]. split; [exact H|].
  rewrite H. discriminate.
Qed.

(** C3.  A CreatePartition entry applied at index [i] stores the partition
    with epoch and leader epoch both equal to [i]; if a partition with the
    same stream and id exists already, [apply] returns the
    [ErrPartitionExists] sentinel as its value, with no error, and leaves the
    store (hence the existing partition) as it was, and [Apply] hands that
    value back instead of panicking. *)
Theorem C3_create_partition `{ops : PartitionOps} `{codec : Codec}
    (p : Partition) (i : N) (rec : bool) (m : store) :
  (GetPartition (Stream p) (Id p) m = None ->
   exists m' part,
     apply (CreatePartitionOp p) i rec m = Ok (None, m')
     /\ GetPartition (Stream p) (Id p) m' = Some part
     /\ Epoch (proto part) = i /\ LeaderEpoch (proto part) = i)
  /\ (forall q, GetPartition (Stream p) (Id p) m = Some q ->
      apply (CreatePartitionOp p) i rec m = Ok (Some ErrPartitionExists, m))
  /\ (forall l s q,
      UnmarshalRaftLog (Data l) = Ok (CreatePartitionOp p) ->
      recoveryStarted s = true -> latestRecoveredLog s = None ->
      GetPartition (Stream p) (Id p) (metadata s) = Some q ->
      Apply l s = (Returns (Some ErrPartitionExists),
                   emit s (Applied (Index l) false))).
Proof.
  assert (Hex : forall j r m0 q, GetPartition (Stream p) (Id p) m0 = Some q ->
    apply (CreatePartitionOp p) j r m0 = Ok (Some ErrPartitionExists, m0)).
  { intros j r m0 q Hq. simpl. unfold applyCreatePartition, AddPartition. simpl.
    rewrite Hq. reflexivity. }
  split; [|split].
  - intros Hn. simpl. unfold applyCreatePartition, AddPartition. simpl.
    rewrite Hn. do 2 eexists. split; [reflexivity|].
    split; [apply GetPartition_setPartition|]. split; reflexivity.
  - intros q. apply Hex.
  - intros l s q Hu Hst Hb Hq. rewrite Apply_normal by done.
    unfold applyEntry. rewrite Hu.
    cbv zeta. change (metadata (emit s (Applied (Index l) false))) with (metadata s).
    rewrite (Hex _ _ _ _ Hq). reflexivity.
Qed.

(** Scenario S1 of the design document: CreatePartition for "orders"/0 at
    index 42 on an empty store, then the same entry once more. *)
Lemma C3_create_partition_witness :
  GetPartition (Stream orders0) (Id orders0) ∅ = None
  /\ (exists m' part,
       apply (ops := specOps) (CreatePartitionOp orders0) 42 false ∅ = Ok (None, m')
       /\ GetPartition "orders" 0 m' = Some part
       /\ Epoch (proto part) = 42%N /\ LeaderEpoch (proto part) = 42%N)
  /\ GetPartition (Stream orders0) (Id orders0) store0
     = Some (newPartition orders0 false)
  /\ apply (ops := specOps) (CreatePartitionOp orders0) 42 false store0
     = Ok (Some ErrPartitionExists, store0).
Proof.
  assert (Hn : GetPartition (Stream orders0) (Id orders0) ∅ = None)
    by (vm_compute; reflexivity).
  assert (Hq : GetPartition (Stream orders0) (Id orders0) store0
               = Some (newPartition orders0 false))
    by (vm_compute; reflexivity).
  split; [exact Hn|]. split.
  { exact (proj1 (C3_create_partition (ops := specOps) (codec := tableCodec)
             orders0 42 false ∅) Hn). }
  split; [exact Hq|].
  exact (proj1 (proj2 (C3_create_partition (ops := specOps) (codec := tableCodec)
           orders0 42 false store0)) _ Hq).
Defined.

(** C4.  Persisting a snapshot of the metadata state writes a 4-byte
    big-endian length prefix followed by exactly that many bytes, the encoded
    [MetadataSnapshot]; [Restore] applied to those bytes, on a server in any
    state, resets the store and recreates every partition of the snapshot
    with [recovered = false], and the resulting store is the same observable
    metadata state.  The snapshot lists the partitions in whatever order the
    map iteration produced.  Assumed of the environment: the encoding fits
    the 4-byte prefix, the codec decodes what it encoded, and the sink
    reports no error. *)
Theorem C4_snapshot_roundtrip `{codec : Codec}
    (s s0 : Server) (snap : MetadataSnapshot) (sink : SnapshotSink)
    (b : list Z) :
  wellKeyed (metadata s) ->
  Partitions snap ≡ₚ Partitions (Snapshot s) ->
  MarshalSnapshot snap = Ok b ->
  UnmarshalSnapshot b = Ok snap ->
  (Z.of_nat (length b) < 2 ^ 32)%Z ->
  writeFaults sink = [] -> closeFault sink = None ->
  let prefix := PutUint32 (Z.of_nat (length b)) in
  (exists sink', Persist snap sink = (None, sink')
     /\ sunk sink' = sunk sink ++ prefix ++ b /\ sinkClosed sink' = true)
  /\ length prefix = 4%nat /\ Uint32 prefix = Z.of_nat (length b)
  /\ exists m', Restore (prefix ++ b) s0 = (None, setMetadata s0 m')
       /\ restorePartitions (Partitions snap) ∅ = (None, m')
       /\ observable m' = observable (metadata s)
       /\ forall name id part, GetPartition name id m' = Some part ->
            exists old, GetPartition name id (metadata s) = Some old
              /\ part = newPartition (proto old) false.
Proof.
  intros Hwf Hperm Hm Hu Hlen Hwf0 Hcf prefix.
  assert (Hpre : Uint32 prefix = Z.of_nat (length b))
    by (apply Uint32_PutUint32; lia).
  destruct (restore_Snapshot s (Partitions snap) Hwf Hperm) as (Hr & Hobs & Hnew).
  split; [|split; [reflexivity|split; [exact Hpre|]]].
  - unfold Persist. rewrite Hm.
    unfold uint32. rewrite Z.mod_small by lia. fold prefix.
    unfold sinkWrite. rewrite Hwf0. simpl. unfold sinkClose. simpl.
    rewrite Hcf. eexists. split; [reflexivity|]. simpl.
    by rewrite <- app_assoc.
  - exists (insertAll (Partitions snap) ∅).
    split; [|by split].
    unfold Restore.
    change 4%nat with (length prefix). rewrite ReadFull_app.
    rewrite Hpre, Nat2Z.id.
    rewrite <- (app_nil_r b) at 2. rewrite ReadFull_app.
    rewrite Hu. simpl. by rewrite Hr.
Qed.

(** Snapshot, persist and restore of the store holding "orders"/0. *)
Lemma C4_snapshot_roundtrip_witness :
  wellKeyed store0
  /\ Partitions {| Partitions := [orders0] |}
     ≡ₚ Partitions (Snapshot (server0 quietRaft true store0))
  /\ MarshalSnapshot (Codec := tableCodec) {| Partitions := [orders0] |}
     = Ok [10; 6]%Z
  /\ UnmarshalSnapshot (Codec := tableCodec) [10; 6]%Z
     = Ok {| Partitions := [orders0] |}
  /\ (Z.of_nat (length [10; 6]%Z) < 2 ^ 32)%Z
  /\ (exists sink',
        Persist (codec := tableCodec) {| Partitions := [orders0] |}
          (mkSink [] [] None false false) = (None, sink')
        /\ sunk sink' = [0; 0; 0; 2; 10; 6]%Z)
  /\ exists m',
       Restore (codec := tableCodec) [0; 0; 0; 2; 10; 6]%Z
         (server0 quietRaft true ∅) = (None, server0 quietRaft true m')
       /\ observable m' = observable store0.
Proof.
  assert (Hwf : wellKeyed store0)
    by exact (wellKeyed_setPartition (newPartition orders0 false) ∅ wellKeyed_empty).
  assert (Hperm : Partitions {| Partitions := [orders0] |}
                  ≡ₚ Partitions (Snapshot (server0 quietRaft true store0)))
    by (vm_compute; reflexivity).
  assert (Hlen : (Z.of_nat (length [10; 6]%Z) < 2 ^ 32)%Z) by (vm_compute; reflexivity).
  pose proof (C4_snapshot_roundtrip (codec := tableCodec)
                (server0 quietRaft true store0) (server0 quietRaft true ∅)
                {| Partitions := [orders0] |} (mkSink [] [] None false false)
                [10; 6]%Z Hwf Hperm eq_refl eq_refl Hlen eq_refl eq_refl) as H.
  cbv zeta in H. destruct H as ((sink' & Hp & Hs & _) & _ & _ & m' & Hr & _ & Hobs & _).
  split; [exact Hwf|]. split; [exact Hperm|]. split; [reflexivity|].
  split; [reflexivity|]. split; [exact Hlen|]. split.
  - exists sink'. split; [exact Hp | exact Hs].
  - exists m'. split; [exact Hr | exact Hobs].
Defined.

(** C5 (amended).  The recovery barrier that the first [Apply] after start
    records is the newest command entry among the committed entries
    [first_index .. commit_index], found by scanning backwards from
    [commit_index]; its index is not compared with the index of the entry
    being applied, except that no barrier is recorded when the entry being
    applied is itself the entry at [commit_index], or when the log is empty
    or holds no command entry.  While a barrier [b] is recorded, an entry is
    applied with [recovered = true] exactly when its index is at most the
    index of [b], and [finishedRecovery] is called, and the barrier cleared,
    exactly when the entry's index equals the index of [b]; with no barrier
    recorded every entry is applied with [recovered = false] and
    [finishedRecovery] is not called. *)
Theorem C5_recovery_barrier `{ops : PartitionOps} `{codec : Codec} :
  (forall (r : raftNode) (a c f : N),
     commit_index r = Ok c -> FirstIndex r = Ok f ->
     (forall j, (f <= j <= c)%N -> exists log, GetLog r j = Ok log) ->
     match recoverLatestCommittedFSMLog r a with
     | Ok None =>
         f = 0%N \/ (a = c /\ (f <= c)%N)
         \/ forall j log, (f <= j <= c)%N -> GetLog r j = Ok log ->
              Type_ log ≠ LogCommand
     | Ok (Some b) =>
         f ≠ 0%N /\ a ≠ c
         /\ exists k, (f <= k <= c)%N /\ GetLog r k = Ok b
              /\ Type_ b = LogCommand
              /\ forall j log, (k < j <= c)%N -> GetLog r j = Ok log ->
                   Type_ log ≠ LogCommand
     | Err _ => False
     end)
  /\ (forall (l : raftLog) (s : Server) (b : option raftLog) (log : RaftLog),
     (if recoveryStarted s then Ok (latestRecoveredLog s)
      else recoverLatestCommittedFSMLog (raft s) (Index l)) = Ok b ->
     UnmarshalRaftLog (Data l) = Ok log ->
     let rec := match b with
                | Some bl => (Index l <=? Index bl)%N
                | None => false
                end in
     let fin := match b with
                | Some bl => (Index l =? Index bl)%N
                | None => false
                end in
     trace (Apply l s).2
     = trace s
       ++ (if recoveryStarted s then []
           else match b with Some _ => [StartedRecovery] | None => [] end)
       ++ [Applied (Index l) rec]
       ++ (if fin then [FinishedRecovery] else [])
     /\ recoveryStarted (Apply l s).2 = true
     /\ latestRecoveredLog (Apply l s).2 = if fin then None else b).
Proof.
  split.
  - intros r a c f Hc Hf Htot. unfold recoverLatestCommittedFSMLog.
    rewrite Hc, Hf. simpl.
    destruct (N.eqb_spec f 0) as [->|Hf0]; [by left|].
    destruct (decide (c < f)%N) as [Hlt|Hge].
    { replace (iterations f c) with O by (unfold iterations; lia).
      simpl. right. right. intros j log Hj. lia. }
    destruct (decide (a = c)) as [->|Hac].
    { destruct (iterations f c) as [|n] eqn:Hn; [unfold iterations in Hn; lia|].
      simpl. rewrite N.eqb_refl. simpl. right. left. split; [done|lia]. }
    pose proof (scanLog_newest (GetLog r) a c f (iterations f c) c
                  (or_introl Hac)) as H.
    destruct (scanLog (GetLog r) a c (iterations f c) c) as [[b|]|e].
    + split; [done|]. split; [done|].
      apply H; [unfold iterations; lia | done].
    + right. right. apply H; [unfold iterations; lia | done].
    + apply H; [unfold iterations; lia | done].
  - intros l s b log Hb Hu rec fin.
    destruct (establishBarrier_spec l s b Hb) as (s1 & He & Hb1 & Hst1 & Htr1).
    unfold Apply. rewrite He.
    assert (Hrec : isRecovered l s1 = rec)
      by (unfold isRecovered; by rewrite Hb1).
    assert (Hfin : isBarrier l s1 = fin).
    { unfold isBarrier, isRecovered. rewrite Hb1. subst fin.
      destruct b as [bl|]; [|done].
      destruct (N.eqb_spec (Index l) (Index bl)) as [->|];
        [by rewrite N.leb_refl | apply andb_false_r]. }
    cbv zeta. rewrite Hrec, Hfin.
    match goal with |- context [deferredFinish fin ?r] =>
      destruct (deferredFinish_frame fin r) as (-> & -> & ->);
      destruct (applyEntry_frame l rec
                  (if fin then setRecovery s1 (recoveryStarted s1) None else s1)
                  log Hu) as (-> & -> & ->) end.
    destruct fin; simpl; rewrite ?Htr1, ?Hst1, ?Hb1, <- ?app_assoc; done.
Qed.

(** A server restarted on a Raft log whose entries 1, 2 and 3 are committed
    commands: the barrier is entry 3, entry 1 is replayed as recovered. *)
Lemma C5_recovery_barrier_witness :
  commit_index raft3 = Ok 3%N /\ FirstIndex raft3 = Ok 1%N
  /\ (forall j, (1 <= j <= 3)%N -> exists log, GetLog raft3 j = Ok log)
  /\ (exists k, (1 <= k <= 3)%N /\ GetLog raft3 k = Ok (entry 3 [4%Z]))
  /\ recoverLatestCommittedFSMLog raft3 1 = Ok (Some (entry 3 [4%Z]))
  /\ UnmarshalRaftLog (Codec := tableCodec) (Data (entry 1 [4%Z])) = Ok createOrders0
  /\ trace (Apply (ops := specOps) (codec := tableCodec) (entry 1 [4%Z])
              (server0 raft3 false ∅)).2
     = [StartedRecovery; Applied 1 true].
Proof.
  assert (Htot : forall j, (1 <= j <= 3)%N -> exists log, GetLog raft3 j = Ok log).
  { intros j Hj. simpl. rewrite bool_decide_eq_true_2 by done. eauto. }
  assert (Hr : recoverLatestCommittedFSMLog raft3 1 = Ok (Some (entry 3 [4%Z])))
    by reflexivity.
  split; [reflexivity|]. split; [reflexivity|]. split; [exact Htot|].
  split.
  { pose proof (proj1 (C5_recovery_barrier (ops := specOps) (codec := tableCodec))
                  raft3 1%N 3%N 1%N eq_refl eq_refl Htot) as H.
    rewrite Hr in H. destruct H as (_ & _ & k & Hk & Hget & _). eauto. }
  split; [exact Hr|]. split; [reflexivity|].
  exact (proj1 (proj2 (C5_recovery_barrier (ops := specOps) (codec := tableCodec))
           (entry 1 [4%Z]) (server0 raft3 false ∅) _ createOrders0 Hr eq_refl)).
Defined.

(** C5 as stated fails.  With entries 1, 2 and 3 committed, the barrier
    recorded when entry 1 is applied is entry 3, whose index is not below 1
    (no committed command lies below entry 1, so the statement would have
    entry 1 applied normally, yet it is applied as recovered); and when the
    first entry applied is entry 3, the commit index itself, no barrier is
    recorded although the commands 1 and 2 lie below it. *)
Lemma C5_counterexample :
  recoverLatestCommittedFSMLog raft3 1 = Ok (Some (entry 3 [4%Z]))
  /\ ~ (Index (entry 3 [4%Z]) < 1)%N
  /\ documentedBarrier raft3 1 = None
  /\ trace (Apply (ops := specOps) (codec := tableCodec) (entry 1 [4%Z])
              (server0 raft3 false ∅)).2
     = [StartedRecovery; Applied 1 true]
  /\ recoverLatestCommittedFSMLog raft3 3 = Ok None
  /\ documentedBarrier raft3 3 = Some (entry 2 [4%Z]).
Proof.
  split; [reflexivity|]. split; [vm_compute; discriminate|].
  split; [reflexivity|]. split; [vm_compute; reflexivity|].
  split; reflexivity.
Qed.

(** ** Further properties of the state machine *)

Section ReturnedValues.
Context `{ops : PartitionOps} `{codec : Codec}.

(** A value [apply] hands back is one of the sentinels of the operation, and
    the store is then as it was. *)
Lemma apply_value (log : RaftLog) (index : N) (rec : bool) (m m' : store)
    (e : error) :
  apply log index rec m = Ok (Some e, m') ->
  m' = m /\
  match log with
  | CreatePartitionOp _ => e = ErrPartitionExists
  | DeleteStreamOp _ => e = ErrStreamNotFound
  | PauseStreamOp _ _ _ => e = ErrStreamNotFound \/ e = ErrPartitionNotFound
  | _ => False
  end.
Proof.
  destruct log; simpl.
  - destruct (applyCreatePartition _ _ _) as [m1|e1]; [discriminate|].
    destruct (decide (e1 = ErrPartitionExists)) as [->|]; [|discriminate].
    by intros [= <- <-].
  - destruct (applyShrinkISR _ _ _ _ _); simpl; discriminate.
  - destruct (applyChangeStreamLeader _ _ _ _ _); simpl; discriminate.
  - destruct (applyExpandISR _ _ _ _ _); simpl; discriminate.
  - destruct (applyDeleteStream _ _) as [m1|e1]; [discriminate|].
    destruct (decide (e1 = ErrStreamNotFound)) as [->|]; [|discriminate].
    by intros [= <- <-].
  - destruct (applyPauseStream _ _ _ _) as [m1|e1]; [discriminate|].
    destruct (decide (_ \/ _)) as [H|]; [|discriminate].
    by intros [= <- <-].
  - discriminate.
Qed.

Lemma applyEntry_meta (l : raftLog) (rec : bool) (s : Server) (v : option error) :
  (applyEntry l rec s).1 = Returns v ->
  exists log, UnmarshalRaftLog (Data l) = Ok log /\
    match apply log (Index l) rec (metadata s) with
    | Ok (v', _) => v' = v
    | Err e => shutdown s = true /\ v = Some e
    end.
Proof.
  unfold applyEntry. destruct (UnmarshalRaftLog (Data l)) as [log|e]; [|discriminate].
  cbv zeta. simpl metadata. simpl shutdown.
  intros H. exists log. split; [done|].
  destruct (apply log _ _ _) as [[v' m]|e].
  - simpl in H. congruence.
  - destruct (shutdown s); simpl in H; [|discriminate]. split; congruence.
Qed.

(** X1.  While the server is not shutting down, the only errors [Apply]
    hands back as a value are the sentinels of the operation applied:
    [ErrPartitionExists] for a CreatePartition entry, [ErrStreamNotFound]
    for a DeleteStream entry, [ErrStreamNotFound] or [ErrPartitionNotFound]
    for a PauseStream entry; the operation then left the store as it was. *)
Theorem X1_returned_errors_are_sentinels (l : raftLog) (s : Server) (e : error) :
  shutdown s = false ->
  (Apply l s).1 = Returns (Some e) ->
  exists log rec,
    UnmarshalRaftLog (Data l) = Ok log
    /\ apply log (Index l) rec (metadata s) = Ok (Some e, metadata s)
    /\ match log with
       | CreatePartitionOp _ => e = ErrPartitionExists
       | DeleteStreamOp _ => e = ErrStreamNotFound
       | PauseStreamOp _ _ _ => e = ErrStreamNotFound \/ e = ErrPartitionNotFound
       | _ => False
       end.
Proof.
  intros Hsh HA. unfold Apply in HA.
  destruct (establishBarrier l s) as [s1|e1] eqn:He; [|discriminate].
  apply establishBarrier_frame in He as (Hm & Hs & _).
  set (rec := isRecovered l s1) in *.
  set (s2 := if isBarrier l s1 then _ else s1) in *.
  assert (Hm2 : metadata s2 = metadata s) by (subst s2; by destruct (isBarrier l s1)).
  assert (Hs2 : shutdown s2 = false)
    by (subst s2; destruct (isBarrier l s1); simpl; congruence).
  destruct (deferredFinish_outcome (isBarrier l s1) (applyEntry l rec s2))
    as [Hd|[e' Hd]]; rewrite Hd in HA; [|discriminate].
  apply applyEntry_meta in HA as (log & Hu & Hap).
  exists log, rec. split; [done|]. rewrite Hm2 in Hap.
  destruct (apply log (Index l) rec (metadata s)) as [[v' m']|e2] eqn:Ha.
  - subst v'. destruct (apply_value _ _ _ _ _ _ Ha) as [-> Hcase]. done.
  - destruct Hap. congruence.
Qed.

End ReturnedValues.

Lemma X1_returned_errors_are_sentinels_witness :
  exists log rec,
    UnmarshalRaftLog (Codec := tableCodec) (Data (entry 7 [4%Z])) = Ok log
    /\ apply (ops := specOps) log 7 rec store0 = Ok (Some ErrPartitionExists, store0)
    /\ match log with
       | CreatePartitionOp _ => ErrPartitionExists = ErrPartitionExists
       | DeleteStreamOp _ => ErrPartitionExists = ErrStreamNotFound
       | PauseStreamOp _ _ _ =>
           ErrPartitionExists = ErrStreamNotFound
           \/ ErrPartitionExists = ErrPartitionNotFound
       | _ => False
       end.
Proof.
  apply (X1_returned_errors_are_sentinels (ops := specOps) (codec := tableCodec)
           (entry 7 [4%Z]) (server0 quietRaft true store0) ErrPartitionExists);
    [reflexivity | vm_compute; reflexivity].
Defined.

Section FatalPaths.
Context `{ops : PartitionOps} `{codec : Codec}.

Lemma setMetadata_same (s : Server) : setMetadata s (metadata s) = s.
Proof. by destruct s. Qed.

(** X2.  Past recovery, a DeleteStream or PauseStream entry that names a
    stream the store does not hold is not fatal: [Apply] hands back
    [ErrStreamNotFound] as its value, whether or not the server is shutting
    down, and leaves the store as it was. *)
Theorem X2_missing_stream_is_reported (l : raftLog) (s : Server) (name : string) :
  recoveryStarted s = true -> latestRecoveredLog s = None ->
  (UnmarshalRaftLog (Data l) = Ok (DeleteStreamOp name)
   \/ exists ids resumeAll,
        UnmarshalRaftLog (Data l) = Ok (PauseStreamOp name ids resumeAll)) ->
  GetStream name (metadata s) = None ->
  Apply l s = (Returns (Some ErrStreamNotFound), emit s (Applied (Index l) false)).
Proof.
  intros Hst Hb Hu Hg. rewrite Apply_normal by done. unfold applyEntry.
  destruct Hu as [Hu|(ids & r & Hu)]; rewrite Hu; cbv zeta; simpl metadata;
    simpl apply; unfold applyDeleteStream, applyPauseStream; rewrite Hg;
    (destruct (decide _) as [_|Hn]; [|exfalso; apply Hn; auto]);
    by rewrite <- (setMetadata_same (emit s _)) at 2.
Qed.

(** X3.  An entry whose data cannot be decoded makes [Apply] panic, also
    while the server is shutting down; past recovery the panic carries the
    decoder's error and nothing is recorded or changed. *)
Theorem X3_undecodable_entry_is_fatal (l : raftLog) (s : Server) (e : error) :
  UnmarshalRaftLog (Data l) = Err e ->
  (exists e', (Apply l s).1 = Panics e')
  /\ (recoveryStarted s = true -> latestRecoveredLog s = None ->
      Apply l s = (Panics e, s)).
Proof.
  intros Hu. split.
  - unfold Apply. destruct (establishBarrier l s) as [s1|e1]; [|by eexists].
    cbv zeta.
    match goal with |- context [deferredFinish ?f ?r] =>
      destruct (deferredFinish_outcome f r) as [Hd|[e' Hd]]; rewrite Hd
    end; [|by eexists].
    unfold applyEntry. rewrite Hu. by eexists.
  - intros Hst Hb. rewrite Apply_normal by done. unfold applyEntry.
    by rewrite Hu.
Qed.

(** X4.  Past recovery, an entry with an operation the state machine does
    not know is fatal: [Apply] panics with the unknown-operation error,
    unless the server is shutting down, when it hands that error back as its
    value.  The store is unchanged either way. *)
Theorem X4_unknown_operation (l : raftLog) (s : Server) (op : Z) :
  recoveryStarted s = true -> latestRecoveredLog s = None ->
  UnmarshalRaftLog (Data l) = Ok (OtherOp op) ->
  Apply l s
  = (if shutdown s then Returns (Some (UnknownRaftOperation op))
     else Panics (UnknownRaftOperation op),
     emit s (Applied (Index l) false)).
Proof.
  intros Hst Hb Hu. rewrite Apply_normal by done. unfold applyEntry.
  rewrite Hu. cbv zeta. simpl. by destruct (shutdown s).
Qed.

(** X5.  A failure of [CloseAndDeleteStream], or a failure of [Pause] other
    than [ErrPartitionNotFound], is wrapped before it reaches [apply]: the
    wrapped error is no sentinel, even when its cause is one, so [apply]
    returns it as an error and [Apply] panics with it unless the server is
    shutting down. *)
Theorem X5_wrapped_failures_are_fatal (l : raftLog) (s : Server) (log : RaftLog)
    (name : string) (ps : partitions) (e : error) :
  recoveryStarted s = true -> latestRecoveredLog s = None ->
  shutdown s = false ->
  UnmarshalRaftLog (Data l) = Ok log ->
  GetStream name (metadata s) = Some ps ->
  (log = DeleteStreamOp name /\ CloseAndDeleteStream name (metadata s) = Err e
   \/ exists ids resumeAll,
        log = PauseStreamOp name ids resumeAll
        /\ Pause ids resumeAll ps = Err e /\ e ≠ ErrPartitionNotFound) ->
  exists msg, (Apply l s).1 = Panics (Wrap e msg).
Proof.
  intros Hst Hb Hsh Hu Hg Hcase. rewrite Apply_normal by done.
  unfold applyEntry. rewrite Hu. cbv zeta. simpl metadata. simpl shutdown.
  rewrite Hsh.
  destruct Hcase as [[-> Hf]|(ids & r & -> & Hf & Hne)]; simpl apply;
    unfold applyDeleteStream, applyPauseStream; rewrite Hg, Hf.
  - eexists. reflexivity.
  - destruct (decide (e = ErrPartitionNotFound)); [done|].
    destruct (decide _) as [[?|?]|_]; [discriminate..|]. eexists. reflexivity.
Qed.

End FatalPaths.

Lemma X2_missing_stream_is_reported_witness :
  Apply (ops := specOps) (codec := streamCodec) (entry 9 [6%Z])
    (server0 quietRaft true store0)
  = (Returns (Some ErrStreamNotFound),
     emit (server0 quietRaft true store0) (Applied 9 false)).
Proof.
  apply (X2_missing_stream_is_reported (ops := specOps) (codec := streamCodec)
           (entry 9 [6%Z]) (server0 quietRaft true store0) "payments");
    [reflexivity | reflexivity | left; reflexivity | vm_compute; reflexivity].
Defined.

Lemma X3_undecodable_entry_is_fatal_witness :
  (exists e', (Apply (ops := specOps) (codec := tableCodec) (entry 9 [0%Z])
                 (server0 quietRaft true store0)).1 = Panics e')
  /\ (true = true -> @None raftLog = None ->
      Apply (ops := specOps) (codec := tableCodec) (entry 9 [0%Z])
        (server0 quietRaft true store0)
      = (Panics (Failure "proto: illegal wireType"),
         server0 quietRaft true store0)).
Proof.
  apply (X3_undecodable_entry_is_fatal (ops := specOps) (codec := tableCodec)
           (entry 9 [0%Z]) (server0 quietRaft true store0)).
  reflexivity.
Defined.

Lemma X4_unknown_operation_witness :
  Apply (ops := specOps) (codec := streamCodec) (entry 9 [8%Z])
    (server0 quietRaft true store0)
  = (Panics (UnknownRaftOperation 99),
     emit (server0 quietRaft true store0) (Applied 9 false)).
Proof.
  apply (X4_unknown_operation (ops := specOps) (codec := streamCodec)
           (entry 9 [8%Z]) (server0 quietRaft true store0) 99);
    reflexivity.
Defined.

Lemma X5_wrapped_failures_are_fatal_witness :
  exists msg,
    (Apply (ops := failingOps) (codec := streamCodec) (entry 9 [5%Z])
       (server0 quietRaft true store0)).1
    = Panics (Wrap ErrStreamNotFound msg).
Proof.
  apply (X5_wrapped_failures_are_fatal (ops := failingOps) (codec := streamCodec)
           (entry 9 [5%Z]) (server0 quietRaft true store0) deleteOrders
           "orders" (default ∅ (store0 !! "orders")) ErrStreamNotFound);
    [reflexivity | reflexivity | reflexivity | reflexivity
    | vm_compute; reflexivity | left; split; reflexivity].
Defined.

Section RecoveryProtocol.
Context `{ops : PartitionOps} `{codec : Codec}.

Lemma applyEntry_events (l : raftLog) (rec : bool) (s : Server) :
  exists mid, (mid = [] \/ mid = [Applied (Index l) rec])
    /\ trace (applyEntry l rec s).2 = trace s ++ mid
    /\ recoveryStarted (applyEntry l rec s).2 = recoveryStarted s
    /\ latestRecoveredLog (applyEntry l rec s).2 = latestRecoveredLog s.
Proof.
  destruct (UnmarshalRaftLog (Data l)) as [log|e] eqn:Hu.
  - destruct (applyEntry_frame l rec s log Hu) as (Ht & Hr & Hb).
    exists [Applied (Index l) rec]. auto.
  - exists []. unfold applyEntry. rewrite Hu. simpl. rewrite app_nil_r. auto.
Qed.

(** What one call of [Apply] does to the recovery state and to the record of
    events: [b] is the barrier in force during the call. *)
Lemma Apply_protocol (l : raftLog) (s : Server) :
  (Apply l s).2 = s /\ (exists e, (Apply l s).1 = Panics e) \/
  exists (b : option raftLog) (mid : list event),
    (recoveryStarted s = true -> b = latestRecoveredLog s)
    /\ (mid = [] \/
        mid = [Applied (Index l)
                 match b with Some bl => (Index l <=? Index bl)%N | None => false end])
    /\ recoveryStarted (Apply l s).2 = true
    /\ latestRecoveredLog (Apply l s).2
       = (if match b with Some bl => (Index l =? Index bl)%N | None => false end
          then None else b)
    /\ trace (Apply l s).2
       = trace s
         ++ (if recoveryStarted s then []
             else match b with Some _ => [StartedRecovery] | None => [] end)
         ++ mid
         ++ (if match b with Some bl => (Index l =? Index bl)%N | None => false end
             then [FinishedRecovery] else []).
Proof.
  destruct (if recoveryStarted s then Ok (latestRecoveredLog s)
            else recoverLatestCommittedFSMLog (raft s) (Index l))
    as [b|e] eqn:Hb.
  2: { left. unfold Apply, establishBarrier.
       destruct (recoveryStarted s); [discriminate|]. rewrite Hb. simpl. eauto. }
  right.
  destruct (establishBarrier_spec l s b Hb) as (s1 & He & Hl1 & Hr1 & Ht1).
  unfold Apply. rewrite He. cbv zeta.
  assert (Hfin : isBarrier l s1
                 = match b with Some bl => (Index l =? Index bl)%N | None => false end).
  { unfold isBarrier, isRecovered. rewrite Hl1. destruct b as [bl|]; [|done].
    destruct (N.eqb_spec (Index l) (Index bl)) as [->|]; [|apply andb_false_r].
    by rewrite N.leb_refl. }
  assert (Hrec : isRecovered l s1
                 = match b with Some bl => (Index l <=? Index bl)%N | None => false end).
  { unfold isRecovered. by rewrite Hl1. }
  rewrite Hfin, Hrec.
  set (fin := match b with Some bl => (Index l =? Index bl)%N | None => false end).
  set (rec := match b with Some bl => (Index l <=? Index bl)%N | None => false end).
  set (s2 := if fin then setRecovery s1 (recoveryStarted s1) None else s1).
  destruct (deferredFinish_frame fin (applyEntry l rec s2)) as (Ht & Hr & Hl).
  destruct (applyEntry_events l rec s2) as (mid & Hmid & Ht2 & Hr2 & Hl2).
  exists b, mid. rewrite Ht, Hr, Hl, Ht2, Hr2, Hl2.
  assert (Hs2 : trace s2 = trace s1 /\ recoveryStarted s2 = true
                /\ latestRecoveredLog s2 = if fin then None else b).
  { subst s2. destruct fin; simpl; auto. }
  destruct Hs2 as (-> & -> & ->). rewrite Ht1.
  split.
  { intros Hst. rewrite Hst in Hb. congruence. }
  split; [done|]. split; [done|]. split; [done|].
  by rewrite <- !app_assoc.
Qed.

Lemma Apply_protocolState (l : raftLog) (s : Server) :
  protocolState s -> protocolState (Apply l s).2.
Proof.
  intros Hinv.
  destruct (Apply_protocol l s) as [[-> _]|(b & mid & Hb & Hmid & Hr & Hl & Ht)];
    [done|].
  right. split; [done|]. rewrite Hl, Ht.
  assert (HmidA : Forall (fun ev => exists i r, ev = Applied i r) mid).
  { destruct Hmid as [->| ->]; repeat constructor. eauto. }
  destruct Hinv as [[Hst Htr]|(Hst & mixed & falses & Hmx & Hfs & Hcase)].
  - rewrite Hst, Htr. simpl. destruct b as [bl|].
    + destruct (Index l =? Index bl)%N.
      * exists mid, []. split; [done|]. split; [constructor|].
        left. split; [done|]. right. reflexivity.
      * exists mid, []. split; [done|]. split; [constructor|].
        right. split; [by eexists|]. by rewrite app_nil_r.
    + exists [], mid. split; [constructor|]. split.
      { destruct Hmid as [->| ->]; repeat constructor. eauto. }
      left. split; [done|]. left. by rewrite app_nil_r.
  - rewrite Hst. specialize (Hb Hst). simpl.
    destruct Hcase as [[Hnone Htr]|[[bl Hsome] Htr]].
    + rewrite Hnone in Hb. subst b. rewrite app_nil_r.
      assert (HmidF : Forall (fun ev => exists i, ev = Applied i false) mid).
      { destruct Hmid as [->| ->]; repeat constructor. eauto. }
      exists mixed, (falses ++ mid). split; [done|].
      split; [by apply Forall_app|].
      left. split; [done|]. destruct Htr as [->| ->]; [by left|right].
      simpl. by rewrite <- app_assoc.
    + rewrite Hsome in Hb. subst b. rewrite Htr.
      destruct (Index l =? Index bl)%N.
      * exists (mixed ++ mid), []. split; [by apply Forall_app|].
        split; [constructor|]. left. split; [done|]. right.
        simpl. by rewrite <- app_assoc.
      * exists (mixed ++ mid), []. split; [by apply Forall_app|].
        split; [constructor|]. right. split; [by eexists|].
        simpl. by rewrite app_nil_r.
Qed.

Lemma applyEntries_protocolState (ls : list raftLog) :
  forall s, protocolState s -> protocolState (applyEntries ls s).
Proof.
  induction ls as [|l ls IH]; intros s Hs; simpl; [done|].
  pose proof (Apply_protocolState l s Hs) as H.
  destruct (Apply l s) as [[v|e] s']; simpl in H; auto.
Qed.

(** X6.  Recovery runs at most once.  Over any run of [Apply] from a server
    that has applied nothing, what the state machine does has one of three
    shapes: entries applied as new only; [startedRecovery], then entries
    applied; or [startedRecovery], entries applied, [finishedRecovery], then
    entries applied as new only.  So [finishedRecovery] never runs without
    [startedRecovery] before it, neither runs twice, and no entry is applied
    as recovered once [finishedRecovery] has run. *)
Theorem X6_recovery_runs_once (ls : list raftLog) (s : Server) :
  recoveryStarted s = false -> trace s = [] ->
  exists mixed falses : list event,
    Forall (fun ev => exists i r, ev = Applied i r) mixed
    /\ Forall (fun ev => exists i, ev = Applied i false) falses
    /\ (trace (applyEntries ls s) = falses
        \/ trace (applyEntries ls s) = StartedRecovery :: mixed
        \/ trace (applyEntries ls s)
           = StartedRecovery :: mixed ++ FinishedRecovery :: falses).
Proof.
  intros Hst Htr.
  destruct (applyEntries_protocolState ls s) as [[_ H]|(_ & mixed & falses & Hm & Hf & H)].
  { left. auto. }
  - exists [], []. split; [constructor|]. split; [constructor|]. by left.
  - exists mixed, falses. split; [done|]. split; [done|].
    destruct H as [[_ [H|H]]|[_ H]]; auto.
Qed.

End RecoveryProtocol.

Lemma X6_recovery_runs_once_witness :
  exists mixed falses : list event,
    Forall (fun ev => exists i r, ev = Applied i r) mixed
    /\ Forall (fun ev => exists i, ev = Applied i false) falses
    /\ let t := trace (applyEntries (ops := specOps) (codec := tableCodec)
                         [entry 1 [4%Z]; entry 2 [4%Z]; entry 3 [4%Z]]
                         (server0 raft3 false ∅)) in
       (t = falses \/ t = StartedRecovery :: mixed
        \/ t = StartedRecovery :: mixed ++ FinishedRecovery :: falses).
Proof.
  apply (X6_recovery_runs_once (ops := specOps) (codec := tableCodec)
           [entry 1 [4%Z]; entry 2 [4%Z]; entry 3 [4%Z]] (server0 raft3 false ∅));
    reflexivity.
Defined.

Section Replay.
Context `{ops : PartitionOps} `{codec : Codec}.

(** X7.  Replaying an entry is harmless.  Once an ISR or leader entry has
    been applied, applying it again, as recovery or not, changes nothing and
    succeeds without calling the partition method; once a CreatePartition
    entry has been applied, applying it again hands back
    [ErrPartitionExists] and changes nothing. *)
Theorem X7_replay_is_idempotent (log : RaftLog) (index : N) (rec rec' : bool)
    (m m' : store) (v : option error) :
  apply log index rec m = Ok (v, m') ->
  (is_Some (target log) -> apply log index rec' m' = Ok (None, m'))
  /\ (forall p, log = CreatePartitionOp p ->
        apply log index rec' m' = Ok (Some ErrPartitionExists, m')).
Proof.
  intros Ha. split.
  - intros [[n i] Ht].
    pose proof (apply_epoch_op log index rec m n i Ht) as H.
    pose proof (apply_epoch_op log index rec' m' n i Ht) as H'.
    destruct (GetPartition n i m) as [q|] eqn:Hq; [|congruence].
    destruct (N.leb_spec index (GetEpoch q)) as [Hle|Hlt].
    + rewrite H in Ha. injection Ha as <- <-. rewrite Hq in H'.
      apply N.leb_le in Hle. by rewrite Hle in H'.
    + destruct (method log index q) as [[q'|err]|]; [| |contradiction].
      2: { destruct H as [msg H]. congruence. }
      rewrite H in Ha. injection Ha as <- <-.
      rewrite GetPartition_setPartition, GetEpoch_SetEpoch, N.leb_refl in H'.
      exact H'.
  - intros p ->. simpl in *. unfold applyCreatePartition, AddPartition in *.
    destruct (GetPartition _ _ m) as [q|] eqn:Hg.
    + rewrite decide_True in Ha by done. rewrite decide_True in Ha by done.
      injection Ha as <- <-. rewrite Hg.
      rewrite decide_True by done. by rewrite decide_True.
    + injection Ha as <- <-. rewrite GetPartition_setPartition.
      rewrite decide_True by done. by rewrite decide_True.
Qed.

End Replay.

Lemma X7_replay_is_idempotent_witness :
  (is_Some (target shrinkN2) ->
   apply (ops := specOps) shrinkN2 5 true
     (setPartition "orders" 0
        (SetEpoch 5 (withIsr (newPartition orders0 false) ["n1"])) store0)
   = Ok (None,
         setPartition "orders" 0
           (SetEpoch 5 (withIsr (newPartition orders0 false) ["n1"])) store0))
  /\ (forall p, shrinkN2 = CreatePartitionOp p ->
        apply (ops := specOps) shrinkN2 5 true
          (setPartition "orders" 0
             (SetEpoch 5 (withIsr (newPartition orders0 false) ["n1"])) store0)
        = Ok (Some ErrPartitionExists,
              setPartition "orders" 0
                (SetEpoch 5 (withIsr (newPartition orders0 false) ["n1"])) store0)).
Proof.
  apply (X7_replay_is_idempotent (ops := specOps) shrinkN2 5 false true store0
           _ None).
  vm_compute. reflexivity.
Defined.

Section SnapshotStream.
Context `{codec : Codec}.


Lemma ReadFull_take (n : nat) (b : list Z) :
  (n <= length b)%nat -> exists rest, ReadFull n b = Ok (take n b, rest).
Proof.
  intros Hn. unfold ReadFull. destruct (decide (n = O)) as [->|].
  - eexists. reflexivity.
  - rewrite decide_True by done. eexists. reflexivity.
Qed.

(** X9.  The length prefix keeps only the low 32 bits of the length of the
    encoded snapshot.  After a [Persist] into an empty sink that accepts
    every write, [Restore] decodes the first [len mod 2^32] bytes of the
    encoded snapshot, whatever its length, and restores from them. *)
Theorem X9_length_prefix_wraps (f : MetadataSnapshot) (b : list Z)
    (sink : SnapshotSink) (s : Server) :
  MarshalSnapshot f = Ok b ->
  sunk sink = [] -> writeFaults sink = [] -> closeFault sink = None ->
  exists sink',
    Persist f sink = (None, sink')
    /\ sunk sink' = PutUint32 (Z.of_nat (length b) mod 2 ^ 32) ++ b
    /\ Restore (sunk sink') s
       = match UnmarshalSnapshot
                 (take (Z.to_nat (Z.of_nat (length b) mod 2 ^ 32)) b) with
         | Err e => (Some e, s)
         | Ok snap =>
             let '(err, m') := restorePartitions (Partitions snap) ∅ in
             (err, setMetadata s m')
         end.
Proof.
  intros Hm Hs Hw Hc. destruct sink as [su wf cf cl ca]. simpl in Hs, Hw, Hc.
  subst su wf cf.
  exists (mkSink (PutUint32 (Z.of_nat (length b) mod 2 ^ 32) ++ b) [] None true ca).
  split; [unfold Persist; rewrite Hm; reflexivity|].
  split; [reflexivity|]. cbn [sunk].
  set (n := (Z.of_nat (length b) mod 2 ^ 32)%Z).
  assert (Hn : (0 <= n < 2 ^ 32)%Z) by (apply Z.mod_pos_bound; lia).
  assert (Hle : (Z.to_nat n <= length b)%nat).
  { assert (n <= Z.of_nat (length b))%Z by (apply Z.mod_le; lia). lia. }
  unfold Restore.
  change 4%nat with (length (PutUint32 n)).
  rewrite ReadFull_app. rewrite Uint32_PutUint32 by done.
  destruct (ReadFull_take _ _ Hle) as [rest ->].
  reflexivity.
Qed.

(** X10.  [Restore] decodes before it drops anything: on a stream shorter
    than its four-byte length, on a stream shorter than the length
    announces, and on bytes that do not decode, it returns the error and
    leaves the server as it was. *)
Theorem X10_restore_keeps_state_on_bad_stream (s : Server) :
  (forall snapshot, (length snapshot < 4)%nat ->
     Restore snapshot s
     = (Some (match snapshot with [] => EOF | _ => ErrUnexpectedEOF end), s))
  /\ (forall sizeBuf rest, length sizeBuf = 4%nat ->
        (length rest < Z.to_nat (Uint32 sizeBuf))%nat ->
        Restore (sizeBuf ++ rest) s
        = (Some (match rest with [] => EOF | _ => ErrUnexpectedEOF end), s))
  /\ (forall sizeBuf buf rest e, length sizeBuf = 4%nat ->
        length buf = Z.to_nat (Uint32 sizeBuf) ->
        UnmarshalSnapshot buf = Err e ->
        Restore (sizeBuf ++ buf ++ rest) s = (Some e, s)).
Proof.
  split; [|split].
  - intros snapshot Hlen. unfold Restore, ReadFull.
    rewrite decide_False by done. by rewrite decide_False by lia.
  - intros sizeBuf rest H4 Hlen. unfold Restore.
    rewrite <- H4, ReadFull_app. unfold ReadFull.
    rewrite decide_False by lia. by rewrite decide_False by lia.
  - intros sizeBuf buf rest e H4 Hlen Hu. unfold Restore.
    rewrite <- H4, ReadFull_app, <- Hlen, ReadFull_app. by rewrite Hu.
Qed.

End SnapshotStream.

Lemma X9_length_prefix_wraps_witness :
  exists sink',
    Persist (codec := tableCodec) {| Partitions := [orders0] |}
      (mkSink [] [] None false false) = (None, sink')
    /\ sunk sink' = PutUint32 (Z.of_nat (length [10; 6]%Z) mod 2 ^ 32) ++ [10; 6]%Z
    /\ Restore (codec := tableCodec) (sunk sink') (server0 quietRaft true ∅)
       = match UnmarshalSnapshot (Codec := tableCodec)
                 (take (Z.to_nat (Z.of_nat (length [10; 6]%Z) mod 2 ^ 32))
                    [10; 6]%Z) with
         | Err e => (Some e, server0 quietRaft true ∅)
         | Ok snap =>
             let '(err, m') := restorePartitions (Partitions snap) ∅ in
             (err, setMetadata (server0 quietRaft true ∅) m')
         end.
Proof.
  apply (X9_length_prefix_wraps (codec := tableCodec)
           {| Partitions := [orders0] |} [10; 6]%Z
           (mkSink [] [] None false false) (server0 quietRaft true ∅));
    reflexivity.
Defined.

Lemma X10_restore_keeps_state_on_bad_stream_witness :
  Restore (codec := tableCodec) [0; 0; 1]%Z (server0 quietRaft true store0)
  = (Some ErrUnexpectedEOF, server0 quietRaft true store0)
  /\ Restore (codec := tableCodec) ([0; 0; 0; 2]%Z ++ [10]%Z)
       (server0 quietRaft true store0)
     = (Some ErrUnexpectedEOF, server0 quietRaft true store0)
  /\ Restore (codec := tableCodec) ([0; 0; 0; 2]%Z ++ [10; 7]%Z ++ [])
       (server0 quietRaft true store0)
     = (Some (Failure "proto: illegal wireType"), server0 quietRaft true store0).
Proof.
  destruct (X10_restore_keeps_state_on_bad_stream (codec := tableCodec)
              (server0 quietRaft true store0)) as (H1 & H2 & H3).
  split; [|split].
  - apply (H1 [0; 0; 1]%Z). simpl. lia.
  - apply (H2 [0; 0; 0; 2]%Z [10]%Z); [reflexivity | vm_compute; lia].
  - apply (H3 [0; 0; 0; 2]%Z [10; 7]%Z []); reflexivity.
Defined.

Section RestoreLoop.

Lemma restorePartitions_cases (ps : list Partition) :
  forall m : store,
  match restorePartitions ps m with
  | (None, m') =>
      NoDup (key <$> ps)
      /\ (forall p, p ∈ ps -> GetPartition (Stream p) (Id p) m = None)
      /\ m' = insertAll ps m
  | (Some e, m') =>
      e = ErrPartitionExists
      /\ exists pre p post,
           ps = pre ++ p :: post
           /\ NoDup (key <$> pre)
           /\ (forall q, q ∈ pre -> GetPartition (Stream q) (Id q) m = None)
           /\ (key p ∈ key <$> pre
               \/ is_Some (GetPartition (Stream p) (Id p) m))
           /\ m' = insertAll pre m
  end.
Proof.
  induction ps as [|a ps IH]; intros m; simpl.
  { split; [constructor|]. split; [|done]. intros p Hp. by apply elem_of_nil in Hp. }
  unfold applyCreatePartition, AddPartition.
  destruct (GetPartition (Stream a) (Id a) m) as [old|] eqn:Hold.
  { rewrite decide_True by done. split; [done|].
    exists [], a, ps. split; [done|]. split; [constructor|].
    split; [intros q Hq; by apply elem_of_nil in Hq|]. split; [right; eauto|done]. }
  set (m1 := setPartition (Stream a) (Id a) (newPartition a false) m).
  assert (Hfresh : forall q, GetPartition (Stream q) (Id q) m1 = None ->
                     key q ≠ key a /\ GetPartition (Stream q) (Id q) m = None).
  { intros q Hq. assert (Hne : key q ≠ key a).
    { intros [= Hs Hi]. subst m1. rewrite <- Hs, <- Hi in Hq.
      by rewrite GetPartition_setPartition in Hq. }
    split; [done|]. subst m1.
    rewrite GetPartition_setPartition_ne in Hq; [done|].
    intros Heq. apply Hne. unfold key. congruence. }
  specialize (IH m1). destruct (restorePartitions ps m1) as [[e|] m'].
  - destruct IH as (-> & pre & p & post & -> & Hnd & Hfr & Hdup & ->).
    split; [done|]. exists (a :: pre), p, post. split; [done|].
    split.
    { rewrite fmap_cons. apply NoDup_cons. split; [|done].
      intros Hin. apply list_elem_of_fmap in Hin as (q & Hk & Hq).
      destruct (Hfresh q (Hfr q Hq)) as [Hne _]. congruence. }
    split.
    { intros q Hq. apply elem_of_cons in Hq as [->|Hq]; [done|].
      by apply Hfresh, Hfr. }
    split; [|done].
    destruct Hdup as [Hdup|Hsome].
    + left. rewrite fmap_cons. by apply list_elem_of_further.
    + destruct (decide (key p = key a)) as [Heq|Hne].
      * left. rewrite Heq. apply list_elem_of_here.
      * right. subst m1. rewrite GetPartition_setPartition_ne in Hsome; [done|].
        intros Heq. apply Hne. unfold key. congruence.
  - destruct IH as (Hnd & Hfr & ->). split.
    { apply NoDup_cons. split; [|done].
      intros Hin. apply list_elem_of_fmap in Hin as (q & Hk & Hq).
      destruct (Hfresh q (Hfr q Hq)) as [Hne _]. congruence. }
    split; [|done].
    intros q Hq. apply elem_of_cons in Hq as [->|Hq]; [done|].
    by apply Hfresh, Hfr.
Qed.

Lemma GetPartition_empty (name : string) (id : Z) :
  GetPartition name id (∅ : store) = None.
Proof. unfold GetPartition. by rewrite lookup_empty. Qed.

(** X11.  The loop of [Restore] accepts a partition list exactly when no two
    of its partitions share a stream name and id.  Otherwise it stops at the
    first partition whose key has occurred before, returns
    [ErrPartitionExists], and leaves in the store, already dropped of its
    old state, the partitions that precede the duplicate. *)
Theorem X11_restore_stops_at_first_duplicate (ps : list Partition) :
  NoDup (key <$> ps) /\ restorePartitions ps ∅ = (None, insertAll ps ∅)
  \/ exists pre p post,
       ps = pre ++ p :: post
       /\ NoDup (key <$> pre) /\ key p ∈ key <$> pre
       /\ restorePartitions ps ∅ = (Some ErrPartitionExists, insertAll pre ∅).
Proof.
  pose proof (restorePartitions_cases ps ∅) as H.
  destruct (restorePartitions ps ∅) as [[e|] m'].
  - destruct H as (-> & pre & p & post & -> & Hnd & _ & Hdup & ->).
    right. exists pre, p, post. split; [done|]. split; [done|]. split; [|done].
    destruct Hdup as [?|[x Hx]]; [done|]. by rewrite GetPartition_empty in Hx.
  - destruct H as (Hnd & _ & ->). by left.
Qed.

Lemma wellKeyed_insertAll (ps : list Partition) :
  forall m : store, wellKeyed m -> wellKeyed (insertAll ps m).
Proof.
  induction ps as [|a ps IH]; intros m Hm; simpl; [done|].
  apply IH. exact (wellKeyed_setPartition (newPartition a false) m Hm).
Qed.

(** X12.  A snapshot taken right after a restore lists exactly the restored
    partitions: for a list without duplicate keys, the partition list of
    [Snapshot] on the restored store is a permutation of it. *)
Theorem X12_snapshot_of_restored_store (ps : list Partition) (s : Server) :
  NoDup (key <$> ps) ->
  Partitions (Snapshot (setMetadata s (insertAll ps ∅))) ≡ₚ ps.
Proof.
  intros Hnd.
  assert (Hwk : wellKeyed (insertAll ps ∅))
    by (apply wellKeyed_insertAll, wellKeyed_empty).
  apply NoDup_Permutation.
  - eapply NoDup_fmap_1. apply NoDup_Snapshot. exact Hwk.
  - eapply NoDup_fmap_1. exact Hnd.
  - intros p. rewrite elem_of_Snapshot. simpl metadata. split.
    + intros (name & st & id & part & Hst & Hid & ->).
      assert (Hg : GetPartition name id (insertAll ps ∅) = Some part).
      { unfold GetPartition. rewrite Hst. exact Hid. }
      destruct (decide (Exists (fun q => key q = (name, id)) ps)) as [Hex|Hno].
      * apply Exists_exists in Hex as (q & Hq & Hk). injection Hk as <- <-.
        rewrite (GetPartition_insertAll_elem ps q ∅ Hnd) in Hg by done.
        injection Hg as <-. exact Hq.
      * rewrite GetPartition_insertAll_other in Hg.
        { by rewrite GetPartition_empty in Hg. }
        intros q Hq Hk. apply Hno, Exists_exists. eauto.
    + intros Hp.
      pose proof (GetPartition_insertAll_elem ps p ∅ Hnd Hp) as Hg.
      unfold GetPartition in Hg.
      destruct (insertAll ps ∅ !! Stream p) as [st|] eqn:Hst; [|discriminate].
      simpl in Hg. exists (Stream p), st, (Id p), (newPartition p false). auto.
Qed.

End RestoreLoop.

Lemma X12_snapshot_of_restored_store_witness :
  Partitions (Snapshot (setMetadata (server0 quietRaft true store0)
                          (insertAll [orders0] ∅))) ≡ₚ [orders0].
Proof.
  apply (X12_snapshot_of_restored_store [orders0] (server0 quietRaft true store0)).
  apply NoDup_singleton.
Defined.

Section BarrierScan.

Lemma scanLog_sound (getLog : N -> result error raftLog) (a c lo : N) (n : nat) :
  forall (i : N) (b : raftLog),
  (N.of_nat n + lo = i + 1)%N ->
  scanLog getLog a c n i = Ok (Some b) ->
  exists k, (lo <= k <= i)%N /\ getLog k = Ok b /\ Type_ b = LogCommand
    /\ ~ (k = a /\ a = c)
    /\ forall j log, (k < j <= i)%N -> getLog j = Ok log -> Type_ log ≠ LogCommand.
Proof.
  induction n as [|n IH]; intros i b Hn; simpl; [discriminate|].
  destruct ((i =? a)%N && (a =? c)%N) eqn:Hchk; [discriminate|].
  destruct (getLog i) as [log|e] eqn:Hlog; simpl; [|discriminate].
  destruct (decide (Type_ log = LogCommand)) as [Hc|Hc].
  - intros [= <-]. exists i. split; [lia|]. split; [done|]. split; [done|].
    split.
    + intros [-> ->]. by rewrite !N.eqb_refl in Hchk.
    + intros j log' Hj. lia.
  - intros Hs. destruct n as [|n]; [discriminate|].
    destruct (IH (i - 1)%N b ltac:(lia) Hs) as (k & Hk & Hget & Hty & Hne & Hnew).
    exists k. split; [lia|]. split; [done|]. split; [done|]. split; [done|].
    intros j log' Hj Hj'.
    destruct (decide (j = i)) as [->|]; [congruence|].
    apply (Hnew j log'); [lia|done].
Qed.

(** X13.  Whatever the Raft store answers, an entry that
    [recoverLatestCommittedFSMLog] returns is a command entry the store
    holds at an index between the first index and the commit index, no
    newer entry up to the commit index is a command, and it is not the
    entry being applied when that entry is the commit index. *)
Theorem X13_recovered_log_is_newest_command (r : raftNode) (applyIndex : N)
    (b : raftLog) :
  recoverLatestCommittedFSMLog r applyIndex = Ok (Some b) ->
  exists commitIndex firstIndex k,
    commit_index r = Ok commitIndex /\ FirstIndex r = Ok firstIndex
    /\ (1 <= firstIndex <= k)%N /\ (k <= commitIndex)%N
    /\ GetLog r k = Ok b /\ Type_ b = LogCommand
    /\ ~ (k = applyIndex /\ applyIndex = commitIndex)
    /\ forall j log, (k < j <= commitIndex)%N -> GetLog r j = Ok log ->
         Type_ log ≠ LogCommand.
Proof.
  unfold recoverLatestCommittedFSMLog.
  destruct (commit_index r) as [c|e]; simpl; [|discriminate].
  destruct (FirstIndex r) as [f|e]; simpl; [|discriminate].
  destruct (N.eqb_spec f 0) as [->|Hf]; [discriminate|].
  intros Hs. destruct (N.le_gt_cases f c) as [Hfc|Hfc].
  - apply (scanLog_sound _ _ _ f) in Hs; [|unfold iterations; lia].
    destruct Hs as (k & Hk & Hget & Hty & Hne & Hnew).
    exists c, f, k. repeat split; try done; lia.
  - unfold iterations in Hs.
    replace (N.to_nat (c + 1 - f)) with O in Hs by lia. discriminate.
Qed.

End BarrierScan.

Lemma X13_recovered_log_is_newest_command_witness :
  exists commitIndex firstIndex k,
    commit_index raft3 = Ok commitIndex /\ FirstIndex raft3 = Ok firstIndex
    /\ (1 <= firstIndex <= k)%N /\ (k <= commitIndex)%N
    /\ GetLog raft3 k = Ok (entry 3 [4%Z]) /\ Type_ (entry 3 [4%Z]) = LogCommand
    /\ ~ (k = 1%N /\ 1%N = commitIndex)
    /\ forall j log, (k < j <= commitIndex)%N -> GetLog raft3 j = Ok log ->
         Type_ log ≠ LogCommand.
Proof.
  apply (X13_recovered_log_is_newest_command raft3 1 (entry 3 [4%Z])).
  reflexivity.
Defined.

Section FinishedRecovery.
Context `{ops : PartitionOps} `{codec : Codec}.

(** Inserting, for every binding of a map, a function of its value under its
    key is mapping the function over the map. *)
Lemma foldl_insert_lookup {K V} `{Countable K} (g : V -> V) (l : list (K * V)) :
  forall (m0 : gmap K V) (k : K),
  NoDup l.*1 ->
  (forall v, (k, v) ∈ l ->
     foldl (fun acc kv => <[kv.1 := g kv.2]> acc) m0 l !! k = Some (g v))
  /\ (k ∉ l.*1 ->
      foldl (fun acc kv => <[kv.1 := g kv.2]> acc) m0 l !! k = m0 !! k).
Proof.
  induction l as [|[k1 v1] l IH]; intros m0 k Hnd; simpl.
  { split; [intros v Hv; by apply elem_of_nil in Hv|done]. }
  apply NoDup_cons in Hnd as [Hk1 Hnd].
  destruct (IH (<[k1 := g v1]> m0) k Hnd) as [IH1 IH2]. split.
  - intros v Hv. apply elem_of_cons in Hv as [[= -> ->]|Hv]; [|by apply IH1].
    rewrite IH2 by done. apply lookup_insert_eq.
  - intros Hk. apply not_elem_of_cons in Hk as [Hne Hk].
    rewrite IH2 by done. by rewrite lookup_insert_ne.
Qed.

Lemma foldl_insert_fmap {K V} `{Countable K} (g : V -> V) (m : gmap K V) :
  foldl (fun acc kv => <[kv.1 := g kv.2]> acc) m (map_to_list m) = g <$> m.
Proof.
  apply map_eq. intros k. rewrite lookup_fmap.
  destruct (foldl_insert_lookup g (map_to_list m) m k
              (NoDup_fst_map_to_list m)) as [H1 H2].
  destruct (m !! k) as [v|] eqn:Hk; simpl.
  - apply H1. by apply elem_of_map_to_list.
  - rewrite H2; [done|]. intros Hin.
    apply list_elem_of_fmap in Hin as ([k' v] & -> & Hin).
    apply elem_of_map_to_list in Hin. simpl in Hk. congruence.
Qed.

Lemma startPartitions_fold (l : list (Z * partition)) :
  forall (m0 : partitions) (any0 : bool),
  Forall (fun ip => exists p' r, StartRecovered ip.2 = Ok (p', r)) l ->
  foldl (fun (acc : result error (partitions * bool)) (kv : Z * partition) =>
           '(m, any) ← acc;
           '(p', r) ← StartRecovered kv.2;
           Ok (<[kv.1 := p']> m, any || r))
        (Ok (m0, any0)) l
  = Ok (foldl (fun acc kv => <[kv.1 := afterStart kv.2]> acc) m0 l,
        any0 || existsb (fun ip => reportsRecovered ip.2) l).
Proof.
  induction l as [|[k p] l IH]; intros m0 any0 Hall; simpl.
  { by rewrite orb_false_r. }
  apply Forall_cons in Hall as [(p' & r & Hp) Hall]. simpl in Hp.
  unfold afterStart at 2, reportsRecovered at 1. rewrite Hp. simpl.
  rewrite IH by done. by rewrite orb_assoc.
Qed.

Lemma startPartitions_ok (ps : partitions) :
  (forall id p, ps !! id = Some p -> exists p' r, StartRecovered p = Ok (p', r)) ->
  startPartitions ps = Ok (afterStart <$> ps, anyRecovered ps).
Proof.
  intros Hall. unfold startPartitions. rewrite startPartitions_fold.
  - by rewrite foldl_insert_fmap.
  - apply Forall_forall. intros [id p] Hin.
    apply elem_of_map_to_list in Hin. eauto.
Qed.

Lemma finishedRecovery_fold (l : list (string * partitions)) :
  forall (m0 : store) (c0 : nat),
  Forall (fun kv => forall id p, kv.2 !! id = Some p ->
            exists p' r, StartRecovered p = Ok (p', r)) l ->
  foldl (fun (acc : result error (store * nat)) (kv : string * partitions) =>
           '(m, count) ← acc;
           '(ps', any) ← startPartitions kv.2;
           Ok (<[kv.1 := ps']> m, if (any : bool) then S count else count))
        (Ok (m0, c0)) l
  = Ok (foldl (fun acc kv => <[kv.1 := fmap afterStart kv.2]> acc) m0 l,
        (c0 + length (List.filter
                        (fun kv : string * partitions => anyRecovered kv.2) l))%nat).
Proof.
  induction l as [|[name ps] l IH]; intros m0 c0 Hall; simpl.
  { by rewrite Nat.add_0_r. }
  apply Forall_cons in Hall as [Hps Hall]. simpl in Hps.
  rewrite (startPartitions_ok ps Hps). simpl.
  rewrite IH by done. destruct (anyRecovered ps); simpl; do 2 f_equal; lia.
Qed.

(** X14.  When [StartRecovered] succeeds on every partition of the store,
    [finishedRecovery] succeeds: it has replaced every partition by what
    [StartRecovered] made of it, it returns the number of streams with a
    partition that reported it was recovered, and it has restored the log
    output unless recovery is logged. *)
Theorem X14_finished_recovery_starts_partitions (s : Server) :
  (forall name id p, GetPartition name id (metadata s) = Some p ->
     exists p' r, StartRecovered p = Ok (p', r)) ->
  exists s',
    finishedRecovery s = Ok (countRecovered (metadata s), s')
    /\ metadata s' = (fun ps : partitions => afterStart <$> ps) <$> metadata s
    /\ logDiscarded s' = (if LogRecovery s then logDiscarded s else false)
    /\ trace s' = trace s.
Proof.
  intros Hall. unfold finishedRecovery.
  assert (Hm : metadata (if LogRecovery s then s else setLogDiscarded s false)
               = metadata s) by (by destruct (LogRecovery s)).
  rewrite Hm. rewrite finishedRecovery_fold.
  - simpl. eexists. split; [reflexivity|]. simpl.
    rewrite (foldl_insert_fmap (fmap afterStart) (metadata s)).
    destruct (LogRecovery s); auto.
  - apply Forall_forall. intros [name ps] Hin id p Hp.
    apply elem_of_map_to_list in Hin. apply (Hall name id).
    unfold GetPartition. rewrite Hin. exact Hp.
Qed.

End FinishedRecovery.

Lemma X14_finished_recovery_starts_partitions_witness :
  exists s',
    finishedRecovery (ops := specOps)
      (server0 quietRaft true
         (setPartition "orders" 0 (newPartition orders0 true) ∅))
    = Ok (countRecovered (ops := specOps)
            (setPartition "orders" 0 (newPartition orders0 true) ∅), s')
    /\ metadata s'
       = (fun ps : partitions => afterStart (ops := specOps) <$> ps)
           <$> setPartition "orders" 0 (newPartition orders0 true) ∅
    /\ logDiscarded s' = false
    /\ trace s' = [].
Proof.
  apply (X14_finished_recovery_starts_partitions (ops := specOps)
           (server0 quietRaft true
              (setPartition "orders" 0 (newPartition orders0 true) ∅))).
  intros name id p _. unfold StartRecovered, specOps, specStartRecovered.
  destruct (recovered p); eauto.
Defined.

Section FailedStart.
Context `{ops : PartitionOps} `{codec : Codec}.

Lemma startPartitions_fold_err (l : list (Z * partition)) :
  forall acc : result error (partitions * bool),
  (exists e, acc = Err e)
  \/ Exists (fun ip => exists e, StartRecovered ip.2 = Err e) l ->
  exists e,
    foldl (fun (acc : result error (partitions * bool)) (kv : Z * partition) =>
             '(m, any) ← acc;
             '(p', r) ← StartRecovered kv.2;
             Ok (<[kv.1 := p']> m, any || r))
          acc l = Err e.
Proof.
  induction l as [|[k p] l IH]; intros acc Hcase; simpl.
  - destruct Hcase as [[e ->]|Hex]; [by eexists|]. by apply Exists_nil in Hex.
  - apply IH.
    destruct Hcase as [[e ->]|Hex]; [left; by eexists|].
    apply Exists_cons in Hex as [[e He]|Hex]; [|by right].
    left. simpl in He. destruct acc as [[m any]|e0]; simpl; [|by eexists].
    rewrite He. simpl. by eexists.
Qed.

Lemma startPartitions_err (ps : partitions) (id : Z) (p : partition) (e : error) :
  ps !! id = Some p -> StartRecovered p = Err e ->
  exists e', startPartitions ps = Err e'.
Proof.
  intros Hp He. unfold startPartitions. apply startPartitions_fold_err.
  right. apply Exists_exists. exists (id, p). split; [|by eexists].
  by apply elem_of_map_to_list.
Qed.

Lemma finishedRecovery_fold_err (l : list (string * partitions)) :
  forall acc : result error (store * nat),
  (exists e, acc = Err e) \/ Exists (fun kv => exists e, startPartitions kv.2 = Err e) l ->
  exists e,
    foldl (fun (acc : result error (store * nat)) (kv : string * partitions) =>
             '(m, count) ← acc;
             '(ps', any) ← startPartitions kv.2;
             Ok (<[kv.1 := ps']> m, if (any : bool) then S count else count))
          acc l = Err e.
Proof.
  induction l as [|[name ps] l IH]; intros acc Hcase; simpl.
  - destruct Hcase as [[e ->]|Hex]; [by eexists|]. by apply Exists_nil in Hex.
  - apply IH.
    destruct Hcase as [[e ->]|Hex]; [left; by eexists|].
    apply Exists_cons in Hex as [[e He]|Hex]; [|by right].
    left. simpl in He. destruct acc as [[m c]|e0]; simpl; [|by eexists].
    rewrite He. simpl. by eexists.
Qed.

(** X15.  A partition that [StartRecovered] cannot start makes
    [finishedRecovery] fail, and the deferred call of [Apply] then panics,
    whatever the body of [Apply] was about to return. *)
Theorem X15_failed_start_is_fatal (r : outcome * Server) (name : string)
    (id : Z) (p : partition) (e : error) :
  GetPartition name id (metadata r.2) = Some p ->
  StartRecovered p = Err e ->
  exists e',
    finishedRecovery (emit r.2 FinishedRecovery) = Err e'
    /\ (deferredFinish true r).1
       = Panics (Wrap e' "failed to recover from Raft log").
Proof.
  intros Hg He. unfold GetPartition in Hg.
  destruct (metadata r.2 !! name) as [ps|] eqn:Hps; [|discriminate].
  simpl in Hg. destruct (startPartitions_err ps id p e Hg He) as [e1 He1].
  assert (Hf : exists e', finishedRecovery (emit r.2 FinishedRecovery) = Err e').
  { unfold finishedRecovery.
    set (s1 := if LogRecovery _ then _ else _).
    assert (Hm : metadata s1 = metadata r.2) by (subst s1; by destruct (LogRecovery _)).
    rewrite Hm.
    destruct (finishedRecovery_fold_err (map_to_list (metadata r.2))
                (Ok (metadata r.2, O))) as [e' He'].
    { right. apply Exists_exists. exists (name, ps).
      split; [by apply elem_of_map_to_list|]. by eexists. }
    rewrite He'. by eexists. }
  destruct Hf as [e' Hf]. exists e'. split; [done|].
  unfold deferredFinish. by rewrite Hf.
Qed.

End FailedStart.

Lemma X15_failed_start_is_fatal_witness :
  exists e',
    finishedRecovery (ops := failingOps)
      (emit (server0 quietRaft true
               (setPartition "orders" 0 (newPartition orders0 true) ∅))
         FinishedRecovery) = Err e'
    /\ (deferredFinish (ops := failingOps) true
          (Returns None,
           server0 quietRaft true
             (setPartition "orders" 0 (newPartition orders0 true) ∅))).1
       = Panics (Wrap e' "failed to recover from Raft log").
Proof.
  apply (X15_failed_start_is_fatal (ops := failingOps)
           (Returns None,
            server0 quietRaft true
              (setPartition "orders" 0 (newPartition orders0 true) ∅))
           "orders" 0 (newPartition orders0 true)
           (Failure "failed to start partition"));
    [vm_compute; reflexivity | reflexivity].
Defined.

Section Frame.
Context `{ops : PartitionOps} `{codec : Codec}.

(** X16.  A CreatePartition, ISR or leader entry touches one partition only:
    every partition other than the one the entry names is, after [apply],
    what it was before. *)
Theorem X16_apply_touches_one_partition (log : RaftLog) (index : N) (rec : bool)
    (m m' : store) (v : option error) (k : string * Z) (name : string) (id : Z) :
  apply log index rec m = Ok (v, m') ->
  (target log = Some k \/ exists p, log = CreatePartitionOp p /\ k = key p) ->
  (name, id) ≠ k ->
  GetPartition name id m' = GetPartition name id m.
Proof.
  intros Ha [Ht|(p & -> & ->)] Hne.
  - destruct k as [n i].
    pose proof (apply_epoch_op log index rec m n i Ht) as H.
    destruct (GetPartition n i m) as [q|] eqn:Hq; [|congruence].
    destruct (index <=? GetEpoch q)%N.
    { rewrite H in Ha. by injection Ha as <- <-. }
    destruct (method log index q) as [[q'|err]|]; [| |contradiction].
    2: { destruct H as [msg H]. congruence. }
    rewrite H in Ha. injection Ha as <- <-.
    apply GetPartition_setPartition_ne. congruence.
  - simpl in Ha. unfold applyCreatePartition, AddPartition in Ha.
    destruct (GetPartition _ _ m) as [q|].
    + rewrite decide_True in Ha by done. rewrite decide_True in Ha by done.
      by injection Ha as <- <-.
    + injection Ha as <- <-. apply GetPartition_setPartition_ne.
      unfold key in Hne. simpl. congruence.
Qed.

End Frame.

Lemma X16_apply_touches_one_partition_witness :
  GetPartition "payments" 0
    (setPartition "orders" 0
       (SetEpoch 5 (withIsr (newPartition orders0 false) ["n1"])) store0)
  = GetPartition "payments" 0 store0.
Proof.
  apply (X16_apply_touches_one_partition (ops := specOps) shrinkN2 5 false store0
           _ None ("orders", 0%Z) "payments" 0).
  - vm_compute. reflexivity.
  - left. reflexivity.
  - discriminate.
Defined.

End FSMTheory.

(** * Properties of the segment *)

Module SegmentTheory.
Import Segment.

Lemma sys_chans (w : world) : chans (sys w).2 = chans w.
Proof. unfold sys. destruct (script w); reflexivity. Qed.

(** *** notifyWaiters *)

Lemma delete_all_lookup (l : list (waiter * chan)) :
  forall (m : gmap waiter chan) (k : waiter),
  foldl (fun m rc => delete rc.1 m) m l !! k
  = if decide (k ∈ l.*1) then None else m !! k.
Proof.
  induction l as [|rc l IH]; intros m k; [done|].
  change (foldl (fun m rc => delete rc.1 m) (delete rc.1 m) l !! k
          = if decide (k ∈ rc.1 :: l.*1) then None else m !! k).
  rewrite IH.
  destruct (decide (k ∈ l.*1)) as [Hin|Hnin].
  - rewrite decide_True; [done | by right].
  - destruct (decide (k = rc.1)) as [->|Hne].
    + rewrite decide_True by left. apply lookup_delete_eq.
    + rewrite decide_False by (rewrite elem_of_cons; tauto).
      by apply lookup_delete_ne.
Qed.

Lemma delete_all_empty (m : gmap waiter chan) :
  foldl (fun m rc => delete rc.1 m) m (map_to_list m) = ∅.
Proof.
  apply map_eq. intros k. rewrite delete_all_lookup, lookup_empty.
  destruct (decide (k ∈ (map_to_list m).*1)) as [|Hnin]; [done|].
  destruct (m !! k) as [ch|] eqn:Hk; [|done].
  exfalso. apply Hnin. apply list_elem_of_fmap. exists (k, ch).
  split; [done | by apply elem_of_map_to_list].
Qed.

Lemma notify_fold (l : list (waiter * chan)) :
  forall (s : segment) (w : world),
  NoDup l.*2 ->
  (forall rc, rc ∈ l -> isOpen rc.2 w) ->
  exists w',
    foldl (fun (acc : result panic (segment * world)) (rc : waiter * chan) =>
             '(s, w) ← acc;
             w ← closeChan rc.2 w;
             Ok (set_waiters (delete rc.1 (waiters s)) s, w))
          (Ok (s, w)) l
    = Ok (set_waiters (foldl (fun m rc => delete rc.1 m) (waiters s) l) s, w')
    /\ script w' = script w
    /\ forall ch, chans w' !! ch
                  = if decide (ch ∈ l.*2) then Some true else chans w !! ch.
Proof.
  induction l as [|rc l IH]; intros s w Hnd Hopen.
  - exists w. split; [by destruct s|]. by split.
  - pose proof (Hopen rc ltac:(left)) as Ho. unfold isOpen in Ho.
    cbn [foldl]. cbn [mbind result_bind]. unfold closeChan at 2.
    rewrite Ho. cbn [mbind result_bind].
    rewrite fmap_cons in Hnd. apply NoDup_cons in Hnd as [Hrc Hnd].
    edestruct (IH (set_waiters (delete rc.1 (waiters s)) s)
                 {| chans := <[rc.2 := true]> (chans w); script := script w |}
                 Hnd) as (w' & Hfold & Hscript & Hch).
    { intros rc' Hrc'. unfold isOpen. simpl.
      rewrite list_lookup_insert_ne; [by apply Hopen; right|].
      intros Heq. apply Hrc. rewrite Heq. by apply list_elem_of_fmap_2. }
    exists w'. split; [exact Hfold|]. split; [exact Hscript|].
    intros ch. rewrite Hch, fmap_cons. cbn [chans].
    destruct (decide (ch ∈ l.*2)) as [Hin|Hnin].
    + rewrite decide_True; [done | by right].
    + destruct (decide (ch = rc.2)) as [->|Hne].
      * rewrite decide_True by left. apply list_lookup_insert_eq.
        apply lookup_lt_Some with false. apply Hopen. by left.
      * rewrite decide_False by (rewrite elem_of_cons; tauto).
        by apply list_lookup_insert_ne.
Qed.

Lemma notifyWaiters_spec (s : segment) (w : world) :
  waitersOpen s w ->
  exists w',
    notifyWaiters s w = Ok (set_waiters ∅ s, w')
    /\ script w' = script w
    /\ (forall r ch, waiters s !! r = Some ch -> isClosed ch w')
    /\ (forall ch, (forall r, waiters s !! r ≠ Some ch) ->
                   chans w' !! ch = chans w !! ch).
Proof.
  intros [Hopen Hinj].
  destruct (notify_fold (map_to_list (waiters s)) s w) as (w' & Hf & Hs & Hch).
  - apply NoDup_fmap_2_strong; [|apply NoDup_map_to_list].
    intros [r1 c1] [r2 c2] H1 H2 Heq. simpl in Heq. subst c2.
    apply elem_of_map_to_list in H1, H2. f_equal. by apply (Hinj r1 r2 c1).
  - intros [r ch] Hrc. apply elem_of_map_to_list in Hrc. by apply (Hopen r).
  - exists w'. unfold notifyWaiters. rewrite Hf, delete_all_empty.
    split; [done|]. split; [done|]. split.
    + intros r ch Hr. unfold isClosed. rewrite Hch.
      rewrite decide_True; [done|]. apply list_elem_of_fmap. exists (r, ch).
      split; [done | by apply elem_of_map_to_list].
    + intros ch Hno. rewrite Hch. rewrite decide_False; [done|].
      intros ([r c] & -> & Hrc)%list_elem_of_fmap.
      apply elem_of_map_to_list in Hrc. by apply (Hno r).
Qed.

(** *** Frames: what the system calls leave alone *)

Lemma sys_inv (w w1 : world) (a : option fault) :
  sys w = (a, w1) -> chans w1 = chans w.
Proof. intros H. pose proof (sys_chans w) as Hc. by rewrite H in Hc. Qed.

(** A system call consumes one answer of the script and leaves the channels
    alone: case analysis on the answer settles such goals. *)
Ltac by_answer w :=
  let Hs := fresh "Hs" in
  destruct (sys w) as [[?|] ?] eqn:Hs; apply sys_inv in Hs;
  repeat case_match; done.

Lemma file_Write_chans (p : list Z) (f : file) (w : world) :
  chans (file_Write p f w).2 = chans w.
Proof. unfold file_Write. by_answer w. Qed.

Lemma index_writeEntries_chans (es : list entry) (ix : index) (w : world) :
  chans (index_writeEntries es ix w).2 = chans w.
Proof. unfold index_writeEntries. by_answer w. Qed.

Lemma index_Shrink_chans (ix : index) (w : world) :
  chans (index_Shrink ix w).2 = chans w.
Proof. unfold index_Shrink. by_answer w. Qed.

Lemma index_Close_chans (ix : index) (w : world) :
  chans (index_Close ix w).2 = chans w.
Proof. unfold index_Close. by_answer w. Qed.

Lemma file_Close_chans (f : file) (w : world) :
  chans (file_Close f w).2 = chans w.
Proof. unfold file_Close. by_answer w. Qed.

Lemma file_ReadAt_chans (n : nat) (off : Z) (f : file) (w : world) :
  chans (file_ReadAt n off f w).2 = chans w.
Proof. unfold file_ReadAt. by_answer w. Qed.

Lemma close_frame (s : segment) (w : world) :
  waiters (close s w).1.2 = waiters s /\ chans (close s w).2 = chans w
  /\ replaced (close s w).1.2 = replaced s.
Proof.
  unfold close. destruct (closed s); [done|].
  pose proof (file_Close_chans (log s) w) as Hf.
  destruct (file_Close (log s) w) as [[[e|] f] w1]; simpl in *; [done|].
  pose proof (index_Close_chans (Index s) w1) as Hi.
  destruct (index_Close (Index s) w1) as [[[e|] ix] w2]; simpl in *;
    by rewrite Hi.
Qed.

(** *** The invariant of the waiters map *)

Lemma waitersOpen_frame (s s' : segment) (w w' : world) :
  waiters s' = waiters s -> chans w' = chans w ->
  waitersOpen s w -> waitersOpen s' w'.
Proof.
  intros Hw Hc [Hopen Hinj]. unfold waitersOpen, isOpen. rewrite Hw, Hc.
  by split.
Qed.

Lemma waitersOpen_empty (s : segment) (w : world) :
  waiters s = ∅ -> waitersOpen s w.
Proof.
  intros He. split.
  - intros r ch. by rewrite He, lookup_empty.
  - intros r1 r2 ch. by rewrite He, lookup_empty.
Qed.

Lemma newSegment_waitersOpen (path suffix : string) (baseOffset maxBytes : Z)
    (isNew : bool) (onDisk : option (list Z * list entry)) (w w' : world)
    (s : segment) (err : option error) :
  newSegment path baseOffset maxBytes isNew suffix onDisk w = (Ok (err, s), w') ->
  waitersOpen s w'.
Proof.
  unfold newSegment. destruct (isNew && _); [discriminate|].
  destruct (sys w) as [[f|] w1]; [discriminate|].
  destruct (sys w1) as [[f|] w2]; [discriminate|].
  match goal with |- context [setupIndex ?es ?s0 w2] =>
    assert (Hw : waiters (setupIndex es s0 w2).1.2 = ∅);
    [|destruct (setupIndex es s0 w2) as [[e s1] w3]] end.
  { unfold setupIndex. destruct (newIndex _ w2) as [[ix|e] w3]; [|done].
    destruct (index_InitializePosition ix w3) as [[[lastEntry|]|e] w4];
      [|done|done].
    by destruct (index_ReadEntryAtFileOffset ix 0 w4) as [[firstEntry|e] w5]. }
  intros [= <- <- <-]. by apply waitersOpen_empty.
Qed.

Lemma waitersOpen_remove (r : waiter) (s : segment) (w : world) :
  waitersOpen s w -> waitersOpen (removeWaiter r s) w.
Proof.
  intros [Hopen Hinj]. split; simpl.
  - intros r' ch [_ H]%lookup_delete_Some. by apply (Hopen r').
  - intros r1 r2 ch [_ H1]%lookup_delete_Some [_ H2]%lookup_delete_Some.
    by apply (Hinj r1 r2 ch).
Qed.

(** *** waitForData *)

Lemma close_fresh (c : list bool) (sc : list (option fault)) :
  closeChan (length c) {| chans := c ++ [false]; script := sc |}
  = Ok {| chans := c ++ [true]; script := sc |}.
Proof.
  unfold closeChan. simpl.
  rewrite lookup_app_r, Nat.sub_diag by lia. simpl.
  rewrite insert_app_r_alt, Nat.sub_diag by lia. reflexivity.
Qed.

Lemma waitForData_spec (r : waiter) (pos : Z) (s : segment) (w : world) :
  waitForData r pos s w
  = match waiters s !! r with
    | Some ch => Ok (ch, s, w)
    | None =>
        if ((pos <? position s) || (maxBytes s <=? position s))%Z
        then Ok (length (chans w), s,
                 {| chans := chans w ++ [true]; script := script w |})
        else Ok (length (chans w),
                 set_waiters (<[r := length (chans w)]> (waiters s)) s,
                 {| chans := chans w ++ [false]; script := script w |})
    end.
Proof.
  unfold waitForData. destruct (waiters s !! r); [done|].
  unfold makeChan.
  destruct ((pos <? position s) || (maxBytes s <=? position s))%Z; [|done].
  by rewrite close_fresh.
Qed.

Lemma waitForData_inv (r : waiter) (pos : Z) (s : segment) (w : world) :
  waitersOpen s w ->
  exists ch s' w', waitForData r pos s w = Ok (ch, s', w') /\ waitersOpen s' w'.
Proof.
  intros Hinv. rewrite waitForData_spec.
  destruct (waiters s !! r) as [ch|] eqn:Hr; [by eauto|].
  destruct Hinv as [Hopen Hinj].
  assert (Hold : forall r' ch b, waiters s !! r' = Some ch ->
            (chans w ++ [b]) !! ch = Some false /\ ch ≠ length (chans w)).
  { intros r' ch b Hr'. pose proof (Hopen _ _ Hr') as Ho. unfold isOpen in Ho.
    pose proof (lookup_lt_Some _ _ _ Ho).
    split; [by rewrite lookup_app_l | lia]. }
  destruct ((pos <? position s) || (maxBytes s <=? position s))%Z.
  - do 3 eexists. split; [reflexivity|]. split; [|done].
    intros r' ch Hr'. by apply (Hold r' ch true).
  - do 3 eexists. split; [reflexivity|]. split; simpl.
    + intros r' ch. destruct (decide (r = r')) as [<-|Hne].
      * rewrite lookup_insert_eq. intros [= <-]. unfold isOpen. simpl.
        by rewrite lookup_app_r, Nat.sub_diag by lia.
      * rewrite lookup_insert_ne by done. intros Hr'.
        by apply (Hold r' ch false).
    + intros r1 r2 ch.
      destruct (decide (r = r1)) as [<-|H1], (decide (r = r2)) as [<-|H2];
        rewrite ?lookup_insert_eq, ?lookup_insert_ne by done.
      * done.
      * intros [= <-] H. by destruct (Hold r2 _ false H).
      * intros H [= <-]. by destruct (Hold r1 _ false H).
      * apply Hinj.
Qed.

Lemma WaitForLEO_inv (r : waiter) (leo : Z) (s : segment) (w : world) :
  waitersOpen s w ->
  exists ch s' w', WaitForLEO r leo s w = Ok (ch, s', w') /\ waitersOpen s' w'.
Proof.
  intros Hinv. unfold WaitForLEO.
  destruct (negb (lastOffset s =? leo)%Z); [|by apply waitForData_inv].
  unfold makeChan. rewrite close_fresh. simpl.
  do 3 eexists. split; [reflexivity|].
  destruct Hinv as [Hopen Hinj]. split; [|done].
  intros r' ch Hr'. pose proof (Hopen _ _ Hr') as Ho. unfold isOpen in *.
  simpl. rewrite lookup_app_l; [done|]. by apply lookup_lt_Some with false.
Qed.

(** *** Every operation keeps the invariant *)

Lemma Seal_inv (s : segment) (w : world) :
  waitersOpen s w ->
  exists s' w', Seal s w = Ok (s', w') /\ waitersOpen s' w'.
Proof.
  intros Hinv. unfold Seal. destruct (sealed s); [by eauto|].
  destruct (notifyWaiters_spec (set_sealed true s) w) as (w1 & -> & _).
  { by apply waitersOpen_frame with s w. }
  simpl. destruct (index_Shrink _ w1) as [[e ix] w2].
  do 2 eexists. split; [reflexivity|]. by apply waitersOpen_empty.
Qed.

Lemma at_index_head {A} (l : list A) :
  at_index l 0 = match head l with Some a => Ok a | None => Err IndexOutOfRange end.
Proof. unfold at_index. simpl. by destruct l. Qed.

Lemma at_index_last {A} (l : list A) :
  at_index l (Z.of_nat (length l) - 1)
  = match last l with Some a => Ok a | None => Err IndexOutOfRange end.
Proof.
  unfold at_index. rewrite last_lookup.
  destruct l as [|a l]; [done|].
  replace (Z.of_nat (length (a :: l)) - 1 <? 0)%Z with false
    by (symmetry; apply Z.ltb_ge; simpl; lia).
  replace (Z.to_nat (Z.of_nat (length (a :: l)) - 1)) with (pred (length (a :: l)))
    by (simpl; lia).
  done.
Qed.

(** [write] spelled out: the two index expressions are the head and the last
    element of [entries]. *)
Lemma write_spec (p : list Z) (es : list entry) (s : segment) (w : world) :
  write p es s w
  = if closed s then Ok ((O, Some ErrSegmentClosed), s, w)
    else
      match file_Write p (log s) w with
      | ((n, Some e), f, w1) =>
          Ok ((n, Some (Wrap e "log write failed")), set_log f s, w1)
      | ((n, None), f, w1) =>
          match head es, last es with
          | Some first, Some lst =>
              let s0 := set_position (wrap64 (position s + Z.of_nat n))
                          (set_log f s) in
              let s1 := if (firstWriteTime s =? 0)%Z
                        then set_firstWriteTime (Timestamp first)
                               (set_firstOffset (Offset first) s0)
                        else s0 in
              '(s2, w2) ← notifyWaiters
                            (set_lastWriteTime (Timestamp lst)
                               (set_lastOffset (Offset lst) s1)) w1;
              Ok ((n, None), s2, w2)
          | _, _ => Err IndexOutOfRange
          end
      end.
Proof.
  unfold write. destruct (closed s); [done|].
  destruct (file_Write p (log s) w) as [[[n [e|]] f] w1]; [done|].
  cbv zeta. rewrite at_index_head, at_index_last.
  cbn [firstWriteTime set_position set_log].
  destruct es as [|first rest]; [by destruct (firstWriteTime s =? 0)%Z|].
  cbn [head]. destruct (last (first :: rest)) as [lst|] eqn:Hl.
  - by destruct (firstWriteTime s =? 0)%Z.
  - by rewrite last_cons in Hl; destruct (last rest).
Qed.

Lemma WriteMessageSet_inv (ms : list Z) (es : list entry) (s : segment)
    (w : world) :
  waitersOpen s w ->
  match WriteMessageSet ms es s w with
  | Ok (_, s', w') => waitersOpen s' w'
  | Err p => p = IndexOutOfRange
  end.
Proof.
  intros Hinv. unfold WriteMessageSet. rewrite write_spec.
  destruct (closed s); [done|].
  pose proof (file_Write_chans ms (log s) w) as Hc.
  destruct (file_Write ms (log s) w) as [[[n [e|]] f] w1]; simpl in Hc.
  { simpl. by apply waitersOpen_frame with s w. }
  destruct (head es) as [first|]; [|done].
  destruct (last es) as [lst|]; [|done].
  cbv zeta.
  match goal with |- context [notifyWaiters ?s2 w1] =>
    destruct (notifyWaiters_spec s2 w1) as (w2 & -> & _) end.
  { apply waitersOpen_frame with s w; [|done|done].
    by destruct (firstWriteTime s =? 0)%Z. }
  simpl. destruct (index_writeEntries es _ w2) as [[err ix] w3].
  by apply waitersOpen_empty.
Qed.

Lemma step_inv (o : op) (s : segment) (w : world) :
  waitersOpen s w ->
  match step o s w with
  | Ok (s', w') => waitersOpen s' w'
  | Err p => p = IndexOutOfRange
  end.
Proof.
  intros Hinv. destruct o as [ms es| |r leo|r pos|r|n off|]; simpl.
  - pose proof (WriteMessageSet_inv ms es s w Hinv) as H.
    destruct (WriteMessageSet ms es s w) as [[[e s'] w']|p]; done.
  - by destruct (Seal_inv s w Hinv) as (s' & w' & -> & H).
  - by destruct (WaitForLEO_inv r leo s w Hinv) as (ch & s' & w' & -> & H).
  - unfold WaitForData.
    by destruct (waitForData_inv r pos s w Hinv) as (ch & s' & w' & -> & H).
  - by apply waitersOpen_remove.
  - apply waitersOpen_frame with s w; [done| |done].
    unfold ReadAt. destruct (closed s); [by destruct (replaced s)|].
    apply file_ReadAt_chans.
  - unfold Close. destruct (close_frame s w) as (Hw & Hc & _).
    destruct (close s w) as [[e s'] w']. by apply waitersOpen_frame with s w.
Qed.

Lemma run_inv (ops : list op) :
  forall (s : segment) (w : world),
  waitersOpen s w ->
  match run ops s w with
  | Ok (s', w') => waitersOpen s' w'
  | Err p => p = IndexOutOfRange
  end.
Proof.
  induction ops as [|o ops IH]; intros s w Hinv; [done|].
  simpl. pose proof (step_inv o s w Hinv) as H.
  destruct (step o s w) as [[s' w']|p]; simpl; [by apply IH | done].
Qed.





(** *** What the operations on one segment do to [closed] and [replaced] *)

Lemma notify_fold_flags (l : list (waiter * chan)) :
  forall (r : result panic (segment * world)) (s' : segment) (w' : world),
  foldl (fun (acc : result panic (segment * world)) (rc : waiter * chan) =>
           '(s, w) ← acc;
           w ← closeChan rc.2 w;
           Ok (set_waiters (delete rc.1 (waiters s)) s, w))
        r l = Ok (s', w') ->
  exists s w, r = Ok (s, w)
    /\ closed s' = closed s /\ replaced s' = replaced s.
Proof.
  induction l as [|rc l IH]; intros r s' w' H.
  - exists s', w'. by split.
  - cbn [foldl] in H. apply IH in H as (s1 & w1 & Hr & Hc1 & Hr1).
    destruct r as [[s w]|p]; [|discriminate].
    cbn [mbind result_bind] in Hr.
    destruct (closeChan rc.2 w) as [w2|p]; [|discriminate].
    cbn [mbind result_bind] in Hr. injection Hr as <- <-.
    exists s, w. by split.
Qed.

Lemma notifyWaiters_flags (s s' : segment) (w w' : world) :
  notifyWaiters s w = Ok (s', w') ->
  closed s' = closed s /\ replaced s' = replaced s.
Proof.
  intros H. apply notify_fold_flags in H as (s0 & w0 & [= <- <-] & Hc & Hr).
  by split.
Qed.

Lemma step_flags (o : op) (s s' : segment) (w w' : world) :
  step o s w = Ok (s', w') ->
  replaced s' = replaced s /\ (closed s = true -> closed s' = true).
Proof.
  destruct o as [ms es| |r leo|r pos|r|n off|]; simpl.
  - unfold WriteMessageSet. rewrite write_spec.
    destruct (closed s) eqn:Hc; [intros [= <- <-]; by split|].
    destruct (file_Write ms (log s) w) as [[[n [e|]] f] w1];
      [intros [= <- <-]; by split|].
    destruct (head es) as [first|]; [|discriminate].
    destruct (last es) as [lst|]; [|discriminate].
    cbv zeta.
    match goal with |- context [notifyWaiters ?s2 w1] =>
      destruct (notifyWaiters s2 w1) as [[s3 w3]|p] eqn:Hn;
        [apply notifyWaiters_flags in Hn as [_ Hr]|discriminate] end.
    simpl. destruct (index_writeEntries es (Index s3) w3) as [[err ix] w4].
    intros [= <- <-]. simpl. split; [|done].
    rewrite Hr. by destruct (firstWriteTime s =? 0)%Z.
  - unfold Seal. destruct (sealed s); [intros [= <- <-]; by split|].
    destruct (notifyWaiters _ w) as [[s1 w1]|p] eqn:Hn; [|discriminate].
    apply notifyWaiters_flags in Hn as [Hc Hr]. simpl.
    destruct (index_Shrink (Index s1) w1) as [[e ix] w2].
    intros [= <- <-]. simpl. rewrite Hc, Hr. by split.
  - unfold WaitForLEO. destruct (negb _).
    + unfold makeChan. rewrite close_fresh. intros [= <- <-]. by split.
    + rewrite waitForData_spec. destruct (waiters s !! r);
        [|destruct (_ || _)]; intros [= <- <-]; by split.
  - unfold WaitForData. rewrite waitForData_spec. destruct (waiters s !! r);
      [|destruct (_ || _)]; intros [= <- <-]; by split.
  - intros [= <- <-]. by split.
  - intros [= <- <-]. by split.
  - unfold Close. pose proof (close_frame s w) as (_ & _ & Hr).
    destruct (close s w) as [[e s1] w1] eqn:Hcl. intros [= <- <-].
    split; [done|]. intros Hc. unfold close in Hcl. rewrite Hc in Hcl.
    by injection Hcl as <- <- <-.
Qed.

Lemma run_flags (ops : list op) :
  forall (s s' : segment) (w w' : world),
  run ops s w = Ok (s', w') ->
  replaced s' = replaced s /\ (closed s = true -> closed s' = true).
Proof.
  induction ops as [|o ops IH]; intros s s' w w'; simpl.
  - intros [= <- <-]. by split.
  - destruct (step o s w) as [[s1 w1]|p] eqn:Hs; [|discriminate]. simpl.
    intros H. apply step_flags in Hs as [Hr Hc].
    apply IH in H as [Hr' Hc']. split; [congruence | auto].
Qed.

Lemma close_ok (s s' : segment) (w w' : world) :
  close s w = (None, s', w') -> closed s' = true /\ replaced s' = replaced s.
Proof.
  unfold close. destruct (closed s) eqn:Hc; [by intros [= <- <-]|].
  destruct (file_Close (log s) w) as [[[e|] f] w1]; [discriminate|].
  destruct (index_Close _ w1) as [[[e|] ix] w2]; [discriminate|].
  by intros [= <- <-].
Qed.

Lemma Replace_old (s old s' old' : segment) (w w' : world) (err : option error) :
  Replace s old w = (err, (s', old'), w') ->
  (replaced old' = true /\ closed old' = true) \/
  (replaced old' = replaced old /\ err ≠ None).
Proof.
  unfold Replace.
  pose proof (close_frame old w) as (_ & _ & Hr).
  destruct (close old w) as [[[e|] old1] w1] eqn:Hc1; simpl in Hr.
  { intros [= <- <- <- <-]. by right. }
  apply close_ok in Hc1 as [Hcl _].
  destruct (close s w1) as [[[e|] s1] w2].
  { intros [= <- <- <- <-]. by right. }
  destruct (os_call w2) as [[e|] w3]; [intros [= <- <- <- <-]; by right|].
  destruct (os_call w3) as [[e|] w4]; [intros [= <- <- <- <-]; by right|].
  destruct (os_call w4) as [[e|] w5]; [intros [= <- <- <- <-]; by right|].
  destruct (setupIndex _ _ w5) as [[e s2] w6].
  intros [= <- <- <- <-]. by left.
Qed.

(** C7 (amended).  [ReadAt] on a closed segment fails with
    [ErrSegmentReplaced] if the segment's [replaced] flag is set and with
    [ErrSegmentClosed] otherwise; on an open segment it performs the read at
    the given position of the log file.  [Replace] marks the old segment as
    replaced only after closing it, and does so whenever it returns no
    error: a reader holding the old segment after a successful [Replace]
    receives [ErrSegmentReplaced], also after any further operations on the
    old segment.  A [Replace] that fails may leave the old segment as it
    found its [replaced] flag. *)
Theorem C7_read_at_replace :
  (forall (n : nat) (off : Z) (s : segment) (w : world),
     ReadAt n off s w
     = if closed s
       then (([], Some (if replaced s then ErrSegmentReplaced
                        else ErrSegmentClosed)), w)
       else file_ReadAt n off (log s) w)
  /\ (forall (s old s' old' : segment) (w w' : world),
      Replace s old w = (None, (s', old'), w') ->
      closed old' = true /\ replaced old' = true
      /\ forall ops old'' w1 w2, run ops old' w1 = Ok (old'', w2) ->
         forall n off w3,
           ReadAt n off old'' w3 = (([], Some ErrSegmentReplaced), w3))
  /\ (forall (s old s' old' : segment) (w w' : world) (err : option error),
      Replace s old w = (err, (s', old'), w') ->
      (replaced old' = true /\ closed old' = true)
      \/ (replaced old' = replaced old /\ err ≠ None)).
Proof.
  split; [|split].
  - intros n off s w. unfold ReadAt.
    destruct (closed s); [by destruct (replaced s) | done].
  - intros s old s' old' w w' H.
    destruct (Replace_old _ _ _ _ _ _ _ H) as [[Hr Hc]|[_ Hn]]; [|done].
    split; [done|]. split; [done|].
    intros ops old'' w1 w2 Hrun n off w3.
    apply run_flags in Hrun as [Hr' Hc'].
    unfold ReadAt. by rewrite (Hc' Hc), Hr', Hr.
  - apply Replace_old.
Qed.

(** The compacted sibling replaces the five-byte segment. *)
Lemma C7_read_at_replace_witness :
  exists s' old' w',
    Replace cleaned5 segment5 world0 = (None, (s', old'), w')
    /\ closed old' = true /\ replaced old' = true
    /\ ReadAt 1 0 old' w' = (([], Some ErrSegmentReplaced), w')
    /\ closed s' = false /\ suffix s' = EmptyString.
Proof.
  assert (H : Replace cleaned5 segment5 world0
              = (None, (set_suffix EmptyString cleaned5,
                        set_replaced true (set_closed true
                          (set_Index {| ientries := [entry0]; iclosed := true;
                                        ishrunk := false |}
                             (set_log {| fdata := fdata (log segment5);
                                         fopen := false |} segment5)))),
                 world0)) by (vm_compute; reflexivity).
  destruct (proj1 (proj2 C7_read_at_replace) _ _ _ _ _ _ H) as (Hc & Hr & Hread).
  do 3 eexists. split; [exact H|]. split; [exact Hc|]. split; [exact Hr|].
  split; [exact (Hread [] _ world0 world0 eq_refl 1%nat 0%Z world0)|].
  split; reflexivity.
Defined.

(** C7 as stated fails: [Replace] does not always mark the old segment.
    When the first rename fails the old segment is left closed but not
    replaced, and a reader holding it receives [ErrSegmentClosed]. *)
Lemma C7_counterexample :
  exists s' old' w',
    Replace cleaned5 segment5 renameFails
    = (Some (IOError "rename"), (s', old'), w')
    /\ closed old' = true /\ replaced old' = false
    /\ ReadAt 1 0 old' w' = (([], Some ErrSegmentClosed), w').
Proof.
  do 3 eexists. split; [vm_compute; reflexivity|].
  split; [reflexivity|]. split; reflexivity.
Qed.

(** C8 (amended).  [WaitForData] and [WaitForLEO] hand a waiter that is
    already registered its existing channel, which is open, whatever the
    position; for a waiter that is not registered, [WaitForData] returns a
    new channel that is already closed if data past the target position
    exists ([position > pos]) or the segment is full
    ([position >= maxBytes]), and otherwise registers the waiter with the new,
    open channel.  [WaitForLEO] returns a new, already closed channel, without
    touching the waiters map, if the segment's last offset differs from
    [leo]; otherwise it is [WaitForData] at the segment's current position.
    Each operation is one critical section of the segment's write lock. *)
Theorem C8_wait_for_data (r : waiter) (s : segment) (w : world) :
  (forall pos : Z,
     match waiters s !! r with
     | Some ch => WaitForData r pos s w = Ok (ch, s, w)
     | None =>
         let ch := length (chans w) in
         chans w !! ch = None
         /\ if ((pos <? position s) || (maxBytes s <=? position s))%Z
            then exists w', WaitForData r pos s w = Ok (ch, s, w')
                   /\ isClosed ch w'
            else exists w',
                   WaitForData r pos s w
                   = Ok (ch, set_waiters (<[r := ch]> (waiters s)) s, w')
                   /\ isOpen ch w'
     end)
  /\ (forall leo : Z,
      if (lastOffset s =? leo)%Z
      then WaitForLEO r leo s w = WaitForData r (position s) s w
      else exists w', WaitForLEO r leo s w = Ok (length (chans w), s, w')
             /\ isClosed (length (chans w)) w')
  /\ (forall ch, waitersOpen s w -> waiters s !! r = Some ch -> isOpen ch w).
Proof.
  assert (Hnew : forall b sc,
    {| chans := chans w ++ [b]; script := sc |}.(chans) !! length (chans w)
    = Some b).
  { intros b sc. simpl. by rewrite lookup_app_r, Nat.sub_diag by lia. }
  split; [|split].
  - intros pos. unfold WaitForData. rewrite waitForData_spec.
    destruct (waiters s !! r) as [ch|]; [done|].
    cbv zeta. split; [by apply lookup_ge_None|].
    destruct ((pos <? position s) || (maxBytes s <=? position s))%Z;
      eexists; (split; [reflexivity|]); apply Hnew.
  - intros leo. unfold WaitForLEO.
    destruct (lastOffset s =? leo)%Z; simpl; [done|].
    unfold makeChan. rewrite close_fresh. simpl.
    eexists. split; [reflexivity|]. apply Hnew.
  - intros ch [Hopen _] Hr. by apply (Hopen r).
Qed.

(** C8 as stated fails: waiter 7, registered on the five-byte segment at
    position 5, asks again with the target position 3; data past 3 exists,
    yet the channel returned is its existing one, which is open. *)
Lemma C8_counterexample :
  newSegment "/data" 0 100 false EmptyString
    (Some ([1; 2; 3; 4; 5]%Z, [entry0])) world0 = (Ok (None, segment5), world0)
  /\ run [OpWaitForData 7 5] segment5 world0 = Ok (registered5, world1)
  /\ (3 < position registered5)%Z
  /\ WaitForData 7 3 registered5 world1 = Ok (0%nat, registered5, world1)
  /\ isOpen 0 world1 /\ ~ isClosed 0 world1.
Proof.
  split; [vm_compute; reflexivity|]. split; [vm_compute; reflexivity|].
  split; [reflexivity|]. split; [vm_compute; reflexivity|].
  split; [reflexivity|]. unfold isClosed. simpl. discriminate.
Qed.

(** C9.  In a segment whose registered waiters hold open, pairwise distinct
    channels (every new segment is one, and every operation keeps it so),
    [notifyWaiters] closes the channel of each registered waiter, which was
    open, leaves every other channel as it was, and empties the waiters map;
    no sequence of writes, seals, registrations, removals, reads and closes
    ever closes a channel twice, and after every such sequence the channels
    in the map are open, so a closed channel is not in the map; and a waiter
    that registers again while registered receives its existing channel,
    nothing else changing. *)
Theorem C9_waiters_closed_once (s : segment) (w : world) :
  waitersOpen s w ->
  (exists w',
     notifyWaiters s w = Ok (set_waiters ∅ s, w')
     /\ (forall r ch, waiters s !! r = Some ch -> isOpen ch w /\ isClosed ch w')
     /\ (forall ch, (forall r, waiters s !! r ≠ Some ch) ->
                    chans w' !! ch = chans w !! ch))
  /\ (forall ops : list op,
      run ops s w ≠ Err CloseOfClosedChannel
      /\ forall s' w', run ops s w = Ok (s', w') ->
           waitersOpen s' w'
           /\ forall r ch, waiters s' !! r = Some ch -> ~ isClosed ch w')
  /\ (forall r ch pos leo,
      waiters s !! r = Some ch ->
      WaitForData r pos s w = Ok (ch, s, w)
      /\ (lastOffset s = leo -> WaitForLEO r leo s w = Ok (ch, s, w))).
Proof.
  intros Hinv. split; [|split].
  - destruct (notifyWaiters_spec s w Hinv) as (w' & Hn & _ & Hcl & Hoth).
    exists w'. split; [done|]. split; [|done].
    intros r ch Hr. split; [by apply (proj1 Hinv r) | by apply (Hcl r)].
  - intros ops. pose proof (run_inv ops s w Hinv) as H.
    destruct (run ops s w) as [[s1 w1]|p]; [|by subst p].
    split; [done|]. intros s' w' [= <- <-]. split; [done|].
    intros r ch Hr Hc. pose proof (proj1 H r ch Hr) as Ho.
    unfold isOpen, isClosed in *. congruence.
  - intros r ch pos leo Hr.
    assert (Hd : forall p, waitForData r p s w = Ok (ch, s, w))
      by (intros p; by rewrite waitForData_spec, Hr).
    split; [apply Hd|].
    intros <-. unfold WaitForLEO. rewrite Z.eqb_refl. apply Hd.
Qed.

(** Waiter 7 is registered on the five-byte segment: a write closes its
    channel once and drops it, and registering it twice gives one channel. *)
Lemma C9_waiters_closed_once_witness :
  waitersOpen registered5 world1
  /\ (exists w', notifyWaiters registered5 world1
                 = Ok (set_waiters ∅ registered5, w')
       /\ isClosed 0 w')
  /\ run [OpWaitForData 7 5; OpWrite [9]%Z [entry1]; OpSeal; OpRemoveWaiter 7]
       registered5 world1 ≠ Err CloseOfClosedChannel
  /\ WaitForData 7 5 registered5 world1 = Ok (0%nat, registered5, world1).
Proof.
  assert (Hinv : waitersOpen registered5 world1).
  { change (waiters registered5) with ({[7%nat := 0%nat]} : gmap waiter chan).
    split; change (waiters registered5) with ({[7%nat := 0%nat]} : gmap waiter chan).
    - intros r ch [<- <-]%lookup_singleton_Some. reflexivity.
    - intros r1 r2 ch [<- _]%lookup_singleton_Some [<- _]%lookup_singleton_Some.
      reflexivity. }
  destruct (C9_waiters_closed_once registered5 world1 Hinv)
    as ((w' & Hn & Hcl & _) & Hrun & Hagain).
  split; [exact Hinv|]. split.
  { exists w'. split; [exact Hn|].
    apply (Hcl 7%nat 0%nat).
    exact (lookup_singleton_eq (M := gmap waiter) 7%nat 0%nat). }
  split; [exact (proj1 (Hrun _))|].
  exact (proj1 (Hagain 7%nat 0%nat 5%Z 0%Z
                  (lookup_singleton_eq (M := gmap waiter) 7%nat 0%nat))).
Defined.

(** C10.  [Close] on a closed segment returns no error and changes neither
    the segment nor anything outside it; after a [Close] that returns no
    error the segment is closed, and closing it again is such a no-op. *)
Theorem C10_close_idempotent (s : segment) (w : world) :
  (closed s = true -> Close s w = (None, s, w))
  /\ (forall s' w', Close s w = (None, s', w') ->
      closed s' = true /\ forall w'', Close s' w'' = (None, s', w'')).
Proof.
  assert (Hid : forall s0 w0, closed s0 = true -> Close s0 w0 = (None, s0, w0)).
  { intros s0 w0 Hc. unfold Close, close. by rewrite Hc. }
  split; [apply Hid|].
  intros s' w' H. apply close_ok in H as [Hc _]. split; [done|].
  intros w''. by apply Hid.
Qed.

(** Closing the five-byte segment, then closing it again. *)
Lemma C10_close_idempotent_witness :
  exists s',
    Close segment5 world0 = (None, s', world0)
    /\ closed s' = true /\ Close s' world0 = (None, s', world0).
Proof.
  assert (H : Close segment5 world0
              = (None, set_closed true
                   (set_Index {| ientries := [entry0]; iclosed := true;
                                 ishrunk := false |}
                      (set_log {| fdata := fdata (log segment5);
                                  fopen := false |} segment5)), world0))
    by (vm_compute; reflexivity).
  destruct (proj2 (C10_close_idempotent segment5 world0) _ _ H) as [Hc Hagain].
  eexists. split; [exact H|]. split; [exact Hc | apply Hagain].
Defined.

(** ** Further properties of the segment *)

Section Search.

(** The loop of [sort.Search] over a predicate that answers [P] and keeps an
    invariant of the state: the index returned is a boundary of [P]. *)
Lemma searchLoop_boundary {St : Type} (n : nat) (P : nat -> bool)
    (Inv : St -> Prop) (f : nat -> St -> result error (bool * St)) :
  (forall h st, (h < n)%nat -> Inv st ->
     exists st', f h st = Ok (P h, st') /\ Inv st') ->
  forall (turns i j : nat) (st : St),
  (i <= j <= n)%nat -> (j - i <= turns)%nat -> Inv st ->
  (i = O \/ P (i - 1)%nat = false) -> (j = n \/ P j = true) ->
  exists r st',
    searchLoop turns f i j st = Ok (r, st') /\ Inv st'
    /\ (i <= r <= j)%nat
    /\ (r = O \/ P (r - 1)%nat = false) /\ (r = n \/ P r = true).
Proof.
  intros Hf. induction turns as [|turns IH]; intros i j st Hij Hfuel Hinv Hlo Hhi.
  - simpl. assert (i = j) as -> by lia. exists j, st. repeat split; auto; lia.
  - cbn [searchLoop]. destruct (Nat.ltb_spec i j) as [Hlt|Hge].
    2: { assert (i = j) as -> by lia. exists j, st. repeat split; auto; lia. }
    pose proof (Nat.div_mod_eq (i + j) 2) as Hdm.
    pose proof (Nat.mod_upper_bound (i + j) 2 ltac:(lia)) as Hmod.
    set (h := ((i + j) / 2)%nat) in *.
    assert (Hh : (i <= h < j)%nat) by lia.
    destruct (Hf h st ltac:(lia) Hinv) as (st' & -> & Hinv').
    cbn [mbind result_bind].
    destruct (P h) eqn:HP.
    + destruct (IH i h st' ltac:(lia) ltac:(lia) Hinv' Hlo (or_intror HP))
        as (r & st2 & Hr & Hi2 & Hrange & Hrl & Hrh).
      exists r, st2. repeat split; auto; lia.
    + assert (Hlo' : (h + 1 = 0 \/ P (h + 1 - 1) = false)%nat).
      { right. by replace (h + 1 - 1)%nat with h by lia. }
      destruct (IH (h + 1)%nat j st' ltac:(lia) ltac:(lia) Hinv' Hlo' Hhi)
        as (r & st2 & Hr & Hi2 & Hrange & Hrl & Hrh).
      exists r, st2. repeat split; auto; lia.
Qed.

Lemma read_quiet (ix : index) (i : nat) (w : world) :
  script w = [] ->
  index_ReadEntryAtFileOffset ix i w
  = (match ientries ix !! i with Some e => Ok e | None => Err EOF end, w).
Proof. intros Hw. unfold index_ReadEntryAtFileOffset, sys. by rewrite Hw. Qed.

(** The search of [findEntry] and [findEntryByTimestamp] on an index sorted
    by the field compared, in a world whose system calls succeed: it stops
    at the first entry whose field reaches the target. *)
Lemma search_first (field : entry -> Z) (target : Z) (ix : index) (w : world)
    (e0 : entry) :
  script w = [] ->
  (forall a b ea eb, (a <= b)%nat -> ientries ix !! a = Some ea ->
     ientries ix !! b = Some eb -> field ea <= field eb) ->
  exists r e,
    sort_Search (index_count ix) (probe field target ix) (e0, w) = Ok (r, (e, w))
    /\ (r <= index_count ix)%nat
    /\ (forall k ek, (k < r)%nat -> ientries ix !! k = Some ek ->
          field ek < target)
    /\ (forall k ek, (r <= k)%nat -> ientries ix !! k = Some ek ->
          target <= field ek).
Proof.
  intros Hw Hsorted. unfold sort_Search, index_count.
  set (n := length (ientries ix)).
  set (P := fun h => match ientries ix !! h with
                     | Some e => target <=? field e
                     | None => false
                     end).
  destruct (searchLoop_boundary n P (fun st : entry * world => st.2 = w)
              (probe field target ix)) with (turns := n) (i := O) (j := n)
              (st := (e0, w))
    as (r & [e w'] & Hr & Hinv & Hrange & Hlo & Hhi); auto; try lia.
  { intros h [e1 w1] Hh Hinv. simpl in Hinv. subst w1.
    unfold probe. simpl. rewrite read_quiet by done.
    destruct (lookup_lt_is_Some_2 (ientries ix) h Hh) as [eh Heh].
    unfold P. rewrite Heh. eexists. split; [reflexivity|done]. }
  simpl in Hinv. subst w'. exists r, e. split; [done|]. split; [lia|]. split.
  - intros k ek Hk Hek. destruct Hlo as [->|Hlo]; [lia|].
    unfold P in Hlo.
    destruct (lookup_lt_is_Some_2 (ientries ix) (r - 1)%nat ltac:(lia)) as [ep Hep].
    rewrite Hep in Hlo. apply Z.leb_gt in Hlo.
    pose proof (Hsorted k (r - 1)%nat ek ep ltac:(lia) Hek Hep). lia.
  - intros k ek Hk Hek. destruct Hhi as [->|Hhi].
    { apply lookup_lt_Some in Hek. lia. }
    unfold P in Hhi. destruct (ientries ix !! r) as [er|] eqn:Her; [|discriminate].
    apply Z.leb_le in Hhi.
    pose proof (Hsorted r k er ek Hk Her Hek). lia.
Qed.

(** X17.  On an index sorted by offset, and while the reads of the index
    succeed, [findEntry] returns the first entry whose offset is greater
    than or equal to the one asked for, and [ErrEntryNotFound] when every
    entry lies below it; the search ends within its allowance of turns. *)
Theorem X17_find_entry_first_at_or_after (offset : Z) (s : segment) (w : world) :
  script w = [] ->
  (forall a b ea eb, (a <= b)%nat -> ientries (Index s) !! a = Some ea ->
     ientries (Index s) !! b = Some eb -> Offset ea <= Offset eb) ->
  (exists k e,
     findEntry offset s w = Ok ((Some e, None), w)
     /\ ientries (Index s) !! k = Some e /\ offset <= Offset e
     /\ forall k' e', (k' < k)%nat -> ientries (Index s) !! k' = Some e' ->
          Offset e' < offset)
  \/ (findEntry offset s w = Ok ((None, Some ErrEntryNotFound), w)
      /\ forall e', e' ∈ ientries (Index s) -> Offset e' < offset).
Proof.
  intros Hw Hsorted. unfold findEntry. cbv zeta.
  destruct (search_first Offset offset (Index s) w
              {| Offset := 0; Timestamp := 0; Position := 0 |} Hw Hsorted)
    as (r & e & -> & Hr & Hlo & Hhi). simpl.
  destruct (decide (r = index_count (Index s))) as [->|Hne].
  - right. split; [done|]. intros e' He'.
    apply list_elem_of_lookup in He' as [k Hk].
    apply (Hlo k e'); [|done]. apply lookup_lt_Some in Hk. exact Hk.
  - left. unfold index_count in *.
    destruct (lookup_lt_is_Some_2 (ientries (Index s)) r ltac:(lia)) as [er Her].
    exists r, er. rewrite read_quiet by done. rewrite Her.
    split; [done|]. split; [done|]. split; [by apply (Hhi r)|done].
Qed.

(** X18.  On an index sorted by write time, and while the reads of the index
    succeed, [findEntryByTimestamp] returns the first entry whose write time
    is greater than or equal to the one asked for, and [ErrEntryNotFound]
    when every entry is older. *)
Theorem X18_find_entry_by_timestamp (timestamp : Z) (s : segment) (w : world) :
  script w = [] ->
  (forall a b ea eb, (a <= b)%nat -> ientries (Index s) !! a = Some ea ->
     ientries (Index s) !! b = Some eb -> Timestamp ea <= Timestamp eb) ->
  (exists k e,
     findEntryByTimestamp timestamp s w = Ok ((Some e, None), w)
     /\ ientries (Index s) !! k = Some e /\ timestamp <= Timestamp e
     /\ forall k' e', (k' < k)%nat -> ientries (Index s) !! k' = Some e' ->
          Timestamp e' < timestamp)
  \/ (findEntryByTimestamp timestamp s w = Ok ((None, Some ErrEntryNotFound), w)
      /\ forall e', e' ∈ ientries (Index s) -> Timestamp e' < timestamp).
Proof.
  intros Hw Hsorted. unfold findEntryByTimestamp. cbv zeta.
  destruct (search_first Timestamp timestamp (Index s) w
              {| Offset := 0; Timestamp := 0; Position := 0 |} Hw Hsorted)
    as (r & e & -> & Hr & Hlo & Hhi). simpl.
  destruct (decide (r = index_count (Index s))) as [->|Hne].
  - right. split; [done|]. intros e' He'.
    apply list_elem_of_lookup in He' as [k Hk].
    apply (Hlo k e'); [|done]. apply lookup_lt_Some in Hk. exact Hk.
  - left. unfold index_count in *.
    destruct (lookup_lt_is_Some_2 (ientries (Index s)) r ltac:(lia)) as [er Her].
    exists r, er. rewrite read_quiet by done. rewrite Her.
    split; [done|]. split; [done|]. split; [by apply (Hhi r)|done].
Qed.

Lemma probe_fault (field : entry -> Z) (target : Z) (ix : index) (i : nat)
    (e : entry) (w : world) (flt : fault) (rest : list (option fault)) :
  script w = Some flt :: rest ->
  probe field target ix i (e, w) = Err (ferr flt).
Proof.
  intros Hw. unfold probe, index_ReadEntryAtFileOffset, sys. simpl.
  by rewrite Hw.
Qed.

(** X19.  On an empty index [findEntry] reads nothing and returns
    [ErrEntryNotFound], whatever the system calls would answer; on an index
    with entries, a failure of the first read of the search is not returned:
    it is a panic carrying the error. *)
Theorem X19_find_entry_read_failure (offset : Z) (s : segment) (w : world) :
  (ientries (Index s) = [] ->
   findEntry offset s w = Ok ((None, Some ErrEntryNotFound), w))
  /\ (forall flt rest, ientries (Index s) ≠ [] -> script w = Some flt :: rest ->
      findEntry offset s w = Err (ferr flt)).
Proof.
  split.
  - intros Hnil. unfold findEntry, index_count, sort_Search. by rewrite Hnil.
  - intros flt rest Hne Hw. unfold findEntry, index_count, sort_Search.
    destruct (ientries (Index s)) as [|e0 es] eqn:He; [done|].
    cbn [length searchLoop]. cbn [Nat.ltb Nat.leb].
    by rewrite (probe_fault Offset offset (Index s) _ _ w flt rest Hw).
Qed.

End Search.

Lemma X17_find_entry_first_at_or_after_witness :
  (exists k e,
     findEntry 1 segment3 world0 = Ok ((Some e, None), world0)
     /\ ientries (Index segment3) !! k = Some e /\ 1 <= Offset e
     /\ forall k' e', (k' < k)%nat -> ientries (Index segment3) !! k' = Some e' ->
          Offset e' < 1)
  \/ (findEntry 1 segment3 world0 = Ok ((None, Some ErrEntryNotFound), world0)
      /\ forall e', e' ∈ ientries (Index segment3) -> Offset e' < 1).
Proof.
  apply (X17_find_entry_first_at_or_after 1 segment3 world0); [reflexivity|].
  intros a b ea eb Hab Ha Hb.
  destruct a as [|[|[|a]]], b as [|[|[|b]]]; simpl in Ha, Hb;
    try discriminate; try lia;
    injection Ha as <-; injection Hb as <-; simpl; lia.
Defined.

Lemma X18_find_entry_by_timestamp_witness :
  (exists k e,
     findEntryByTimestamp 2500 segment3 world0 = Ok ((Some e, None), world0)
     /\ ientries (Index segment3) !! k = Some e /\ 2500 <= Timestamp e
     /\ forall k' e', (k' < k)%nat -> ientries (Index segment3) !! k' = Some e' ->
          Timestamp e' < 2500)
  \/ (findEntryByTimestamp 2500 segment3 world0
      = Ok ((None, Some ErrEntryNotFound), world0)
      /\ forall e', e' ∈ ientries (Index segment3) -> Timestamp e' < 2500).
Proof.
  apply (X18_find_entry_by_timestamp 2500 segment3 world0); [reflexivity|].
  intros a b ea eb Hab Ha Hb.
  destruct a as [|[|[|a]]], b as [|[|[|b]]]; simpl in Ha, Hb;
    try discriminate; try lia;
    injection Ha as <-; injection Hb as <-; simpl; lia.
Defined.

Lemma X19_find_entry_read_failure_witness :
  findEntry 1 fresh diskFull = Ok ((None, Some ErrEntryNotFound), diskFull)
  /\ findEntry 1 segment3 diskFull = Err (IOError "no space left on device").
Proof.
  destruct (X19_find_entry_read_failure 1 fresh diskFull) as [H1 _].
  destruct (X19_find_entry_read_failure 1 segment3 diskFull) as [_ H2].
  split.
  - apply H1. reflexivity.
  - apply (H2 {| ferr := IOError "no space left on device"; fdone := O |} []);
      [discriminate | reflexivity].
Defined.

Section Sync.

Lemma sys_quiet (w : world) : script w = [] -> sys w = (None, w).
Proof. intros Hw. unfold sys. by rewrite Hw. Qed.

Lemma head_last_nil {A} (l : list A) :
  match head l, last l with
  | Some _, Some _ => l ≠ []
  | None, None => l = []
  | _, _ => False
  end.
Proof.
  destruct l as [|a l]; [done|]. simpl.
  destruct (last (a :: l)) eqn:Hl; [done|].
  by apply last_None in Hl.
Qed.

(** What [setupIndex] leaves in the cached fields, on a segment that still
    has its initial values, when the system calls succeed. *)
Lemma setupIndex_quiet (entries : list entry) (s : segment) (w : world) :
  script w = [] ->
  exists s',
    setupIndex entries s w = (None, s', w)
    /\ Index s' = {| ientries := entries; iclosed := false; ishrunk := false |}
    /\ log s' = log s /\ position s' = position s
    /\ BaseOffset s' = BaseOffset s /\ maxBytes s' = maxBytes s
    /\ path s' = path s /\ suffix s' = suffix s /\ waiters s' = waiters s
    /\ sealed s' = sealed s /\ closed s' = closed s /\ replaced s' = replaced s
    /\ match head entries, last entries with
       | Some f, Some l =>
           firstOffset s' = Offset f /\ firstWriteTime s' = Timestamp f
           /\ lastOffset s' = Offset l /\ lastWriteTime s' = Timestamp l
       | _, _ =>
           firstOffset s' = firstOffset s /\ lastOffset s' = lastOffset s
           /\ firstWriteTime s' = firstWriteTime s
           /\ lastWriteTime s' = lastWriteTime s
       end.
Proof.
  intros Hw. unfold setupIndex, newIndex, index_InitializePosition.
  rewrite (sys_quiet w Hw). cbn [ientries]. rewrite (sys_quiet w Hw).
  pose proof (head_last_nil entries) as Hhl.
  destruct (last entries) as [l|] eqn:Hl.
  - rewrite read_quiet by done. cbn [ientries]. rewrite <- head_lookup.
    destruct (head entries) as [f|] eqn:Hf; [|done].
    eexists. split; [reflexivity|]. simpl. repeat split; reflexivity.
  - destruct (head entries); [done|].
    eexists. split; [reflexivity|]. simpl. repeat split; reflexivity.
Qed.

(** [newSegment] when its system calls succeed. *)
Lemma newSegment_quiet (path suffix : string) (baseOffset maxBytes : Z)
    (isNew : bool) (onDisk : option (list Z * list entry)) (w : world) :
  script w = [] -> isNew = false \/ onDisk = None ->
  (forall f, head (default [] (snd <$> onDisk)) = Some f -> Timestamp f ≠ 0) ->
  exists s,
    newSegment path baseOffset maxBytes isNew suffix onDisk w
    = (Ok (None, s), w)
    /\ inSync s
    /\ fdata (log s) = default [] (fst <$> onDisk)
    /\ ientries (Index s) = default [] (snd <$> onDisk)
    /\ BaseOffset s = baseOffset /\ Segment.maxBytes s = maxBytes
    /\ Segment.path s = path /\ Segment.suffix s = suffix
    /\ waiters s = ∅ /\ sealed s = false /\ closed s = false
    /\ replaced s = false.
Proof.
  intros Hw Hnew Hstamp. unfold newSegment.
  assert (Hchk : isNew && bool_decide (is_Some onDisk) = false).
  { destruct Hnew as [->| ->]; [done|]. rewrite bool_decide_eq_false_2.
    - apply andb_false_r.
    - by intros [x Hx]. }
  rewrite Hchk, (sys_quiet w Hw). cbv beta iota zeta.
  rewrite (sys_quiet w Hw). cbv beta iota zeta.
  match goal with |- context [setupIndex ?es ?s0 w] =>
    destruct (setupIndex_quiet es s0 w Hw)
      as (s & -> & HI & Hlog & Hpos & Hb & Hm & Hp & Hsf & Hwt & Hse & Hcl & Hre & Hfl)
  end.
  exists s. split; [reflexivity|]. simpl in *. split.
  - unfold inSync. rewrite HI, Hlog. simpl. split; [exact Hpos|].
    pose proof (head_last_nil (default [] (snd <$> onDisk))) as Hhl.
    destruct (head (default [] (snd <$> onDisk))) as [f|] eqn:Hf;
      destruct (last (default [] (snd <$> onDisk))) as [l|] eqn:Hl; try done.
    destruct Hfl as (? & ? & ? & ?). repeat split; try done.
    by apply (Hstamp f).
  - rewrite HI, Hlog. simpl. repeat split; done.
Qed.

(** X20.  [newSegment] refuses to create a segment whose log file exists,
    without a system call.  Otherwise, when its system calls succeed, it
    opens the files as they are: position at the end of the log file, first
    and last offsets and write times read from the first and last index
    entries, and the initial values -1 and 0 for an empty index; the segment
    is open, unsealed and has no waiters. *)
Theorem X20_new_segment_opens_in_sync (path suffix : string)
    (baseOffset maxBytes : Z) (isNew : bool)
    (onDisk : option (list Z * list entry)) (w : world) :
  (isNew = true -> is_Some onDisk ->
   newSegment path baseOffset maxBytes isNew suffix onDisk w
   = (Err ErrSegmentExists, w))
  /\ (script w = [] -> isNew = false \/ onDisk = None ->
      (forall f, head (default [] (snd <$> onDisk)) = Some f -> Timestamp f ≠ 0) ->
      exists s,
        newSegment path baseOffset maxBytes isNew suffix onDisk w
        = (Ok (None, s), w)
        /\ inSync s
        /\ fdata (log s) = default [] (fst <$> onDisk)
        /\ ientries (Index s) = default [] (snd <$> onDisk)
        /\ BaseOffset s = baseOffset /\ Segment.maxBytes s = maxBytes
        /\ Segment.path s = path /\ Segment.suffix s = suffix
        /\ waiters s = ∅ /\ sealed s = false /\ closed s = false
        /\ replaced s = false).
Proof.
  split.
  - intros -> Hsome. unfold newSegment. by rewrite bool_decide_eq_true_2.
  - apply newSegment_quiet.
Qed.

(** The cached fields of a segment in agreement with its files are a
    function of the files. *)
Lemma inSync_fields (s1 s2 : segment) :
  inSync s1 -> inSync s2 ->
  fdata (log s1) = fdata (log s2) ->
  ientries (Index s1) = ientries (Index s2) ->
  position s1 = position s2
  /\ firstOffset s1 = firstOffset s2 /\ lastOffset s1 = lastOffset s2
  /\ firstWriteTime s1 = firstWriteTime s2
  /\ lastWriteTime s1 = lastWriteTime s2.
Proof.
  intros [Hp1 H1] [Hp2 H2] Hd He. rewrite He in H1. rewrite Hd in Hp1.
  split; [congruence|].
  destruct (head (ientries (Index s2))) as [f|];
    destruct (last (ientries (Index s2))) as [l|];
    repeat match goal with H : _ /\ _ |- _ => destruct H end;
    repeat split; congruence.
Qed.

(** X21.  Reopening loses nothing.  For a segment whose cached fields agree
    with its files, [newSegment] on those files, when its system calls
    succeed, opens a segment with the same position, first and last offsets
    and first and last write times. *)
Theorem X21_reopen_recovers_cached_fields (s : segment) (w : world) :
  inSync s -> script w = [] ->
  exists s',
    newSegment (path s) (BaseOffset s) (maxBytes s) false (suffix s)
      (Some (fdata (log s), ientries (Index s))) w = (Ok (None, s'), w)
    /\ position s' = position s
    /\ firstOffset s' = firstOffset s /\ lastOffset s' = lastOffset s
    /\ firstWriteTime s' = firstWriteTime s
    /\ lastWriteTime s' = lastWriteTime s
    /\ fdata (log s') = fdata (log s)
    /\ ientries (Index s') = ientries (Index s).
Proof.
  intros Hsync Hw.
  destruct (newSegment_quiet (path s) (suffix s) (BaseOffset s)
              (maxBytes s) false (Some (fdata (log s), ientries (Index s))) w)
    as (s' & Hn & Hs' & Hd & He & _); [done|by left| |].
  { simpl. intros f Hf. destruct Hsync as [_ H].
    pose proof (head_last_nil (ientries (Index s))) as Hhl.
    rewrite Hf in H, Hhl.
    destruct (last (ientries (Index s))); [tauto|done]. }
  exists s'. split; [done|]. simpl in Hd, He.
  destruct (inSync_fields s' s Hs' Hsync Hd He) as (? & ? & ? & ? & ?).
  repeat split; done.
Qed.

End Sync.

Lemma X20_new_segment_opens_in_sync_witness :
  newSegment "/data" 0 100 true EmptyString (Some ([1; 2; 3]%Z, [entry0])) world0
  = (Err ErrSegmentExists, world0)
  /\ exists s,
       newSegment "/data" 0 100 false EmptyString
         (Some ([1; 2; 3; 4; 5]%Z, [entry0])) world0 = (Ok (None, s), world0)
       /\ inSync s /\ position s = 5 /\ firstOffset s = 0 /\ lastOffset s = 0.
Proof.
  split.
  - apply (X20_new_segment_opens_in_sync "/data" EmptyString 0 100 true
             (Some ([1; 2; 3]%Z, [entry0])) world0); [reflexivity | by eexists].
  - destruct (X20_new_segment_opens_in_sync "/data" EmptyString 0 100 false
                (Some ([1; 2; 3; 4; 5]%Z, [entry0])) world0) as [_ H].
    destruct H as (s & Hn & Hs & _); [reflexivity | by left | |].
    { simpl. intros f [= <-]. discriminate. }
    exists s. split; [exact Hn|]. split; [exact Hs|].
    injection Hn as <-. repeat split; reflexivity.
Defined.

Lemma X21_reopen_recovers_cached_fields_witness :
  exists s',
    newSegment "/data" 0 100 false EmptyString
      (Some ([1; 2; 3; 4; 5; 6; 7; 8; 9; 10]%Z, [entry0; entry1; entry2])) world0
    = (Ok (None, s'), world0)
    /\ position s' = 10 /\ firstOffset s' = 0 /\ lastOffset s' = 4
    /\ firstWriteTime s' = 1000 /\ lastWriteTime s' = 3000
    /\ fdata (log s') = [1; 2; 3; 4; 5; 6; 7; 8; 9; 10]%Z
    /\ ientries (Index s') = [entry0; entry1; entry2].
Proof.
  apply (X21_reopen_recovers_cached_fields segment3 world0); [|reflexivity].
  split; [reflexivity|]. simpl. repeat split; try reflexivity. discriminate.
Defined.


Section SyncRuns.

Lemma wrap64_small (z : Z) : - 2 ^ 63 <= z < 2 ^ 63 -> wrap64 z = z.
Proof. intros Hz. unfold wrap64. rewrite Z.mod_small by lia. lia. Qed.

(** A successful write keeps the cached fields in agreement with the
    files. *)
Lemma inSync_write (s : segment) (ms : list Z) (es : list entry)
    (first lst : entry) (s' : segment) :
  inSync s -> head es = Some first -> last es = Some lst ->
  Timestamp first ≠ 0 ->
  position s + Z.of_nat (length ms) < 2 ^ 63 ->
  fdata (log s') = fdata (log s) ++ ms ->
  ientries (Index s') = ientries (Index s) ++ es ->
  position s' = wrap64 (position s + Z.of_nat (length ms)) ->
  (if firstWriteTime s =? 0
   then firstOffset s' = Offset first /\ firstWriteTime s' = Timestamp first
   else firstOffset s' = firstOffset s /\ firstWriteTime s' = firstWriteTime s) ->
  lastOffset s' = Offset lst -> lastWriteTime s' = Timestamp lst ->
  inSync s'.
Proof.
  intros [Hpos Hfl] Hh Hl Hts Hbound Hd He Hp Hfirst Hlo Hlt.
  split.
  - rewrite Hp, Hd, length_app, wrap64_small; lia.
  - rewrite He, head_app, last_app, Hl, Hh.
    pose proof (head_last_nil (ientries (Index s))) as Hhl.
    destruct (head (ientries (Index s))) as [f|];
      destruct (last (ientries (Index s))) as [l|]; try done.
    + destruct Hfl as (Hfo & Hft & _ & _ & Hne).
      destruct (Z.eqb_spec (firstWriteTime s) 0) as [H0|_]; [congruence|].
      destruct Hfirst as [-> ->]. repeat split; congruence.
    + destruct Hfl as (_ & _ & Hft & _). rewrite Hft in Hfirst. simpl in Hfirst.
      destruct Hfirst as [-> ->]. repeat split; congruence.
Qed.

Lemma waitForData_quiet (r : waiter) (pos : Z) (s : segment) (w : world) :
  exists ch s' w1,
    waitForData r pos s w = Ok (ch, s', w1) /\ script w1 = script w
    /\ (s' = s \/ exists wt, s' = set_waiters wt s).
Proof.
  rewrite waitForData_spec. destruct (waiters s !! r) as [ch|].
  { exists ch, s, w. auto. }
  destruct (_ || _); eexists _, _, _; (split; [reflexivity|]); simpl; eauto.
Qed.

Lemma WaitForLEO_quiet (r : waiter) (leo : Z) (s : segment) (w : world) :
  exists ch s' w1,
    WaitForLEO r leo s w = Ok (ch, s', w1) /\ script w1 = script w
    /\ (s' = s \/ exists wt, s' = set_waiters wt s).
Proof.
  unfold WaitForLEO. destruct (negb _); [|apply waitForData_quiet].
  unfold makeChan. rewrite close_fresh. simpl.
  eexists _, _, _. split; [reflexivity|]. simpl. auto.
Qed.

Ltac keep_sync Hsync Hinv :=
  split; [reflexivity|]; split; [exact Hsync|]; split; [exact Hinv|];
  split; [congruence|]; simpl; rewrite ?app_nil_r;
  split; [lia|]; split; reflexivity.

Lemma step_sync (o : op) (s : segment) (w : world) :
  inSync s -> waitersOpen s w -> script w = [] -> stamped o ->
  position s + bytesOf o < 2 ^ 63 ->
  exists s' w',
    step o s w = Ok (s', w')
    /\ inSync s' /\ waitersOpen s' w' /\ script w' = []
    /\ position s' <= position s + bytesOf o
    /\ fdata (log s')
       = fdata (log s)
         ++ match o with
            | OpWrite ms _ => if closed s then [] else ms
            | _ => []
            end
    /\ ientries (Index s')
       = ientries (Index s)
         ++ match o with
            | OpWrite _ es => if closed s then [] else es
            | _ => []
            end.
Proof.
  intros Hsync Hopen Hw Hst Hbound.
  assert (Hpos0 : 0 <= position s) by (destruct Hsync as [-> _]; lia).
  pose proof (step_inv o s w Hopen) as Hinv.
  destruct o as [ms es| |r leo|r pos|r|n off|]; simpl in Hst, Hbound |- *.
  - (* WriteMessageSet *)
    simpl in Hinv. unfold WriteMessageSet in *. rewrite write_spec in *.
    destruct (closed s) eqn:Hcl.
    { simpl in *. exists s, w. keep_sync Hsync Hinv. }
    unfold file_Write in *. rewrite (sys_quiet w Hw) in *.
    destruct (head es) as [first|] eqn:Hh; [|done].
    destruct (last es) as [lst|] eqn:Hl.
    2: { apply last_None in Hl. subst es. discriminate. }
    cbv zeta in *.
    destruct (firstWriteTime s =? 0) eqn:Hfw;
      (match goal with |- context [notifyWaiters ?s0 w] =>
         destruct (notifyWaiters_spec s0 w) as (w1 & Hn & Hw1 & _);
           [apply (waitersOpen_frame s _ w w);
              [reflexivity | reflexivity | exact Hopen] |];
           rewrite Hn in *
       end;
       cbn [mbind result_bind snd] in *;
       unfold index_writeEntries in *;
       rewrite (sys_quiet w1) in * by congruence;
       eexists _, w1; split; [reflexivity|]; simpl in Hinv;
       split; [|split; [exact Hinv|split; [congruence|split]]];
       [ eapply (inSync_write s ms es first lst); eauto; rewrite ?Hfw; simpl; auto
       | simpl; rewrite wrap64_small by lia; lia
       | simpl; split; reflexivity ]).
  - (* Seal *)
    cbn [step] in Hinv. unfold Seal in *. destruct (sealed s).
    { exists s, w. keep_sync Hsync Hinv. }
    destruct (notifyWaiters_spec (set_sealed true s) w) as (w1 & Hn & Hw1 & _);
      [by apply (waitersOpen_frame s _ w w) |].
    rewrite Hn in *. cbn [mbind result_bind] in *.
    unfold index_Shrink in *. rewrite (sys_quiet w1) in * by congruence.
    eexists _, w1. keep_sync Hsync Hinv.
  - (* WaitForLEO *)
    cbn [step] in Hinv.
    destruct (WaitForLEO_quiet r leo s w) as (ch & s1 & w1 & Hr & Hs1 & Hcase).
    rewrite Hr in *. simpl in *. exists s1, w1.
    destruct Hcase as [->|[wt ->]]; keep_sync Hsync Hinv.
  - (* WaitForData *)
    cbn [step] in Hinv.
    destruct (waitForData_quiet r pos s w) as (ch & s1 & w1 & Hr & Hs1 & Hcase).
    unfold WaitForData in *. rewrite Hr in *. simpl in *. exists s1, w1.
    destruct Hcase as [->|[wt ->]]; keep_sync Hsync Hinv.
  - (* removeWaiter *)
    cbn [step] in Hinv. eexists _, w. keep_sync Hsync Hinv.
  - (* ReadAt *)
    cbn [step] in Hinv.
    assert (Hr : (ReadAt n off s w).2 = w).
    { unfold ReadAt, file_ReadAt. rewrite (sys_quiet w Hw).
      repeat case_match; reflexivity. }
    rewrite Hr in *. exists s, w. keep_sync Hsync Hinv.
  - (* Close *)
    cbn [step] in Hinv. unfold Close, close, file_Close, index_Close in *.
    destruct (closed s).
    { exists s, w. keep_sync Hsync Hinv. }
    rewrite (sys_quiet w Hw) in *. cbv beta iota zeta in *.
    rewrite (sys_quiet w Hw) in *.
    eexists _, w. keep_sync Hsync Hinv.
Qed.

(** X22.  Over any run of the operations of a segment, while the system
    calls succeed, the cached fields stay in agreement with the files and
    nothing panics, provided every batch written is non-empty and starts
    with a write time other than 0, and the bytes written fit the position
    counter. *)
Theorem X22_runs_keep_cache_in_sync (ops : list op) :
  forall (s : segment) (w : world),
  inSync s -> waitersOpen s w -> script w = [] ->
  Forall stamped ops ->
  position s + bytesOfRun ops < 2 ^ 63 ->
  exists s' w',
    run ops s w = Ok (s', w') /\ inSync s' /\ waitersOpen s' w'
    /\ script w' = [].
Proof.
  induction ops as [|o ops IH]; intros s w Hsync Hopen Hw Hst Hbound.
  { exists s, w. auto. }
  apply Forall_cons in Hst as [Ho Hst]. simpl in Hbound.
  assert (Hb0 : 0 <= bytesOf o) by (destruct o; simpl; lia).
  assert (Hbr : 0 <= bytesOfRun ops).
  { clear. induction ops as [|o ops IH]; simpl; [lia|].
    assert (0 <= bytesOf o) by (destruct o; simpl; lia). lia. }
  destruct (step_sync o s w Hsync Hopen Hw Ho ltac:(lia))
    as (s1 & w1 & Hs & Hsync1 & Hopen1 & Hw1 & Hpos & _).
  destruct (IH s1 w1 Hsync1 Hopen1 Hw1 Hst ltac:(lia))
    as (s' & w' & Hr & Hres).
  exists s', w'. split; [|exact Hres].
  simpl. rewrite Hs. exact Hr.
Qed.

End SyncRuns.

Lemma X22_runs_keep_cache_in_sync_witness :
  exists s' w',
    run [OpWrite [9; 9]%Z [entry1]; OpSeal; OpWaitForData 7 7; OpClose]
      segment5 world0 = Ok (s', w')
    /\ inSync s' /\ waitersOpen s' w' /\ script w' = [].
Proof.
  apply (X22_runs_keep_cache_in_sync
           [OpWrite [9; 9]%Z [entry1]; OpSeal; OpWaitForData 7 7; OpClose]
           segment5 world0).
  - split; [reflexivity|]. simpl. repeat split; try reflexivity. discriminate.
  - apply waitersOpen_empty. reflexivity.
  - reflexivity.
  - repeat constructor. simpl. discriminate.
  - vm_compute. reflexivity.
Defined.


Section Sealing.

(** X23.  [Seal] on a sealed segment does nothing: waiters registered since
    the segment was sealed are not woken.  On an unsealed segment it sets
    the flag, closes the channel of every registered waiter and empties the
    registry, whatever [Shrink] answers; sealing again is then a no-op. *)
Theorem X23_seal_once (s : segment) (w : world) :
  (sealed s = true -> Seal s w = Ok (s, w))
  /\ (sealed s = false -> waitersOpen s w ->
      exists s' w',
        Seal s w = Ok (s', w')
        /\ sealed s' = true /\ waiters s' = ∅
        /\ (forall r ch, waiters s !! r = Some ch -> isClosed ch w')
        /\ forall w'', Seal s' w'' = Ok (s', w'')).
Proof.
  split.
  - intros Hs. unfold Seal. by rewrite Hs.
  - intros Hs Hopen. unfold Seal. rewrite Hs.
    destruct (notifyWaiters_spec (set_sealed true s) w) as (w1 & Hn & Hw1 & Hcl & _);
      [by apply (waitersOpen_frame s _ w w) |].
    rewrite Hn. cbn [mbind result_bind].
    destruct (index_Shrink (Index (set_waiters ∅ (set_sealed true s))) w1)
      as [[err ix] w2] eqn:Hsh.
    eexists _, w2. split; [reflexivity|]. simpl.
    split; [done|]. split; [done|]. split; [|done].
    intros r ch Hr. unfold isClosed.
    pose proof (index_Shrink_chans (Index (set_waiters ∅ (set_sealed true s))) w1)
      as Hch. rewrite Hsh in Hch. simpl in Hch. rewrite Hch.
    exact (Hcl r ch Hr).
Qed.

Lemma notify_fold_sealed (b : bool) (l : list (waiter * chan)) :
  forall r : result panic (segment * world),
  foldl (fun (acc : result panic (segment * world)) (rc : waiter * chan) =>
           '(s, w) ← acc;
           w ← closeChan rc.2 w;
           Ok (set_waiters (delete rc.1 (waiters s)) s, w))
        (withSealed b r) l
  = withSealed b
      (foldl (fun (acc : result panic (segment * world)) (rc : waiter * chan) =>
                '(s, w) ← acc;
                w ← closeChan rc.2 w;
                Ok (set_waiters (delete rc.1 (waiters s)) s, w))
             r l).
Proof.
  induction l as [|rc l IH]; intros r; simpl; [done|].
  rewrite <- IH. f_equal.
  destruct r as [[s w]|p]; simpl; [|done].
  destruct (closeChan rc.2 w); reflexivity.
Qed.

Lemma notifyWaiters_sealed (b : bool) (s : segment) (w : world) :
  notifyWaiters (set_sealed b s) w = withSealed b (notifyWaiters s w).
Proof.
  unfold notifyWaiters. simpl waiters.
  exact (notify_fold_sealed b (map_to_list (waiters s)) (Ok (s, w))).
Qed.

(** X24.  The [sealed] flag stops nothing.  Every operation other than
    [Seal] does on a segment exactly what it does on the same segment with
    the flag set or cleared, and carries the flag through: a sealed segment
    still accepts writes and registers waiters. *)
Theorem X24_sealed_flag_is_only_read_by_seal (o : op) (b : bool) (s : segment)
    (w : world) :
  o ≠ OpSeal ->
  step o (set_sealed b s) w = withSealed b (step o s w).
Proof.
  intros Hne. destruct o as [ms es| |r leo|r pos|r|n off|]; [|done|..].
  - cbn [step]. unfold WriteMessageSet. rewrite !write_spec.
    change (closed (set_sealed b s)) with (closed s).
    change (log (set_sealed b s)) with (log s).
    change (firstWriteTime (set_sealed b s)) with (firstWriteTime s).
    change (position (set_sealed b s)) with (position s).
    destruct (closed s); [reflexivity|].
    destruct (file_Write ms (log s) w) as [[[n [e|]] f] w1]; [reflexivity|].
    destruct (head es) as [first|]; [|reflexivity].
    destruct (last es) as [lst|]; [|reflexivity].
    cbv zeta.
    destruct (firstWriteTime s =? 0);
      (match goal with
       | |- context [withSealed b ?R] =>
           match R with
           | context [notifyWaiters ?S ?W] =>
               match goal with
               | |- context [notifyWaiters ?S' W] =>
                   change S' with (set_sealed b S);
                   rewrite (notifyWaiters_sealed b S W);
                   destruct (notifyWaiters S W) as [[s2 w2]|p]
               end
           end
       end;
       [|reflexivity]; simpl;
       destruct (index_writeEntries es (Index s2) w2) as [[err ix] w3];
       reflexivity).
  - cbn [step]. unfold WaitForLEO.
    change (lastOffset (set_sealed b s)) with (lastOffset s).
    change (position (set_sealed b s)) with (position s).
    destruct (negb _).
    + unfold makeChan. rewrite close_fresh. reflexivity.
    + rewrite !waitForData_spec. simpl.
      destruct (waiters s !! r); [reflexivity|].
      destruct (_ || _); reflexivity.
  - cbn [step]. unfold WaitForData. rewrite !waitForData_spec. simpl.
    destruct (waiters s !! r); [reflexivity|].
    destruct (_ || _); reflexivity.
  - reflexivity.
  - reflexivity.
  - cbn [step]. unfold Close, close. simpl.
    destruct (closed s); [reflexivity|].
    destruct (file_Close (log s) w) as [[[e|] f] w1]; [reflexivity|].
    simpl. destruct (index_Close (Index s) w1) as [[[e|] ix] w2]; reflexivity.
Qed.

End Sealing.

Lemma X23_seal_once_witness :
  Seal (set_sealed true registered5) world1
  = Ok (set_sealed true registered5, world1)
  /\ exists s' w',
       Seal registered5 world1 = Ok (s', w')
       /\ sealed s' = true /\ waiters s' = ∅ /\ isClosed 0 w'.
Proof.
  destruct (X23_seal_once (set_sealed true registered5) world1) as [H1 _].
  destruct (X23_seal_once registered5 world1) as [_ H2].
  split; [by apply H1|].
  destruct H2 as (s' & w' & Hs & Hse & Hw & Hcl & _); [reflexivity| |].
  - split.
    + intros r ch Hr.
      change (waiters registered5) with ({[7%nat := 0%nat]} : gmap waiter chan) in Hr.
      apply lookup_singleton_Some in Hr as [_ <-]. reflexivity.
    + intros r1 r2 ch H1' H2'.
      change (waiters registered5) with ({[7%nat := 0%nat]} : gmap waiter chan) in H1', H2'.
      apply lookup_singleton_Some in H1' as [<- _].
      apply lookup_singleton_Some in H2' as [<- _]. reflexivity.
  - exists s', w'. split; [done|]. split; [done|]. split; [done|].
    apply (Hcl 7%nat). reflexivity.
Defined.

Lemma X24_sealed_flag_is_only_read_by_seal_witness :
  step (OpWrite [9; 9]%Z [entry1]) (set_sealed true segment5) world0
  = withSealed true (step (OpWrite [9; 9]%Z [entry1]) segment5 world0).
Proof.
  apply (X24_sealed_flag_is_only_read_by_seal (OpWrite [9; 9]%Z [entry1]) true
           segment5 world0).
  discriminate.
Defined.


Section Removed.

(** A channel that exists, is open and belongs to no registered waiter stays
    so under every operation. *)
Lemma step_forgotten (ch : chan) (o : op) (s s' : segment) (w w' : world) :
  waitersOpen s w ->
  isOpen ch w -> (forall r, waiters s !! r ≠ Some ch) ->
  step o s w = Ok (s', w') ->
  isOpen ch w' /\ (forall r, waiters s' !! r ≠ Some ch).
Proof.
  intros Hopen Hch Hno Hstep.
  assert (Hlt : (ch < length (chans w))%nat) by (eapply lookup_lt_Some; exact Hch).
  destruct o as [ms es| |r leo|r pos|r|n off|]; cbn [step] in Hstep.
  - (* WriteMessageSet *)
    unfold WriteMessageSet in Hstep. rewrite write_spec in Hstep.
    destruct (closed s).
    { simpl in Hstep. by injection Hstep as <- <-. }
    destruct (file_Write ms (log s) w) as [[[n [e|]] f] w1] eqn:Hfw.
    { simpl in Hstep. injection Hstep as <- <-.
      pose proof (file_Write_chans ms (log s) w) as Hc. rewrite Hfw in Hc.
      unfold isOpen. simpl in Hc. rewrite Hc. auto. }
    destruct (head es) as [first|]; [|discriminate].
    destruct (last es) as [lst|]; [|discriminate].
    cbv zeta in Hstep.
    pose proof (file_Write_chans ms (log s) w) as Hc. rewrite Hfw in Hc.
    simpl in Hc.
    match type of Hstep with context [notifyWaiters ?s0 w1] =>
      destruct (notifyWaiters_spec s0 w1) as (w2 & Hn & _ & _ & Hkeep);
        [apply (waitersOpen_frame s _ w w1);
           [destruct (firstWriteTime s =? 0); reflexivity | exact Hc | exact Hopen]
        |];
        rewrite Hn in Hstep;
        assert (Hch2 : chans w2 !! ch = chans w1 !! ch)
          by (apply Hkeep; intros r0;
              destruct (firstWriteTime s =? 0); apply Hno)
    end.
    cbn [mbind result_bind snd] in Hstep.
    match type of Hstep with context [index_writeEntries ?a ?b ?c] =>
      pose proof (index_writeEntries_chans a b c) as Hc3;
        destruct (index_writeEntries a b c) as [[err ix] w3]
    end.
    simpl in Hstep, Hc3. injection Hstep as <- <-. split.
    + unfold isOpen. rewrite Hc3, Hch2, Hc. exact Hch.
    + intros r0. simpl. by rewrite lookup_empty.
  - (* Seal *)
    unfold Seal in Hstep. destruct (sealed s).
    { by injection Hstep as <- <-. }
    destruct (notifyWaiters_spec (set_sealed true s) w) as (w2 & Hn & _ & _ & Hkeep);
      [by apply (waitersOpen_frame s _ w w) |].
    rewrite Hn in Hstep. cbn [mbind result_bind] in Hstep.
    match type of Hstep with context [index_Shrink ?a ?b] =>
      pose proof (index_Shrink_chans a b) as Hc3;
        destruct (index_Shrink a b) as [[err ix] w3]
    end.
    simpl in Hstep, Hc3. injection Hstep as <- <-. split.
    + unfold isOpen. rewrite Hc3. rewrite (Hkeep ch); [exact Hch|]. exact Hno.
    + intros r0. simpl. by rewrite lookup_empty.
  - (* WaitForLEO *)
    unfold WaitForLEO in Hstep. destruct (negb _).
    + unfold makeChan in Hstep. rewrite close_fresh in Hstep.
      simpl in Hstep. injection Hstep as <- <-. split; [|exact Hno].
      unfold isOpen. simpl. rewrite lookup_app_l by done. exact Hch.
    + rewrite waitForData_spec in Hstep.
      destruct (waiters s !! r) as [c|].
      { simpl in Hstep. by injection Hstep as <- <-. }
      destruct (_ || _); simpl in Hstep; injection Hstep as <- <-.
      * split; [|exact Hno]. unfold isOpen. simpl.
        rewrite lookup_app_l by done. exact Hch.
      * split.
        -- unfold isOpen. simpl. rewrite lookup_app_l by done. exact Hch.
        -- intros r0. simpl. destruct (decide (r0 = r)) as [->|Hr].
           ++ rewrite lookup_insert_eq. intros [= Heq]. lia.
           ++ rewrite lookup_insert_ne by done. apply Hno.
  - (* WaitForData *)
    unfold WaitForData in Hstep. rewrite waitForData_spec in Hstep.
    destruct (waiters s !! r) as [c|].
    { simpl in Hstep. by injection Hstep as <- <-. }
    destruct (_ || _); simpl in Hstep; injection Hstep as <- <-.
    * split; [|exact Hno]. unfold isOpen. simpl.
      rewrite lookup_app_l by done. exact Hch.
    * split.
      -- unfold isOpen. simpl. rewrite lookup_app_l by done. exact Hch.
      -- intros r0. simpl. destruct (decide (r0 = r)) as [->|Hr].
         ++ rewrite lookup_insert_eq. intros [= Heq]. lia.
         ++ rewrite lookup_insert_ne by done. apply Hno.
  - (* removeWaiter *)
    injection Hstep as <- <-. split; [done|].
    intros r0. simpl. intros Hr0. apply lookup_delete_Some in Hr0 as [_ Hr0].
    by apply (Hno r0).
  - (* ReadAt *)
    injection Hstep as <- <-. split; [|done].
    unfold isOpen, ReadAt. destruct (closed s).
    { by destruct (replaced s). }
    rewrite file_ReadAt_chans. exact Hch.
  - (* Close *)
    unfold Close in Hstep.
    destruct (close_frame s w) as (Hwt & Hc & _).
    destruct (close s w) as [[err s1] w1]. simpl in *.
    injection Hstep as <- <-. split.
    + unfold isOpen. rewrite Hc. exact Hch.
    + intros r0. rewrite Hwt. apply Hno.
Qed.

Lemma run_forgotten (ch : chan) (ops : list op) :
  forall (s s' : segment) (w w' : world),
  waitersOpen s w ->
  isOpen ch w -> (forall r, waiters s !! r ≠ Some ch) ->
  run ops s w = Ok (s', w') ->
  isOpen ch w' /\ (forall r, waiters s' !! r ≠ Some ch).
Proof.
  induction ops as [|o ops IH]; intros s s' w w' Hopen Hch Hno Hrun; simpl in Hrun.
  { by injection Hrun as <- <-. }
  pose proof (step_inv o s w Hopen) as Hinv.
  destruct (step o s w) as [[s1 w1]|p] eqn:Hstep; [|discriminate].
  simpl in Hrun.
  destruct (step_forgotten ch o s s1 w w1 Hopen Hch Hno Hstep) as [Hch1 Hno1].
  exact (IH s1 s' w1 w' Hinv Hch1 Hno1 Hrun).
Qed.

(** X25.  A removed waiter is never woken.  Once [removeWaiter] has taken a
    waiter out of the registry, no later operation of the segment closes the
    channel it was given: the channel stays open for ever, and no waiter
    registered later receives it. *)
Theorem X25_removed_waiter_is_never_woken (r : waiter) (ch : chan)
    (s : segment) (w : world) (ops : list op) (s' : segment) (w' : world) :
  waitersOpen s w -> waiters s !! r = Some ch ->
  run ops (removeWaiter r s) w = Ok (s', w') ->
  isOpen ch w' /\ forall r', waiters s' !! r' ≠ Some ch.
Proof.
  intros Hopen Hr Hrun.
  apply (run_forgotten ch ops (removeWaiter r s) s' w w').
  - by apply waitersOpen_remove.
  - destruct Hopen as [Ho _]. exact (Ho r ch Hr).
  - intros r0 Hr0. simpl in Hr0. apply lookup_delete_Some in Hr0 as [Hne Hr0].
    destruct Hopen as [_ Hinj]. apply Hne. exact (Hinj r r0 ch Hr Hr0).
  - exact Hrun.
Qed.

End Removed.

Lemma X25_removed_waiter_is_never_woken_witness :
  exists s' w',
    run [OpWrite [9]%Z [entry1]; OpSeal] (removeWaiter 7 registered5) world1
    = Ok (s', w')
    /\ isOpen 0 w'.
Proof.
  destruct (run [OpWrite [9]%Z [entry1]; OpSeal] (removeWaiter 7 registered5) world1)
    as [[s' w']|p] eqn:Hrun; [|vm_compute in Hrun; discriminate].
  exists s', w'. split; [reflexivity|].
  apply (X25_removed_waiter_is_never_woken 7 0 registered5 world1
           [OpWrite [9]%Z [entry1]; OpSeal] s' w').
  - split.
    + intros r ch Hr.
      change (waiters registered5) with ({[7%nat := 0%nat]} : gmap waiter chan) in Hr.
      apply lookup_singleton_Some in Hr as [_ <-]. reflexivity.
    + intros r1 r2 ch H1' H2'.
      change (waiters registered5) with ({[7%nat := 0%nat]} : gmap waiter chan) in H1', H2'.
      apply lookup_singleton_Some in H1' as [<- _].
      apply lookup_singleton_Some in H2' as [<- _]. reflexivity.
  - reflexivity.
  - exact Hrun.
Defined.

Section Replacing.

Lemma close_files (s : segment) (w : world) :
  fdata (log (close s w).1.2) = fdata (log s)
  /\ ientries (Index (close s w).1.2) = ientries (Index s)
  /\ path (close s w).1.2 = path s /\ BaseOffset (close s w).1.2 = BaseOffset s
  /\ maxBytes (close s w).1.2 = maxBytes s.
Proof.
  unfold close, file_Close, index_Close. destruct (closed s); [done|].
  destruct (sys w) as [[flt|] w1]; [done|]. simpl.
  destruct (sys w1) as [[flt|] w2]; done.
Qed.

Lemma setupIndex_ok (es : list entry) (s s' : segment) (w w' : world) :
  setupIndex es s w = (None, s', w') ->
  Index s' = {| ientries := es; iclosed := false; ishrunk := false |}
  /\ log s' = log s /\ closed s' = closed s /\ suffix s' = suffix s
  /\ path s' = path s /\ BaseOffset s' = BaseOffset s
  /\ waiters s' = waiters s /\ chans w' = chans w.
Proof.
  unfold setupIndex, newIndex, index_InitializePosition,
    index_ReadEntryAtFileOffset.
  destruct (sys w) as [[flt|] w1] eqn:H1; [discriminate|].
  apply sys_inv in H1. cbn [ientries].
  destruct (sys w1) as [[flt|] w2] eqn:H2; [discriminate|].
  apply sys_inv in H2.
  destruct (last es) as [l|]; [|intros [= <- <-]; simpl; repeat split; congruence].
  destruct (sys w2) as [[flt|] w3] eqn:H3; [discriminate|].
  apply sys_inv in H3.
  destruct (es !! O) as [f|]; [|discriminate].
  intros [= <- <-]. simpl. repeat split; congruence.
Qed.

(** X26.  When [Replace] succeeds the callee takes the place of the old
    segment: it is open again with an empty suffix, on the bytes and index
    entries it held, under the path and base offset it had; the waiters of
    both segments are as they were and no channel has been touched. *)
Theorem X26_replace_reopens_callee (s old s' old' : segment) (w w' : world) :
  Replace s old w = (None, (s', old'), w') ->
  closed s' = false /\ suffix s' = EmptyString
  /\ fopen (log s') = true /\ fdata (log s') = fdata (log s)
  /\ ientries (Index s') = ientries (Index s) /\ iclosed (Index s') = false
  /\ path s' = path s /\ BaseOffset s' = BaseOffset s
  /\ waiters s' = waiters s /\ waiters old' = waiters old
  /\ chans w' = chans w.
Proof.
  unfold Replace, os_call.
  destruct (close_frame old w) as (Hwo & Hco & _).
  destruct (close old w) as [[[e|] old1] w1]; [discriminate|]. simpl in Hwo, Hco.
  destruct (close_frame s w1) as (Hws & Hcs & _).
  destruct (close_files s w1) as (Hd & Hes & Hp & Hb & _).
  destruct (close s w1) as [[[e|] s1] w2]; [discriminate|].
  simpl in Hws, Hcs, Hd, Hes, Hp, Hb.
  destruct (sys w2) as [[flt|] w3] eqn:H3; [discriminate|]. apply sys_inv in H3.
  destruct (sys w3) as [[flt|] w4] eqn:H4; [discriminate|]. apply sys_inv in H4.
  destruct (sys w4) as [[flt|] w5] eqn:H5; [discriminate|]. apply sys_inv in H5.
  cbv zeta.
  match goal with |- context [setupIndex ?es ?s0 w5] =>
    destruct (setupIndex es s0 w5) as [[err s2] w6] eqn:Hsetup
  end.
  intros [= -> <- <- <-].
  apply setupIndex_ok in Hsetup
    as (HI & Hlog & Hcl & Hsf & Hpa & Hba & Hwt & Hch).
  rewrite HI, Hlog, Hcl, Hsf, Hpa, Hba, Hwt, Hch. simpl.
  repeat split; congruence.
Qed.

(** X27.  [Close] wakes nobody: whatever it returns, the registry of waiters
    is as it was and every channel is in the state it was in, so a waiter
    registered on the segment stays registered on an open channel. *)
Theorem X27_close_wakes_nobody (s s' : segment) (w w' : world)
    (err : option error) :
  Close s w = (err, s', w') ->
  waiters s' = waiters s /\ chans w' = chans w
  /\ forall r ch, waiters s !! r = Some ch -> isOpen ch w ->
       waiters s' !! r = Some ch /\ isOpen ch w'.
Proof.
  intros Hc. unfold Close in Hc.
  destruct (close_frame s w) as (Hw & Hch & _). rewrite Hc in Hw, Hch.
  simpl in Hw, Hch. split; [done|]. split; [done|].
  intros r ch Hr Ho. unfold isOpen. by rewrite Hw, Hch.
Qed.

(** X28.  On a segment whose cached fields agree with its files and whose
    entries carry offsets from 0 on, [IsEmpty] tells whether the index holds
    no entry, [FirstOffset] and [LastOffset] are the offsets of its first
    and last entries, or -1, and [NextOffset] is the offset after the last
    entry, or the base offset of an empty segment. *)
Theorem X28_offsets_follow_the_index (s : segment) :
  inSync s ->
  (forall e, e ∈ ientries (Index s) -> 0 <= Offset e) ->
  IsEmpty s = bool_decide (ientries (Index s) = [])
  /\ FirstOffset s = default (-1) (Offset <$> head (ientries (Index s)))
  /\ LastOffset s = default (-1) (Offset <$> last (ientries (Index s)))
  /\ NextOffset s
     = match last (ientries (Index s)) with
       | Some l => wrap64 (Offset l + 1)
       | None => BaseOffset s
       end.
Proof.
  intros [_ Hfl] Hpos. unfold IsEmpty, FirstOffset, LastOffset, NextOffset.
  pose proof (head_last_nil (ientries (Index s))) as Hhl.
  destruct (head (ientries (Index s))) as [f|] eqn:Hf;
    destruct (last (ientries (Index s))) as [l|] eqn:Hl; try done.
  - destruct Hfl as (-> & _ & -> & _).
    assert (0 <= Offset f) by (apply Hpos; by apply head_Some_elem_of).
    assert (0 <= Offset l) by (apply Hpos; by apply last_Some_elem_of).
    rewrite bool_decide_eq_false_2 by done. simpl.
    destruct (Z.eqb_spec (Offset f) (-1)); [lia|].
    destruct (Z.eqb_spec (Offset l) (-1)); [lia|]. done.
  - destruct Hfl as (-> & -> & _).
    by rewrite bool_decide_eq_true_2.
Qed.

(** X29.  A segment whose position has reached its size limit asks to be
    split.  Below the limit, on a segment whose cached fields agree with its
    files, the age that [CheckSplit] compares with the roll time is counted
    from the write time of the first index entry: a segment without entries
    is never split for its age, nor is any segment when the roll time
    is 0. *)
Theorem X29_check_split_counts_from_first_entry (s : segment)
    (logRollTime now : Z) :
  inSync s ->
  (maxBytes s <= position s -> CheckSplit logRollTime now s = true)
  /\ (position s < maxBytes s ->
      CheckSplit logRollTime now s
      = match head (ientries (Index s)) with
        | Some f =>
            negb (logRollTime =? 0)
            && (logRollTime <=? wrap64 (now - Timestamp f))
        | None => false
        end).
Proof.
  intros [_ Hfl]. unfold CheckSplit. split.
  - intros Hfull. by destruct (Z.leb_spec (maxBytes s) (position s)); [|lia].
  - intros Hroom. destruct (Z.leb_spec (maxBytes s) (position s)); [lia|].
    pose proof (head_last_nil (ientries (Index s))) as Hhl.
    destruct (head (ientries (Index s))) as [f|];
      destruct (last (ientries (Index s))) as [l|]; try done.
    + destruct Hfl as (_ & -> & _ & _ & Hne).
      destruct (Z.eqb_spec (Timestamp f) 0); [done|].
      by destruct (logRollTime =? 0).
    + destruct Hfl as (_ & _ & -> & _). simpl. by rewrite orb_true_r.
Qed.

End Replacing.

Lemma X26_replace_reopens_callee_witness :
  Cleaned segment5 (Some ([1; 2; 3]%Z, [entry0])) world0
  = (Ok (None, cleaned5), world0)
  /\ exists s' old' w',
    Replace cleaned5 segment5 world0 = (None, (s', old'), w')
    /\ closed s' = false /\ suffix s' = EmptyString
    /\ fdata (log s') = [1; 2; 3]%Z /\ ientries (Index s') = [entry0].
Proof.
  split; [reflexivity|].
  destruct (Replace cleaned5 segment5 world0) as [[[e|] [s' old']] w'] eqn:HR;
    [vm_compute in HR; discriminate|].
  exists s', old', w'. split; [reflexivity|].
  destruct (X26_replace_reopens_callee cleaned5 segment5 s' old' world0 w' HR)
    as (H1 & H2 & _ & H4 & H5 & _).
  auto.
Defined.

Lemma X27_close_wakes_nobody_witness :
  exists err s' w',
    Close registered5 world1 = (err, s', w')
    /\ waiters s' !! 7%nat = Some 0%nat /\ isOpen 0 w'.
Proof.
  destruct (Close registered5 world1) as [[err s'] w'] eqn:HC.
  exists err, s', w'. split; [reflexivity|].
  destruct (X27_close_wakes_nobody registered5 s' world1 w' err HC)
    as (_ & _ & H).
  apply (H 7%nat 0%nat); reflexivity.
Defined.

Lemma X28_offsets_follow_the_index_witness :
  IsEmpty segment3 = false /\ FirstOffset segment3 = 0
  /\ LastOffset segment3 = 4 /\ NextOffset segment3 = 5.
Proof.
  destruct (X28_offsets_follow_the_index segment3) as (H1 & H2 & H3 & H4).
  - split; [reflexivity|]. simpl. repeat split; try reflexivity. discriminate.
  - intros e He. simpl in He.
    repeat (apply elem_of_cons in He as [->|He]; [simpl; lia|]).
    by apply elem_of_nil in He.
  - rewrite H1, H2, H3, H4. repeat split; reflexivity.
Defined.

Lemma X29_check_split_counts_from_first_entry_witness :
  CheckSplit 5000 7000 segment3 = true /\ CheckSplit 5000 5999 segment3 = false.
Proof.
  destruct (X29_check_split_counts_from_first_entry segment3 5000 7000) as [_ H1].
  { split; [reflexivity|]. simpl. repeat split; try reflexivity. discriminate. }
  destruct (X29_check_split_counts_from_first_entry segment3 5000 5999) as [_ H2].
  { split; [reflexivity|]. simpl. repeat split; try reflexivity. discriminate. }
  split.
  - rewrite H1 by (simpl; lia). reflexivity.
  - rewrite H2 by (simpl; lia). reflexivity.
Defined.

End SegmentTheory.
